(** * SyncClient: a blocking stream adapter over an event-driven TCP client

    Shallow embedding of [src/SyncClient_Impl.h] (Teensy41_AsyncTCP).

    The adapter object is a record holding the fields of the C++ class; every
    member function becomes a function on that record.  The event-driven
    connection behind the [_client] pointer is not part of the file under
    study, so it enters as an interface (the class [AsyncClient] below) over
    an abstract connection state: what the connection answers, and which
    callbacks it fires during a [delay()], is left to the instance.  The
    adapter is single-threaded; callbacks run only inside [delay()] and,
    for the disconnect callback, possibly inside [close()].

    Loops whose exit depends on the connection take a [fuel] bound and answer
    [None] when it runs out.  [size_t] and [int] are 32 bits wide; their
    arithmetic is written with its wrap-around.  A vector that cannot grow
    raises: [_onData] catches that, [write], [operator=], the constructors
    and [_onConnect] do not.  An exception that leaves a callback unwinds
    into the network stack, which handles none: the run has no answer then
    either.

    Modelled: the constructors, the destructor, [_release], [ref], [unref],
    [connect], [_connect], [operator=], [connected], [stop], [_sendBuffer],
    the callbacks [_onData], [_onDisconnect], [_onConnect] and their
    registration, [write], [available], [peek], [read] and [flush].  Left
    out: [setTimeout] and [status]. *)

From Stdlib Require Import ZArith List Bool Lia.
From Stdlib Require Import Strings.Byte.
Import ListNotations.
Local Open Scope Z_scope.

(** ** Machine integers (Teensy 4.1: 32-bit [size_t], 32-bit [int]) *)

Definition SIZE_MOD : Z := 2 ^ 32.
Definition INT_MAX : Z := 2 ^ 31 - 1.

(** Arithmetic on [size_t] wraps modulo 2^32. *)
Definition size_t_wrap (z : Z) : Z := z mod SIZE_MOD.
Definition size_sub (a b : Z) : Z := size_t_wrap (a - b).
Definition size_add (a b : Z) : Z := size_t_wrap (a + b).

(** [static_cast<int>] of a [size_t], and [int] increments and decrements,
    read in two's complement. *)
Definition int_wrap (z : Z) : Z :=
  let w := z mod SIZE_MOD in if w <? 2 ^ 31 then w else w - SIZE_MOD.

(** ** [std::vector<uint8_t>]

    A vector is its elements and its capacity.  [vec] is the elements; the
    adapter keeps the capacity of each of its two vectors beside them.  The
    vector grows the way libstdc++, the library of the Teensy toolchain,
    grows it. *)

Definition vec := list byte.

Definition vec_size (v : vec) : Z := Z.of_nat (length v).

(** [std::vector::max_size()] for one-byte elements on a 32-bit target. *)
Definition vec_max_size : Z := INT_MAX.

(** The allocator, by what a vector sees of it: whether [operator new(n)]
    gives a block of [n] bytes or raises [std::bad_alloc].  Its answer is
    taken to depend on the size asked for alone. *)
Class Heap := heap_grants : Z -> bool.

(** The capacity a vector of [size] elements asks for when [n] more do not
    fit ([_M_check_len]): [size + max(size, n)], cut at [max_size()]. *)
Definition vec_grown (size n : Z) : Z :=
  let len := size_add size (Z.max size n) in
  if (len <? size) || (vec_max_size <? len) then vec_max_size else len.

(** [v.insert(v.end(), first, last)] on a vector of capacity [cap]: the
    elements and the capacity afterwards.  Nothing happens for an empty
    range; the elements go into the spare capacity when it holds them;
    otherwise the vector moves to a block of [vec_grown] elements.  [None]
    stands for the exception of that last case, [std::length_error] when
    fewer than [n] elements are left up to [max_size()] and [std::bad_alloc]
    when the heap does not grant the block; the vector is then left as it
    was. *)
Definition vec_insert_end {H : Heap} (cap : Z) (v data : vec)
  : option (vec * Z) :=
  let n := vec_size data in
  if n =? 0 then Some (v, cap)
  else if n <=? size_sub cap (vec_size v) then Some (v ++ data, cap)
  else if size_sub vec_max_size (vec_size v) <? n then None
  else
    let len := vec_grown (vec_size v) n in
    if heap_grants len then Some (v ++ data, len) else None.

(** Whether a vector of capacity [cap] holding [size] elements takes [n]
    more, that is, whether [insert] comes back. *)
Definition vec_takes {H : Heap} (cap size n : Z) : bool :=
  (n =? 0) || (n <=? size_sub cap size)
  || (negb (size_sub vec_max_size size <? n) && heap_grants (vec_grown size n)).

(** [v.reserve(n)] on a vector of capacity [cap]: the capacity afterwards,
    [None] for [std::length_error] ([n] above [max_size()]) and
    [std::bad_alloc]. *)
Definition vec_reserve {H : Heap} (cap n : Z) : option Z :=
  if vec_max_size <? n then None
  else if cap <? n then (if heap_grants n then Some n else None)
  else Some cap.

(** [v = x] for another vector [x], on a vector of capacity [cap]: a block
    of just [x.size()] elements is allocated when the capacity is too small
    for them, and [None] stands for the [std::bad_alloc] of that. *)
Definition vec_copy_assign {H : Heap} (cap : Z) (x : vec) : option (vec * Z) :=
  if cap <? vec_size x
  then (if heap_grants (vec_size x) then Some (x, vec_size x) else None)
  else Some (x, cap).

(** Whether a vector of capacity [cap] can be assigned [x], that is, whether
    [v = x] comes back. *)
Definition vec_copies {H : Heap} (cap : Z) (x : vec) : bool :=
  negb (cap <? vec_size x) || heap_grants (vec_size x).

(** [&v[from]] read for [n] bytes. *)
Definition vec_slice (v : vec) (from n : Z) : vec :=
  firstn (Z.to_nat n) (skipn (Z.to_nat from) v).

(** A [uint8_t] promoted to [int]. *)
Definition byte_to_int (b : byte) : Z := Z.of_N (Byte.to_N b).

(** ** The connection behind [_client] *)

(** Callbacks the connection may fire while the adapter yields. *)
Inductive Event : Type :=
| EvConnect
| EvAck
| EvData (data : vec)
| EvTimeout
| EvDisconnect.

(** The member functions of the event-driven client which the adapter calls,
    over an abstract connection state [Conn].  [ac_write c bytes] is
    [write(bytes, len, ASYNC_WRITE_FLAG_COPY)] and answers the new connection
    state with the number of bytes accepted.  [ac_close c now] also tells
    whether the connection fired its disconnect callback before returning.
    [ac_poll] is what the network stack does during one [delay()]: it moves the
    connection on and lists the callbacks it fires, in order. *)
Class AsyncClient (Conn : Type) := {
  ac_connected : Conn -> bool;
  ac_canSend : Conn -> bool;
  ac_space : Conn -> Z;
  ac_write : Conn -> vec -> Conn * Z;
  ac_ack : Conn -> Z -> Conn;
  ac_ackLater : Conn -> Conn;
  ac_close : Conn -> bool -> Conn * bool;
  ac_abort : Conn -> Conn;
  ac_poll : Conn -> Conn * list Event
}.

(** Modelled from the spec: the contract of the connection handle (section 6,
    external interfaces), whose code is not in the file under study.
    [space()] is a [size_t]; [canSend()] tells that some send window is open;
    [write] returns the bytes actually accepted, never more than offered. *)
Class AsyncClientContract (Conn : Type) {AC : AsyncClient Conn} : Prop := {
  space_range : forall c, 0 <= ac_space c < SIZE_MOD;
  canSend_space : forall c, ac_canSend c = true -> 0 < ac_space c;
  write_accepted : forall c bytes,
      0 <= snd (ac_write c bytes) <= vec_size bytes
}.

(** Calls the adapter issues on its connection, in program order. *)
Inductive Call : Type :=
| CallWrite (bytes : vec) (accepted : Z)
| CallAck (n : Z)
| CallAckLater
| CallClose (now : bool)
| CallAbort
| CallOnConnect (attach : bool)
| CallOnDisconnect (attach : bool)
| CallOnAck (attach : bool)
| CallOnData (attach : bool)
| CallOnTimeout (attach : bool)
| CallOnPoll (attach : bool)
| CallDelete.

(** What a member function that may raise hands back. *)
Inductive outcome (A : Type) : Type :=
| Returned (a : A)
| Raised.
Arguments Returned {A} a.
Arguments Raised {A}.

Section Adapter.
Context {Conn : Type} {AC : AsyncClient Conn} {H : Heap}.

(** ** The adapter object

    [_client] is the pointer together with the object it points to.
    [_tx_buffer] and [_rx_buffer] are the elements of the two vectors and
    [_tx_buffer_capacity] and [_rx_buffer_capacity] what their [capacity()]
    answers.  [calls] and [tx_copied] are ghost fields: the calls made on the
    connection so far, and every byte [write] has appended to [_tx_buffer] so
    far. *)
Record SyncClient : Type := mkSyncClient {
  _client : option Conn;
  _tx_buffer : vec;
  _tx_buffer_head : Z;
  _tx_buffer_size : Z;
  _rx_buffer : vec;
  _rx_buffer_head : Z;
  _ref : option Z;
  _tx_buffer_capacity : Z;
  _rx_buffer_capacity : Z;
  calls : list Call;
  tx_copied : vec
}.

Definition set_client (c : option Conn) (s : SyncClient) : SyncClient :=
  mkSyncClient c (_tx_buffer s) (_tx_buffer_head s) (_tx_buffer_size s)
    (_rx_buffer s) (_rx_buffer_head s) (_ref s)
    (_tx_buffer_capacity s) (_rx_buffer_capacity s) (calls s) (tx_copied s).

Definition set_tx (v : vec) (head : Z) (s : SyncClient) : SyncClient :=
  mkSyncClient (_client s) v head (_tx_buffer_size s)
    (_rx_buffer s) (_rx_buffer_head s) (_ref s)
    (_tx_buffer_capacity s) (_rx_buffer_capacity s) (calls s) (tx_copied s).

Definition set_rx (v : vec) (head : Z) (s : SyncClient) : SyncClient :=
  mkSyncClient (_client s) (_tx_buffer s) (_tx_buffer_head s) (_tx_buffer_size s)
    v head (_ref s)
    (_tx_buffer_capacity s) (_rx_buffer_capacity s) (calls s) (tx_copied s).

Definition set_ref (r : option Z) (s : SyncClient) : SyncClient :=
  mkSyncClient (_client s) (_tx_buffer s) (_tx_buffer_head s) (_tx_buffer_size s)
    (_rx_buffer s) (_rx_buffer_head s) r
    (_tx_buffer_capacity s) (_rx_buffer_capacity s) (calls s) (tx_copied s).

Definition set_tx_capacity (cap : Z) (s : SyncClient) : SyncClient :=
  mkSyncClient (_client s) (_tx_buffer s) (_tx_buffer_head s) (_tx_buffer_size s)
    (_rx_buffer s) (_rx_buffer_head s) (_ref s)
    cap (_rx_buffer_capacity s) (calls s) (tx_copied s).

Definition set_rx_capacity (cap : Z) (s : SyncClient) : SyncClient :=
  mkSyncClient (_client s) (_tx_buffer s) (_tx_buffer_head s) (_tx_buffer_size s)
    (_rx_buffer s) (_rx_buffer_head s) (_ref s)
    (_tx_buffer_capacity s) cap (calls s) (tx_copied s).

Definition log (cs : list Call) (s : SyncClient) : SyncClient :=
  mkSyncClient (_client s) (_tx_buffer s) (_tx_buffer_head s) (_tx_buffer_size s)
    (_rx_buffer s) (_rx_buffer_head s) (_ref s)
    (_tx_buffer_capacity s) (_rx_buffer_capacity s) (calls s ++ cs)
    (tx_copied s).

Definition note_copied (bytes : vec) (s : SyncClient) : SyncClient :=
  mkSyncClient (_client s) (_tx_buffer s) (_tx_buffer_head s) (_tx_buffer_size s)
    (_rx_buffer s) (_rx_buffer_head s) (_ref s)
    (_tx_buffer_capacity s) (_rx_buffer_capacity s) (calls s)
    (tx_copied s ++ bytes).

(** ** Reference counting *)

(** [ref()]; [alloc_ok] tells whether [new (std::nothrow) int] succeeds. *)
Definition ref (alloc_ok : bool) (s : SyncClient) : SyncClient * Z :=
  match _ref s with
  | Some n => let n' := int_wrap (n + 1) in (set_ref (Some n') s, n')
  | None =>
      if alloc_ok
      then let n' := int_wrap (0 + 1) in (set_ref (Some n') s, n')
      else (s, -1)
  end.

Definition unref (s : SyncClient) : SyncClient * Z :=
  match _ref s with
  | Some n =>
      let count := int_wrap (n - 1) in
      if 0 =? count then (set_ref None s, count)
      else (set_ref (Some count) s, count)
  | None => (s, -1)
  end.

Definition _release (s : SyncClient) : SyncClient :=
  let s1 :=
    match _client s with
    | Some c =>
        set_client None
          (log [CallOnData false; CallOnAck false; CallOnPoll false; CallAbort]
             (set_client (Some (ac_abort c)) s))
    | None => s
    end in
  set_rx [] 0 (set_tx [] 0 s1).

(** [~SyncClient()] *)
Definition destroy (s : SyncClient) : SyncClient :=
  let (s1, count) := unref s in
  if 0 =? count then _release s1 else s1.

(** ** Callback registration *)

Definition _attachCallbacks_Disconnect (s : SyncClient) : SyncClient :=
  log [CallOnDisconnect true] s.

Definition _attachCallbacks_AfterConnected (s : SyncClient) : SyncClient :=
  log [CallOnAck true; CallOnData true; CallOnTimeout true] s.

Definition _attachCallbacks (s : SyncClient) : SyncClient :=
  _attachCallbacks_AfterConnected (_attachCallbacks_Disconnect s).

(** ** Constructors *)

(** The members as the initializer list leaves them: two empty vectors
    without capacity. *)
Definition fresh (client : option Conn) (txBufLen : Z) : SyncClient :=
  mkSyncClient client [] 0 txBufLen [] 0 None 0 0 [] [].

(** [_tx_buffer.reserve(n)] *)
Definition reserve_tx (n : Z) (s : SyncClient) : outcome SyncClient :=
  match vec_reserve (_tx_buffer_capacity s) n with
  | Some cap => Returned (set_tx_capacity cap s)
  | None => Raised
  end.

(** [SyncClient(size_t txBufLen)]: an exception of [reserve] leaves the
    constructor, and there is no adapter then. *)
Definition SyncClient_new (txBufLen : Z) (alloc_ok : bool)
  : outcome SyncClient :=
  match reserve_tx txBufLen (fresh None txBufLen) with
  | Returned s0 => Returned (fst (ref alloc_ok s0))
  | Raised => Raised
  end.

(** [SyncClient(AsyncClient *client, size_t txBufLen)] *)
Definition SyncClient_adopt (client : option Conn) (txBufLen : Z)
  (alloc_ok : bool) : outcome SyncClient :=
  match reserve_tx txBufLen (fresh client txBufLen) with
  | Returned s0 =>
      let (s, n) := ref alloc_ok s0 in
      Returned
        match client with
        | Some _ => if 0 <? n then _attachCallbacks s else s
        | None => s
        end
  | Raised => Raised
  end.

(** ** Queries *)

Definition connected (s : SyncClient) : bool :=
  match _client s with
  | Some c => ac_connected c
  | None => false
  end.

(** [_client->canSend()], evaluated only behind [connected()]. *)
Definition canSend (s : SyncClient) : bool :=
  match _client s with
  | Some c => ac_canSend c
  | None => false
  end.

Definition available (s : SyncClient) : Z :=
  int_wrap (size_sub (vec_size (_rx_buffer s)) (_rx_buffer_head s)).

Definition peek (s : SyncClient) : Z :=
  if vec_size (_rx_buffer s) <=? _rx_buffer_head s then -1
  else byte_to_int (nth (Z.to_nat (_rx_buffer_head s)) (_rx_buffer s) x00).

(** ** Connection events *)

Definition _onDisconnect (s : SyncClient) : SyncClient :=
  set_tx [] 0 (set_client None s).

(** The disconnect callback installed by [_attachCallbacks_Disconnect]:
    [_onDisconnect()] and then [delete c]. *)
Definition on_disconnect (s : SyncClient) : SyncClient :=
  log [CallDelete] (_onDisconnect s).

(** [_onConnect(c)]; [Raised] when its [reserve] raises. *)
Definition _onConnect (c : Conn) (s : SyncClient) : outcome SyncClient :=
  match reserve_tx (_tx_buffer_size s) (set_tx [] 0 (set_client (Some c) s)) with
  | Returned s1 => Returned (_attachCallbacks_AfterConnected s1)
  | Raised => Raised
  end.

(** [_client->close(now)], with the disconnect callback run when the
    connection fires it from inside the call. *)
Definition client_close (now : bool) (s : SyncClient) : SyncClient :=
  match _client s with
  | Some c =>
      let (c', fired) := ac_close c now in
      let s1 := log [CallClose now] (set_client (Some c') s) in
      if fired then on_disconnect s1 else s1
  | None => s
  end.

(** [stop(maxWaitMs)] *)
Definition stop (maxWaitMs : Z) (s : SyncClient) : SyncClient * bool :=
  (client_close true s, true).

Definition _onData (data : vec) (s : SyncClient) : SyncClient :=
  match _client s with
  | Some c =>
      let s1 := log [CallAckLater] (set_client (Some (ac_ackLater c)) s) in
      match vec_insert_end (_rx_buffer_capacity s1) (_rx_buffer s1) data with
      | Some (rx, cap) => set_rx rx (_rx_buffer_head s1) (set_rx_capacity cap s1)
      | None => log [CallAbort] (set_client (Some (ac_abort (ac_ackLater c))) s1)
      end
  | None => s
  end.

(** ** Draining the TX buffer *)

(** The [while] loop of [_sendBuffer()]; one unit of [fuel] per turn. *)
Fixpoint _sendBuffer_loop (fuel : nat) (s : SyncClient) (sent_total : Z)
  {struct fuel} : option (SyncClient * Z) :=
  if connected s && canSend s
     && (_tx_buffer_head s <? vec_size (_tx_buffer s))
  then
    match fuel, _client s with
    | S fuel', Some c =>
        let available := size_sub (vec_size (_tx_buffer s)) (_tx_buffer_head s) in
        let sendable := ac_space c in
        let available := if sendable <? available then sendable else available in
        let bytes := vec_slice (_tx_buffer s) (_tx_buffer_head s) available in
        let (c', sent) := ac_write c bytes in
        let s1 :=
          log [CallWrite bytes sent]
            (set_tx (_tx_buffer s) (size_add (_tx_buffer_head s) sent)
               (set_client (Some c') s)) in
        let sent_total := size_add sent_total sent in
        if negb (sent =? available) then Some (s1, sent_total)
        else
          let s2 :=
            if _tx_buffer_head s1 =? vec_size (_tx_buffer s1)
            then set_tx [] 0 s1 else s1 in
          _sendBuffer_loop fuel' s2 sent_total
    | _, _ => None
    end
  else Some (s, sent_total).

Definition _sendBuffer (fuel : nat) (s : SyncClient) : option (SyncClient * Z) :=
  match _client s with
  | None => Some (s, 0)
  | Some c =>
      if negb (connected s) || negb (ac_canSend c)
         || (vec_size (_tx_buffer s) <=? _tx_buffer_head s)
      then Some (s, 0)
      else _sendBuffer_loop fuel s 0
  end.

(** ** Yielding *)

(** One callback fired by the connection.  A connection that has been
    dropped and deleted fires nothing more.  When [_onConnect] raises, the
    exception leaves the callback and there is no answer. *)
Definition dispatch (fuel : nat) (e : Event) (s : SyncClient)
  : option SyncClient :=
  match _client s with
  | None => Some s
  | Some c =>
      match e with
      | EvConnect =>
          match _onConnect c s with
          | Returned s' => Some s'
          | Raised => None
          end
      | EvAck =>
          match _sendBuffer fuel s with
          | Some (s', _) => Some s'
          | None => None
          end
      | EvData data => Some (_onData data s)
      | EvTimeout => Some (client_close false s)   (* c->close() *)
      | EvDisconnect => Some (on_disconnect s)
      end
  end.

Fixpoint dispatch_all (fuel : nat) (evs : list Event) (s : SyncClient)
  : option SyncClient :=
  match evs with
  | [] => Some s
  | e :: evs' =>
      match dispatch fuel e s with
      | Some s' => dispatch_all fuel evs' s'
      | None => None
      end
  end.

(** [delay()]: the network stack runs and fires its callbacks. *)
Definition delay (fuel : nat) (s : SyncClient) : option SyncClient :=
  match _client s with
  | None => Some s
  | Some c =>
      let (c', evs) := ac_poll c in
      dispatch_all fuel evs (set_client (Some c') s)
  end.

(** [while (connected() && !_client->canSend()) delay(0);] *)
Fixpoint wait_canSend (fuel : nat) (s : SyncClient) {struct fuel}
  : option SyncClient :=
  if connected s && negb (canSend s) then
    match fuel with
    | O => None
    | S fuel' =>
        match delay fuel' s with
        | Some s' => wait_canSend fuel' s'
        | None => None
        end
    end
  else Some s.

(** ** Writing *)

(** Free room in the TX buffer: [_tx_buffer_size] less what is unsent. *)
Definition tx_space (s : SyncClient) : Z :=
  let buffered := size_sub (vec_size (_tx_buffer s)) (_tx_buffer_head s) in
  if buffered <? _tx_buffer_size s
  then size_sub (_tx_buffer_size s) buffered else 0.

(** How the [if (space == 0)] block inside the loop of [write] ends. *)
Inductive room : Type :=
| Room (s : SyncClient) (space : Z)
| GiveUp (s : SyncClient)
| Disconnected (s : SyncClient).

Definition make_room (fuel : nat) (s : SyncClient) : option room :=
  let space := tx_space s in
  if space =? 0 then
    match wait_canSend fuel s with
    | None => None
    | Some s1 =>
        if negb (connected s1) then Some (Disconnected s1)
        else
          match _sendBuffer fuel s1 with
          | None => None
          | Some (s2, _) =>
              let space := tx_space s2 in
              if space =? 0 then Some (GiveUp s2) else Some (Room s2 space)
          end
    end
  else Some (Room s space).

(** How the loop of [write] is left: past its end (or by [break]), by the
    [return] inside it, or by an exception of [insert]. *)
Inductive loop_exit : Type :=
| LoopEnd (s : SyncClient) (written : Z)
| LoopReturn (s : SyncClient) (written : Z)
| LoopRaise (s : SyncClient).

Fixpoint write_loop (fuel : nat) (data : vec) (len : Z) (s : SyncClient)
  (written : Z) {struct fuel} : option loop_exit :=
  if written <? len then
    match fuel with
    | O => None
    | S fuel' =>
        match make_room fuel' s with
        | None => None
        | Some (Disconnected s1) => Some (LoopReturn s1 written)
        | Some (GiveUp s1) => Some (LoopEnd s1 written)
        | Some (Room s1 space) =>
            let toCopy := Z.min space (size_sub len written) in
            let bytes := vec_slice data written toCopy in
            match
              vec_insert_end (_tx_buffer_capacity s1) (_tx_buffer s1) bytes
            with
            | None => Some (LoopRaise s1)
            | Some (tx, cap) =>
                write_loop fuel' data len
                  (note_copied bytes
                     (set_tx tx (_tx_buffer_head s1) (set_tx_capacity cap s1)))
                  (size_add written toCopy)
            end
        end
    end
  else Some (LoopEnd s written).

(** [write(const uint8_t *data, size_t len)] *)
Definition write (fuel : nat) (data : vec) (len : Z) (s : SyncClient)
  : option (SyncClient * outcome Z) :=
  if negb (connected s) then Some (s, Returned 0)
  else
    match write_loop fuel data len s 0 with
    | None => None
    | Some (LoopRaise s1) => Some (s1, Raised)
    | Some (LoopReturn s1 written) => Some (s1, Returned written)
    | Some (LoopEnd s1 written) =>
        if connected s1 && canSend s1 then
          match _sendBuffer fuel s1 with
          | None => None
          | Some (s2, _) => Some (s2, Returned written)
          end
        else Some (s1, Returned written)
    end.

(** [write(uint8_t data)] *)
Definition write_byte (fuel : nat) (data : byte) (s : SyncClient)
  : option (SyncClient * outcome Z) :=
  write fuel [data] 1 s.

(** ** Reading *)

(** [read(uint8_t *data, size_t len)]: the new state, the returned [int] and
    the bytes stored through [data]. *)
Definition read (len : Z) (s : SyncClient) : SyncClient * Z * vec :=
  let available := size_sub (vec_size (_rx_buffer s)) (_rx_buffer_head s) in
  if available =? 0 then (s, -1, [])
  else
    let toRead := Z.min len available in
    let out := vec_slice (_rx_buffer s) (_rx_buffer_head s) toRead in
    let head := size_add (_rx_buffer_head s) toRead in
    let s1 :=
      if head =? vec_size (_rx_buffer s)
      then set_rx [] 0 s else set_rx (_rx_buffer s) head s in
    let s2 :=
      match _client s1 with
      | Some c =>
          if negb (toRead =? 0) && ac_connected c
          then log [CallAck toRead] (set_client (Some (ac_ack c toRead)) s1)
          else s1
      | None => s1
      end in
    (s2, int_wrap toRead, out).

(** [read()]: [res] starts at 0 and is overwritten by [read(&res, 1)]. *)
Definition read_byte (s : SyncClient) : SyncClient * Z :=
  let '(s1, n, out) := read 1 s in
  if negb (n =? 1) then (s1, -1)
  else (s1, byte_to_int (hd x00 out)).

(** ** Flushing *)

(** [flush(maxWaitMs)] *)
Definition flush (fuel : nat) (maxWaitMs : Z) (s : SyncClient)
  : option (SyncClient * bool) :=
  if negb (connected s) then Some (s, false)
  else if _tx_buffer_head s <? vec_size (_tx_buffer s) then
    match wait_canSend fuel s with
    | None => None
    | Some s1 =>
        match _client s1 with
        | None => Some (s1, false)
        | Some _ =>
            match _sendBuffer fuel s1 with
            | None => None
            | Some (s2, _) =>
                Some (s2, _tx_buffer_head s2 =? vec_size (_tx_buffer s2))
            end
        end
    end
  else Some (s, _tx_buffer_head s =? vec_size (_tx_buffer s)).

(** ** Representation invariant *)

(** The invariant of the data model on the TX buffer. *)
Definition tx_invariant (s : SyncClient) : Prop :=
  _tx_buffer_head s <= vec_size (_tx_buffer s) /\
  vec_size (_tx_buffer s) - _tx_buffer_head s <= _tx_buffer_size s.

(** The same with the ranges of the C++ types: heads are [size_t] indices
    into vectors no longer than [max_size()], which hold no more elements
    than their capacity. *)
Definition wf (s : SyncClient) : Prop :=
  (0 <= _tx_buffer_head s <= vec_size (_tx_buffer s)) /\
  vec_size (_tx_buffer s) <= vec_max_size /\
  vec_size (_tx_buffer s) - _tx_buffer_head s <= _tx_buffer_size s /\
  (0 <= _tx_buffer_size s < SIZE_MOD) /\
  (0 <= _rx_buffer_head s <= vec_size (_rx_buffer s)) /\
  vec_size (_rx_buffer s) <= vec_max_size /\
  (vec_size (_tx_buffer s) <= _tx_buffer_capacity s <= vec_max_size) /\
  (vec_size (_rx_buffer s) <= _rx_buffer_capacity s <= vec_max_size).

(** The counter, when allocated, holds a count that [++] can still raise. *)
Definition ref_ok (s : SyncClient) : Prop :=
  match _ref s with
  | Some n => 1 <= n < INT_MAX
  | None => True
  end.

(** Unsent bytes in the TX buffer. *)
Definition tx_unsent (s : SyncClient) : Z :=
  vec_size (_tx_buffer s) - _tx_buffer_head s.

(** Unread bytes in the RX buffer. *)
Definition rx_unread (s : SyncClient) : Z :=
  vec_size (_rx_buffer s) - _rx_buffer_head s.

(** The acknowledgment [read] sends for [toRead] consumed bytes. *)
Definition ack_calls (s : SyncClient) (toRead : Z) : list Call :=
  if negb (toRead =? 0) && connected s then [CallAck toRead] else [].

(** ** The drain helper as the design document words it

    While connected, with a send window and unsent bytes: offer
    [min(size - head, window)] bytes from [head] on, advance [head] by what
    was accepted, reset the buffer when [head] reaches [size], stop when less
    was accepted than offered; the answer is the total accepted. *)

(** The adapter after the connection [c'] took [accepted] of [bytes]. *)
Definition after_offer (s : SyncClient) (c' : Conn) (bytes : vec)
  (accepted : Z) : SyncClient :=
  let s1 := log [CallWrite bytes accepted] (set_client (Some c') s) in
  if _tx_buffer_head s + accepted =? vec_size (_tx_buffer s)
  then set_tx [] 0 s1
  else set_tx (_tx_buffer s) (_tx_buffer_head s + accepted) s1.

Fixpoint drain_spec (fuel : nat) (s : SyncClient) (total : Z) {struct fuel}
  : option (SyncClient * Z) :=
  if connected s && canSend s && (0 <? tx_unsent s) then
    match fuel, _client s with
    | S fuel', Some c =>
        let attempted := Z.min (tx_unsent s) (ac_space c) in
        let bytes := vec_slice (_tx_buffer s) (_tx_buffer_head s) attempted in
        let (c', accepted) := ac_write c bytes in
        let s' := after_offer s c' bytes accepted in
        if accepted <? attempted then Some (s', total + accepted)
        else drain_spec fuel' s' (total + accepted)
    | _, _ => None
    end
  else Some (s, total).

(** ** What everything but [write] leaves alone

    Nothing is appended to the TX buffer, the log of copied bytes and the
    configured size stay, and the vector gives no capacity back. *)
Definition quiet (s s' : SyncClient) : Prop :=
  tx_copied s' = tx_copied s /\
  vec_size (_tx_buffer s') <= vec_size (_tx_buffer s) /\
  _tx_buffer_size s' = _tx_buffer_size s /\
  _tx_buffer_capacity s <= _tx_buffer_capacity s'.

(** Every wait for the send window comes to an end: the connection opens
    its window or goes away. *)
Definition window_reopens : Prop :=
  forall s, wf s -> exists fuel s', wait_canSend fuel s = Some s'.

End Adapter.

Arguments SyncClient Conn : clear implicits.

(** Bytes accepted by the connection over a run of calls. *)
Fixpoint accepted_total (cs : list Call) : Z :=
  match cs with
  | [] => 0
  | CallWrite _ n :: cs' => n + accepted_total cs'
  | _ :: cs' => accepted_total cs'
  end.

Definition is_write (c : Call) : bool :=
  match c with
  | CallWrite _ _ => true
  | _ => false
  end.

(** ** A connection to run the model on

    A pipe with a send window: [write] accepts what fits the window and
    [close(true)] fires the disconnect callback at once.  A sound pipe opens
    its window by three bytes at every poll and delivers one byte of data; a
    fragile one goes down at the first poll and fires the disconnect
    callback. *)
Record Pipe : Type := mkPipe {
  pipe_up : bool;
  pipe_fragile : bool;
  pipe_window : Z;
  pipe_wire : vec
}.

Definition pipe_space (p : Pipe) : Z :=
  if pipe_up p then Z.min (Z.max 0 (pipe_window p)) 65535 else 0.

Definition pipe_write (p : Pipe) (bytes : vec) : Pipe * Z :=
  let n := Z.min (vec_size bytes) (pipe_space p) in
  (mkPipe (pipe_up p) (pipe_fragile p) (pipe_space p - n)
     (pipe_wire p ++ firstn (Z.to_nat n) bytes), n).

Definition pipe_down (p : Pipe) : Pipe :=
  mkPipe false (pipe_fragile p) (pipe_window p) (pipe_wire p).

Definition pipe_poll (p : Pipe) : Pipe * list Event :=
  if pipe_fragile p then (pipe_down p, [EvDisconnect])
  else
    (mkPipe (pipe_up p) false (Z.max 0 (pipe_window p) + 3) (pipe_wire p),
     [EvData [x2a]]).

#[export] Instance Pipe_AsyncClient : AsyncClient Pipe := {
  ac_connected := pipe_up;
  ac_canSend p := 0 <? pipe_space p;
  ac_space := pipe_space;
  ac_write := pipe_write;
  ac_ack p _ := p;
  ac_ackLater p := p;
  ac_close p now := (pipe_down p, now);
  ac_abort := pipe_down;
  ac_poll := pipe_poll
}.

(** A heap that grants blocks of up to 1000 bytes. *)
#[export] Instance small_heap : Heap := fun n => n <=? 1000.

(** The adapter a constructor has built (an idle one if it raised). *)
Definition built {Conn : Type} {AC : AsyncClient Conn}
  (o : outcome (SyncClient Conn)) : SyncClient Conn :=
  match o with
  | Returned s => s
  | Raised => fresh None 0
  end.

(** An adapter over an open pipe with window [w], TX size [cap]. *)
Definition on_pipe (cap w : Z) : SyncClient Pipe :=
  built (SyncClient_adopt (Some (mkPipe true false w [])) cap true).

(** The same over a fragile pipe. *)
Definition on_fragile_pipe (cap w : Z) : SyncClient Pipe :=
  built (SyncClient_adopt (Some (mkPipe true true w [])) cap true).

(** Sample adapters and data. *)
Definition hello : vec := [x68; x65; x6c; x6c; x6f].

(** Five bytes have arrived and none is read yet. *)
Definition pipe_with_data : SyncClient Pipe := _onData hello (on_pipe 2 1).

(** Five bytes are queued for sending; the window takes three. *)
Definition pipe_queued : SyncClient Pipe :=
  note_copied hello (set_tx hello 0 (on_pipe 8 3)).

(** Five bytes written through a two-byte TX buffer into a closed window. *)
Definition sample_run : option (SyncClient Pipe * outcome Z) :=
  write 10 hello 5 (on_pipe 2 0).

(** A TX vector that is full: 600 bytes written into a TX buffer of size
    600, of which the window has taken one.  The buffer has room for one
    byte, the vector has none, and the block of 1200 bytes it would move to
    is more than the heap grants. *)
Definition filler : vec := repeat x2e 600.

Definition crowded : SyncClient Pipe :=
  match write 5 filler 600 (on_pipe 600 1) with
  | Some (s, _) => s
  | None => on_pipe 600 1
  end.

(** A connection that never opens its send window and stays up until it is
    closed or aborted: it accepts nothing, and a poll fires no callback. *)
Record Wedged : Type := mkWedged { wedged_up : bool }.

#[export] Instance Wedged_AsyncClient : AsyncClient Wedged := {
  ac_connected := wedged_up;
  ac_canSend _ := false;
  ac_space _ := 0;
  ac_write w _ := (w, 0);
  ac_ack w _ := w;
  ac_ackLater w := w;
  ac_close _ _ := (mkWedged false, false);
  ac_abort _ := mkWedged false;
  ac_poll w := (w, [])
}.

(** An adapter without TX room over such a connection. *)
Definition wedged : SyncClient Wedged :=
  built (SyncClient_adopt (Some (mkWedged true)) 0 true).

(** An adapter whose counter could not be allocated. *)
Definition uncounted : SyncClient Pipe := built (SyncClient_new 8 false).

(** ** The two buffers as queues *)

(** The bytes the connection has accepted over a run of calls, in order:
    of each [write] the first [accepted] bytes offered. *)
Fixpoint accepted_bytes (cs : list Call) : vec :=
  match cs with
  | [] => []
  | CallWrite bytes n :: cs' => firstn (Z.to_nat n) bytes ++ accepted_bytes cs'
  | _ :: cs' => accepted_bytes cs'
  end.

(** Calls that tell of a callback which empties the TX buffer: the
    disconnect callback ends in [delete c], the connect callback registers
    the ack callback. *)
Definition keeps_tx (c : Call) : bool :=
  match c with
  | CallDelete => false
  | CallOnAck _ => false
  | _ => true
  end.

Section Queues.
Context {Conn : Type} {AC : AsyncClient Conn} {H : Heap}.

(** Received and not yet read, oldest byte first. *)
Definition rx_pending (s : SyncClient Conn) : vec :=
  skipn (Z.to_nat (_rx_buffer_head s)) (_rx_buffer s).

(** Written and not yet accepted by the connection, oldest byte first. *)
Definition tx_pending (s : SyncClient Conn) : vec :=
  skipn (Z.to_nat (_tx_buffer_head s)) (_tx_buffer s).

(** A buffer with nothing left in it is empty, with its head at 0. *)
Definition compact (s : SyncClient Conn) : Prop :=
  (tx_unsent s = 0 -> _tx_buffer s = [] /\ _tx_buffer_head s = 0) /\
  (rx_unread s = 0 -> _rx_buffer s = [] /\ _rx_buffer_head s = 0).

(** What waits in the TX buffer is the end of what [write] has copied. *)
Definition tx_recent (s : SyncClient Conn) : Prop :=
  exists older, tx_copied s = older ++ tx_pending s.

(** Nothing unread is lost or moved: bytes are only added behind. *)
Definition rx_grows (s s' : SyncClient Conn) : Prop :=
  exists more, rx_pending s' = rx_pending s ++ more.

(** From [s] to [s']: the calls made, the bytes [write] has copied, and,
    when no call tells of an emptied TX buffer, the account of the queue:
    what was accepted followed by what waits now is what waited before
    followed by what was copied. *)
Definition carries (s s' : SyncClient Conn) : Prop :=
  exists new added,
    calls s' = calls s ++ new /\
    tx_copied s' = tx_copied s ++ added /\
    (forallb keeps_tx new = true ->
     accepted_bytes new ++ tx_pending s' = tx_pending s ++ added).

(** What the sending side and the callbacks do to the queues. *)
Definition orderly (s s' : SyncClient Conn) : Prop :=
  (compact s -> compact s') /\
  (tx_recent s -> tx_recent s') /\
  rx_grows s s' /\
  carries s s'.

(** The TX vector has the capacity that the constructors and [_onConnect]
    reserve for it: room for [_tx_buffer_size] bytes. *)
Definition reserved (s : SyncClient Conn) : Prop :=
  _tx_buffer_size s <= _tx_buffer_capacity s.

(** The configured size stays and the TX vector gives no capacity back. *)
Definition keeps_room (s s' : SyncClient Conn) : Prop :=
  _tx_buffer_size s' = _tx_buffer_size s /\
  _tx_buffer_capacity s <= _tx_buffer_capacity s'.

End Queues.

(** ** Connecting and assigning *)

(** The further member functions of the connection that [connect] and
    [operator=] call.  [ac_connect c host port] is [connect(host, port)]
    and [ac_connect_ip] the same for an [IPAddress]; both answer whether the
    request was issued.  These calls have no entry in the log of calls: the
    log keeps to the calls named in [Call]. *)
Class AsyncClientSetup (Conn : Type) := {
  ac_connect : Conn -> vec -> Z -> Conn * bool;
  ac_connect_ip : Conn -> Z -> Z -> Conn * bool;
  ac_disconnecting : Conn -> bool;
  ac_free : Conn -> Conn
}.

Section Setup.
Context {Conn : Type} {AC : AsyncClient Conn} {H : Heap}.
Context {AS : AsyncClientSetup Conn}.

(** [while (_client != NULL && !_client->connected()
            && !_client->disconnecting()) delay(1);] *)
Fixpoint wait_connected (fuel : nat) (s : SyncClient Conn) {struct fuel}
  : option (SyncClient Conn) :=
  match _client s with
  | Some c =>
      if negb (ac_connected c) && negb (ac_disconnecting c) then
        match fuel with
        | O => None
        | S fuel' =>
            match delay fuel' s with
            | Some s' => wait_connected fuel' s'
            | None => None
            end
        end
      else Some s
  | None => Some s
  end.

(** The body that [connect(host, port)] and [_connect(ip, port)] share, in
    the build without SSL.  [request] is the call on the new connection;
    [fresh] is what [new (std::nothrow) AsyncClient()] gives, [None] when it
    fails.  [delete _client] is logged; what the destructor of the old
    connection does is not the adapter's. *)
Definition connect_with (request : Conn -> Conn * bool) (fuel : nat)
  (fresh : option Conn) (s : SyncClient Conn)
  : option (SyncClient Conn * Z) :=
  if connected s then Some (s, 0)
  else
    let s0 :=
      match _client s with
      | Some _ => log [CallDelete] s
      | None => s
      end in
    match fresh with
    | None => Some (set_client None s0, 0)
    | Some c =>
        let s1 :=
          _attachCallbacks_Disconnect
            (log [CallOnConnect true] (set_client (Some c) s0)) in
        let (c', issued) := request c in
        let s2 := set_client (Some c') s1 in
        if issued then
          match wait_connected fuel s2 with
          | Some s3 => Some (s3, if connected s3 then 1 else 0)
          | None => None
          end
        else Some (s2, 0)
    end.

(** [connect(const char *host, uint16_t port)] *)
Definition connect (host : vec) (port : Z) :=
  connect_with (fun c => ac_connect c host port).

(** [_connect(const IPAddress& ip, uint16_t port)] *)
Definition _connect (ip : Z) (port : Z) :=
  connect_with (fun c => ac_connect_ip c ip port).

(** The right-hand side of an assignment: the adapter assigned to itself, or
    another adapter, whose [_client] points to the same connection object as
    that of the adapter assigned to, or does not. *)
Inductive Other : Type :=
| Itself
| Sharing (o : SyncClient Conn)
| Apart (o : SyncClient Conn).

(** [other._client] as line 315 reads it.  The connection object that both
    adapters point to has been aborted and freed by then. *)
Definition other_client (other : Other) (s : SyncClient Conn) : option Conn :=
  match other with
  | Itself => None
  | Apart o => _client o
  | Sharing o =>
      match _client s with
      | Some c => Some (ac_free (ac_abort c))
      | None => _client o
      end
  end.

(** Lines 308 to 326 of [operator=] for another adapter [o], whose
    connection pointer reads [client]: the configured size, the connection
    and the two vectors with their heads are taken, and the callbacks are
    registered on the connection held then.  An exception of a vector
    assignment ends the call with the members assigned up to there. *)
Definition take_over (client : option Conn) (o s : SyncClient Conn)
  : SyncClient Conn * outcome unit :=
  let s2 :=
    mkSyncClient (_client s) [] 0 (_tx_buffer_size o) [] 0 (_ref s)
      (_tx_buffer_capacity s) (_rx_buffer_capacity s) (calls s)
      (tx_copied s) in
  let s3 :=
    match client with
    | Some c => set_client (Some c) s2
    | None => s2
    end in
  match vec_copy_assign (_tx_buffer_capacity s3) (_tx_buffer o) with
  | None => (s3, Raised)
  | Some (tx, cap) =>
      let s4 := set_tx tx (_tx_buffer_head o) (set_tx_capacity cap s3) in
      match vec_copy_assign (_rx_buffer_capacity s4) (_rx_buffer o) with
      | None => (s4, Raised)
      | Some (rx, cap) =>
          let s5 := set_rx rx (_rx_buffer_head o) (set_rx_capacity cap s4) in
          (match _client s5 with
           | Some _ => _attachCallbacks s5
           | None => s5
           end, Returned tt)
      end
  end.

(** [operator=(const SyncClient &other)], the default one.  The adapter
    comes with what the call leaves by: [Raised] when a vector could not be
    copied.  Assigned to itself the adapter reads its own members as the
    assignment has left them so far: no connection, empty vectors, which
    assigned to themselves stay as they are.  The log and the record of
    copied bytes stay with the adapter assigned to. *)
Definition assign (other : Other) (s : SyncClient Conn)
  : SyncClient Conn * outcome unit :=
  let s1 :=
    match _client s with
    | Some c =>
        set_client None
          (log [CallAbort] (set_client (Some (ac_free (ac_abort c))) s))
    | None => s
    end in
  match other with
  | Itself => (set_rx [] 0 (set_tx [] 0 s1), Returned tt)
  | Sharing o | Apart o => take_over (other_client other s) o s1
  end.

(** The adapter on the right-hand side, when it is another one, is
    well-formed. *)
Definition wf_other (other : Other) : Prop :=
  match other with
  | Itself => True
  | Sharing o | Apart o => wf o
  end.

(** ** Histories

    What one adapter goes through by its own member functions and
    callbacks. *)
Inductive step : SyncClient Conn -> SyncClient Conn -> Prop :=
| step_write fuel data len s s' r :
    0 <= len < SIZE_MOD ->
    write fuel data len s = Some (s', r) -> step s s'
| step_sendBuffer fuel s s' n :
    _sendBuffer fuel s = Some (s', n) -> step s s'
| step_flush fuel maxWaitMs s s' b :
    flush fuel maxWaitMs s = Some (s', b) -> step s s'
| step_stop maxWaitMs s :
    step s (fst (stop maxWaitMs s))
| step_read len s :
    0 <= len < SIZE_MOD -> step s (fst (fst (read len s)))
| step_read_byte s :
    step s (fst (read_byte s))
| step_delay fuel s s' :
    delay fuel s = Some s' -> step s s'
| step_onConnect c s s' :
    _onConnect c s = Returned s' -> step s s'
| step_onDisconnect s :
    step s (_onDisconnect s)
| step_onData data s :
    step s (_onData data s)
| step_release s :
    step s (_release s)
| step_ref alloc_ok s :
    step s (fst (ref alloc_ok s))
| step_unref s :
    step s (fst (unref s))
| step_destroy s :
    step s (destroy s)
| step_connect request fuel fresh s s' r :
    connect_with request fuel fresh s = Some (s', r) -> step s s'.

(** An adapter that was built by a constructor and never assigned to. *)
Inductive unassigned : SyncClient Conn -> Prop :=
| own_new txBufLen alloc_ok s :
    0 <= txBufLen < SIZE_MOD ->
    SyncClient_new txBufLen alloc_ok = Returned s -> unassigned s
| own_adopt client txBufLen alloc_ok s :
    0 <= txBufLen < SIZE_MOD ->
    SyncClient_adopt client txBufLen alloc_ok = Returned s -> unassigned s
| own_step s s' :
    unassigned s -> step s s' -> unassigned s'.

(** Every adapter there can be: built by a constructor, gone through steps,
    and assigned from itself or from another such adapter, also when the
    assignment raised. *)
Inductive reachable : SyncClient Conn -> Prop :=
| reach_new txBufLen alloc_ok s :
    0 <= txBufLen < SIZE_MOD ->
    SyncClient_new txBufLen alloc_ok = Returned s -> reachable s
| reach_adopt client txBufLen alloc_ok s :
    0 <= txBufLen < SIZE_MOD ->
    SyncClient_adopt client txBufLen alloc_ok = Returned s -> reachable s
| reach_step s s' :
    reachable s -> step s s' -> reachable s'
| reach_assign_itself s :
    reachable s -> reachable (fst (assign Itself s))
| reach_assign_sharing o s :
    reachable s -> reachable o -> reachable (fst (assign (Sharing o) s))
| reach_assign_apart o s :
    reachable s -> reachable o -> reachable (fst (assign (Apart o) s)).

End Setup.

(** The pipe connects at once when it is sound; a fragile pipe stays down
    until its first poll tells of the disconnect. *)
#[export] Instance Pipe_AsyncClientSetup : AsyncClientSetup Pipe := {
  ac_connect p _ _ :=
    (mkPipe (negb (pipe_fragile p)) (pipe_fragile p) (pipe_window p)
       (pipe_wire p), true);
  ac_connect_ip p _ _ :=
    (mkPipe (negb (pipe_fragile p)) (pipe_fragile p) (pipe_window p)
       (pipe_wire p), true);
  ac_disconnecting _ := false;
  ac_free p := p
}.

(** An adapter that owns no connection yet. *)
Definition unbound : SyncClient Pipe := built (SyncClient_new 8 true).

(** A sound and a fragile pipe, not yet connected. *)
Definition new_pipe : Pipe := mkPipe false false 4 [].
Definition new_fragile_pipe : Pipe := mkPipe false true 4 [].

(** * Facts *)

(** ** Runs on the pipe *)

Example write_through_small_buffer :
  option_map snd sample_run = Some (Returned 5).
Proof. vm_compute. reflexivity. Qed.

Example write_short_when_pipe_breaks :
  option_map (fun x => (snd x, connected (fst x), tx_copied (fst x)))
    (write 10 hello 5 (on_fragile_pipe 2 0))
  = Some (Returned 2, false, [x68; x65]).
Proof. vm_compute. reflexivity. Qed.

Example write_without_capacity :
  option_map snd (write 10 hello 5 (on_pipe 0 4)) = Some (Returned 0).
Proof. vm_compute. reflexivity. Qed.

Example write_out_of_fuel : write 0 hello 5 (on_pipe 2 0) = None.
Proof. vm_compute. reflexivity. Qed.

Example write_after_stop :
  option_map snd (write 10 hello 5 (fst (stop 0 (on_pipe 2 5))))
  = Some (Returned 0).
Proof. vm_compute. reflexivity. Qed.

Example drain_fills_window :
  option_map (fun x => (snd x, _tx_buffer_head (fst x)))
    (_sendBuffer 6 pipe_queued)
  = Some (3, 3).
Proof. vm_compute. reflexivity. Qed.

Example ack_callback_drains :
  option_map (fun x => _tx_buffer_head x) (dispatch 9 EvAck pipe_queued)
  = Some 3.
Proof. vm_compute. reflexivity. Qed.

Example flush_leaves_rest :
  option_map snd (flush 5 77 pipe_queued) = Some false.
Proof. vm_compute. reflexivity. Qed.

Example peek_and_available :
  (peek pipe_with_data, available pipe_with_data, peek (on_pipe 2 0))
  = (104, 5, -1).
Proof. vm_compute. reflexivity. Qed.

Example counts :
  (snd (ref true (on_pipe 2 0)), snd (unref (on_pipe 2 0)),
   snd (unref (fst (ref true (on_pipe 2 0)))))
  = (2, 0, 1).
Proof. vm_compute. reflexivity. Qed.

Example last_owner_releases :
  calls (destroy (on_pipe 2 0))
  = calls (on_pipe 2 0)
    ++ [CallOnData false; CallOnAck false; CallOnPoll false; CallAbort].
Proof. vm_compute. reflexivity. Qed.

Example other_owner_keeps :
  calls (destroy (fst (ref true (on_pipe 2 0)))) = calls (on_pipe 2 0).
Proof. vm_compute. reflexivity. Qed.


(** ** Machine arithmetic without overflow *)

Lemma SIZE_MOD_value : SIZE_MOD = 4294967296.
Proof. reflexivity. Qed.

Lemma INT_MAX_value : INT_MAX = 2147483647.
Proof. reflexivity. Qed.

Lemma size_t_wrap_range z : 0 <= size_t_wrap z < SIZE_MOD.
Proof. unfold size_t_wrap. apply Z.mod_pos_bound. rewrite SIZE_MOD_value. lia. Qed.

Lemma size_sub_range a b : 0 <= size_sub a b < SIZE_MOD.
Proof. apply size_t_wrap_range. Qed.

Lemma size_sub_exact a b :
  0 <= b <= a -> a < SIZE_MOD -> size_sub a b = a - b.
Proof.
  intros Hb Ha. unfold size_sub, size_t_wrap. apply Z.mod_small. lia.
Qed.

Lemma size_add_exact a b :
  0 <= a + b < SIZE_MOD -> size_add a b = a + b.
Proof. intros Hab. unfold size_add, size_t_wrap. now apply Z.mod_small. Qed.

Lemma int_wrap_exact z : - 2 ^ 31 <= z <= INT_MAX -> int_wrap z = z.
Proof.
  intros Hz. unfold int_wrap. rewrite INT_MAX_value in Hz.
  destruct (Z_lt_le_dec z 0) as [Hneg | Hpos].
  - replace (z mod SIZE_MOD) with (z + SIZE_MOD).
    + rewrite SIZE_MOD_value.
      destruct (z + 4294967296 <? 2 ^ 31) eqn:E; [apply Z.ltb_lt in E|]; lia.
    + apply Z.mod_unique with (q := -1); rewrite SIZE_MOD_value; lia.
  - rewrite Z.mod_small by (rewrite SIZE_MOD_value; lia).
    destruct (z <? 2 ^ 31) eqn:E; [reflexivity | apply Z.ltb_ge in E; lia].
Qed.

Lemma int_wrap_zero z : 0 <= z < SIZE_MOD -> int_wrap z = 0 -> z = 0.
Proof.
  intros Hz. unfold int_wrap. rewrite Z.mod_small by assumption.
  rewrite SIZE_MOD_value in *.
  destruct (z <? 2 ^ 31); lia.
Qed.

(** ** Vectors *)

Lemma vec_size_nonneg (v : vec) : 0 <= vec_size v.
Proof. unfold vec_size. lia. Qed.

Lemma vec_size_app (v w : vec) : vec_size (v ++ w) = vec_size v + vec_size w.
Proof. unfold vec_size. rewrite length_app. lia. Qed.

Lemma vec_size_nil : vec_size [] = 0.
Proof. reflexivity. Qed.

Lemma vec_slice_size v from n :
  0 <= from -> 0 <= n -> from + n <= vec_size v ->
  vec_size (vec_slice v from n) = n.
Proof.
  unfold vec_slice, vec_size. intros Hf Hn Hle.
  rewrite length_firstn, length_skipn. lia.
Qed.

Lemma vec_slice_size_le v from n : vec_size (vec_slice v from n) <= Z.max 0 n.
Proof.
  unfold vec_slice, vec_size. rewrite length_firstn. lia.
Qed.

Lemma vec_slice_from_0 v n : vec_slice v 0 n = firstn (Z.to_nat n) v.
Proof. reflexivity. Qed.

Lemma vec_size_zero (v : vec) : vec_size v = 0 -> v = [].
Proof. unfold vec_size. destruct v; simpl; [reflexivity | lia]. Qed.

Lemma vec_grown_bounds size n :
  0 <= size -> 0 < n -> size + n <= vec_max_size ->
  size + n <= vec_grown size n <= vec_max_size.
Proof.
  intros S N M. unfold vec_grown. unfold vec_max_size in *.
  rewrite INT_MAX_value in *.
  rewrite size_add_exact by (rewrite SIZE_MOD_value; lia).
  destruct ((size + Z.max size n <? size)
            || (2147483647 <? size + Z.max size n)) eqn:E.
  - lia.
  - apply orb_false_elim in E. destruct E as [_ E]. apply Z.ltb_ge in E. lia.
Qed.

(** [insert] comes back exactly when [vec_takes] says so, with the elements
    appended. *)
Lemma vec_insert_end_takes {H : Heap} cap v data :
  vec_takes cap (vec_size v) (vec_size data) = true ->
  exists cap', vec_insert_end cap v data = Some (v ++ data, cap').
Proof.
  unfold vec_takes, vec_insert_end. intros T.
  destruct (vec_size data =? 0) eqn:Z0.
  - apply Z.eqb_eq, vec_size_zero in Z0. subst data. rewrite app_nil_r. eauto.
  - destruct (vec_size data <=? size_sub cap (vec_size v)); [eauto |].
    cbn [orb] in T. apply andb_prop in T. destruct T as [T1 T2].
    apply negb_true_iff in T1. rewrite T1, T2. eauto.
Qed.

Lemma vec_insert_end_None {H : Heap} cap v data :
  vec_insert_end cap v data = None <->
  vec_takes cap (vec_size v) (vec_size data) = false.
Proof.
  unfold vec_takes, vec_insert_end.
  destruct (vec_size data =? 0); [split; discriminate |].
  destruct (vec_size data <=? size_sub cap (vec_size v));
    [split; discriminate |].
  destruct (size_sub vec_max_size (vec_size v) <? vec_size data);
    [split; reflexivity |].
  destruct (heap_grants _); split; try reflexivity; discriminate.
Qed.

Lemma vec_insert_end_Some {H : Heap} cap v data v' cap' :
  vec_size v <= cap <= vec_max_size ->
  vec_insert_end cap v data = Some (v', cap') ->
  v' = v ++ data /\ vec_size v' <= cap' <= vec_max_size /\ cap <= cap'.
Proof.
  unfold vec_insert_end. intros C E.
  pose proof (vec_size_nonneg v) as Nv. pose proof (vec_size_nonneg data) as Nd.
  assert (Mx : vec_max_size < SIZE_MOD)
    by (unfold vec_max_size; rewrite INT_MAX_value, SIZE_MOD_value; lia).
  rewrite (size_sub_exact cap (vec_size v)) in E by lia.
  rewrite (size_sub_exact vec_max_size (vec_size v)) in E by lia.
  destruct (vec_size data =? 0) eqn:Z0.
  - apply Z.eqb_eq in Z0. inversion E; subst v' cap'.
    rewrite (vec_size_zero _ Z0), app_nil_r. split; [reflexivity | lia].
  - apply Z.eqb_neq in Z0.
    destruct (vec_size data <=? cap - vec_size v) eqn:L.
    + apply Z.leb_le in L. inversion E; subst v' cap'.
      rewrite vec_size_app. split; [reflexivity | lia].
    + destruct (vec_max_size - vec_size v <? vec_size data) eqn:G;
        [discriminate |].
      apply Z.ltb_ge in G. apply Z.leb_gt in L.
      destruct (heap_grants _); [| discriminate].
      inversion E; subst v' cap'. rewrite vec_size_app.
      pose proof (vec_grown_bounds (vec_size v) (vec_size data)
                    Nv ltac:(lia) ltac:(lia)).
      split; [reflexivity | lia].
Qed.

(** Elements that fit the spare capacity go in without a reallocation. *)
Lemma vec_insert_end_fits {H : Heap} cap v data :
  vec_size v + vec_size data <= cap -> cap < SIZE_MOD ->
  vec_insert_end cap v data = Some (v ++ data, cap).
Proof.
  intros Hfit Hc. unfold vec_insert_end.
  pose proof (vec_size_nonneg v) as Nv. pose proof (vec_size_nonneg data) as Nd.
  destruct (vec_size data =? 0) eqn:Z0.
  - apply Z.eqb_eq in Z0. now rewrite (vec_size_zero _ Z0), app_nil_r.
  - rewrite size_sub_exact by lia.
    destruct (vec_size data <=? cap - vec_size v) eqn:L;
      [reflexivity | apply Z.leb_gt in L; lia].
Qed.

Lemma vec_takes_fits {H : Heap} cap size n :
  0 <= size -> 0 <= n -> size + n <= cap -> cap < SIZE_MOD ->
  vec_takes cap size n = true.
Proof.
  intros S N Hfit Hc. unfold vec_takes. rewrite size_sub_exact by lia.
  destruct (n =? 0); [reflexivity |].
  replace (n <=? cap - size) with true by (symmetry; apply Z.leb_le; lia).
  reflexivity.
Qed.

Lemma vec_reserve_Some {H : Heap} cap n cap' :
  cap <= vec_max_size ->
  vec_reserve cap n = Some cap' ->
  cap <= cap' <= vec_max_size /\ n <= cap'.
Proof.
  unfold vec_reserve. intros C E.
  destruct (vec_max_size <? n) eqn:M; [discriminate | apply Z.ltb_ge in M].
  destruct (cap <? n) eqn:L; [apply Z.ltb_lt in L | apply Z.ltb_ge in L].
  - destruct (heap_grants n); [| discriminate]. inversion E; subst. lia.
  - inversion E; subst. lia.
Qed.

(** A capacity that is there already is not asked for again. *)
Lemma vec_reserve_there {H : Heap} cap n :
  n <= cap -> cap <= vec_max_size -> vec_reserve cap n = Some cap.
Proof.
  intros L C. unfold vec_reserve.
  replace (vec_max_size <? n) with false by (symmetry; apply Z.ltb_ge; lia).
  replace (cap <? n) with false by (symmetry; apply Z.ltb_ge; lia).
  reflexivity.
Qed.

Lemma vec_copy_assign_Some {H : Heap} cap x v' cap' :
  cap <= vec_max_size -> vec_size x <= vec_max_size ->
  vec_copy_assign cap x = Some (v', cap') ->
  v' = x /\ vec_size v' <= cap' <= vec_max_size.
Proof.
  unfold vec_copy_assign. intros C X E.
  destruct (cap <? vec_size x) eqn:L; [apply Z.ltb_lt in L | apply Z.ltb_ge in L].
  - destruct (heap_grants _); [| discriminate]. inversion E; subst.
    split; [reflexivity | lia].
  - inversion E; subst. split; [reflexivity | lia].
Qed.

(** ** The representation invariant is kept *)

Ltac unfold_setters :=
  unfold _onDisconnect, on_disconnect, _onConnect, _attachCallbacks,
    _attachCallbacks_AfterConnected, _attachCallbacks_Disconnect,
    set_client, set_tx, set_rx, set_ref, set_tx_capacity, set_rx_capacity,
    log, note_copied in *.

Ltac wf_crush :=
  unfold wf in *; unfold_setters; simpl in *;
  rewrite ?vec_size_nil in *; unfold vec_max_size in *;
  rewrite ?INT_MAX_value, ?SIZE_MOD_value in *;
  repeat split; try lia.

Section Invariant.
Context {Conn : Type} {AC : AsyncClient Conn} {H : Heap}.
Implicit Types s : SyncClient Conn.

Lemma wf_set_client c s : wf s -> wf (set_client c s).
Proof. intros W. wf_crush. Qed.

Lemma wf_log cs s : wf s -> wf (log cs s).
Proof. intros W. wf_crush. Qed.

Lemma wf_set_ref r s : wf s -> wf (set_ref r s).
Proof. intros W. wf_crush. Qed.

Lemma wf_tx_reset s : wf s -> wf (set_tx [] 0 s).
Proof. intros W. wf_crush. Qed.

Lemma wf_rx_reset s : wf s -> wf (set_rx [] 0 s).
Proof. intros W. wf_crush. Qed.

Lemma wf_fresh (client : option Conn) txBufLen :
  0 <= txBufLen < SIZE_MOD -> wf (fresh client txBufLen).
Proof. intros R. unfold fresh. wf_crush. Qed.

Lemma wf_ref alloc_ok s : wf s -> wf (fst (ref alloc_ok s)).
Proof.
  intros W. unfold ref. destruct (_ref s); [| destruct alloc_ok]; cbn [fst];
    auto using wf_set_ref.
Qed.

Lemma wf_unref s : wf s -> wf (fst (unref s)).
Proof.
  intros W. unfold unref. destruct (_ref s) as [n |]; cbn [fst]; auto.
  destruct (0 =? int_wrap (n - 1)); cbn [fst]; auto using wf_set_ref.
Qed.

Lemma wf_release s : wf s -> wf (_release s).
Proof.
  intros W. unfold _release. apply wf_rx_reset, wf_tx_reset.
  destruct (_client s); auto using wf_set_client, wf_log.
Qed.

Lemma wf_destroy s : wf s -> wf (destroy s).
Proof.
  intros W. unfold destroy. pose proof (wf_unref s W) as W1.
  destruct (unref s) as [s1 count]; simpl in W1.
  destruct (0 =? count); auto using wf_release.
Qed.

(** [reserve] on an empty TX vector, or on any that is well-formed. *)
Lemma wf_reserve_tx n s s' :
  wf s -> reserve_tx n s = Returned s' ->
  wf s' /\ n <= _tx_buffer_capacity s' /\
  _tx_buffer_capacity s <= _tx_buffer_capacity s' /\
  s' = set_tx_capacity (_tx_buffer_capacity s') s.
Proof.
  intros W E. unfold reserve_tx in E.
  destruct (vec_reserve (_tx_buffer_capacity s) n) as [cap |] eqn:V;
    [| discriminate].
  inversion E; subst s'. clear E.
  apply vec_reserve_Some in V; [| unfold wf in W; lia].
  cbn [set_tx_capacity _tx_buffer_capacity].
  split; [| split; [lia | split; [lia | reflexivity]]].
  unfold wf in *; unfold_setters; simpl in *. repeat split; lia.
Qed.

Lemma wf_new txBufLen alloc_ok s :
  0 <= txBufLen < SIZE_MOD ->
  SyncClient_new (Conn := Conn) txBufLen alloc_ok = Returned s -> wf s.
Proof.
  intros R E. unfold SyncClient_new in E.
  destruct (reserve_tx txBufLen (fresh None txBufLen)) as [s0 |] eqn:V;
    [| discriminate].
  inversion E; subst s. apply wf_ref.
  now destruct (wf_reserve_tx _ _ _ (wf_fresh None txBufLen R) V).
Qed.

Lemma wf_adopt (client : option Conn) txBufLen alloc_ok s :
  0 <= txBufLen < SIZE_MOD ->
  SyncClient_adopt client txBufLen alloc_ok = Returned s -> wf s.
Proof.
  intros R E. unfold SyncClient_adopt in E.
  destruct (reserve_tx txBufLen (fresh client txBufLen)) as [s0 |] eqn:V;
    [| discriminate].
  destruct (wf_reserve_tx _ _ _ (wf_fresh client txBufLen R) V) as [W0 _].
  pose proof (wf_ref alloc_ok s0 W0) as W.
  destruct (ref alloc_ok s0) as [s1 n]; simpl in W.
  inversion E; subst s.
  destruct client; auto. destruct (0 <? n); auto.
Qed.

Lemma wf_onDisconnect s : wf s -> wf (_onDisconnect s).
Proof. intros W. wf_crush. Qed.

Lemma wf_on_disconnect s : wf s -> wf (on_disconnect s).
Proof. intros W. wf_crush. Qed.

Lemma wf_onConnect c s s' : wf s -> _onConnect c s = Returned s' -> wf s'.
Proof.
  intros W E. unfold _onConnect in E.
  destruct (reserve_tx _ _) as [s1 |] eqn:V; [| discriminate].
  inversion E; subst s'.
  apply wf_reserve_tx in V; [| clear V; wf_crush].
  destruct V as [W1 _]. clear - W1. wf_crush.
Qed.

Lemma wf_client_close now s : wf s -> wf (client_close now s).
Proof.
  intros W. unfold client_close. destruct (_client s) as [c |]; auto.
  destruct (ac_close c now) as [c' fired].
  destruct fired; auto using wf_on_disconnect, wf_log, wf_set_client.
Qed.

Lemma wf_stop maxWaitMs s : wf s -> wf (fst (stop maxWaitMs s)).
Proof. intros W. simpl. now apply wf_client_close. Qed.

Lemma wf_onData data s : wf s -> wf (_onData data s).
Proof.
  intros W. unfold _onData. destruct (_client s) as [c |]; auto.
  destruct (vec_insert_end _ _ data) as [[rx cap] |] eqn:E.
  - apply vec_insert_end_Some in E; [| simpl; unfold wf in W; lia].
    destruct E as (-> & Hmax & _).
    simpl in *. rewrite vec_size_app in Hmax.
    pose proof (vec_size_nonneg data).
    unfold wf in *; unfold_setters; simpl in *. rewrite vec_size_app.
    repeat split; try lia.
  - auto using wf_log, wf_set_client.
Qed.

Lemma wf_read len s :
  0 <= len < SIZE_MOD -> wf s -> wf (fst (fst (read len s))).
Proof.
  intros L W. unfold read.
  assert (A : size_sub (vec_size (_rx_buffer s)) (_rx_buffer_head s)
              = vec_size (_rx_buffer s) - _rx_buffer_head s).
  { apply size_sub_exact; wf_crush. }
  rewrite A.
  destruct (vec_size (_rx_buffer s) - _rx_buffer_head s =? 0) eqn:E;
    cbn [fst]; auto.
  apply Z.eqb_neq in E.
  set (toRead := Z.min len (vec_size (_rx_buffer s) - _rx_buffer_head s)).
  assert (Hadd : size_add (_rx_buffer_head s) toRead = _rx_buffer_head s + toRead).
  { apply size_add_exact. subst toRead. wf_crush. }
  rewrite Hadd.
  set (s1 := if _rx_buffer_head s + toRead =? vec_size (_rx_buffer s)
             then set_rx [] 0 s
             else set_rx (_rx_buffer s) (_rx_buffer_head s + toRead) s).
  assert (W1 : wf s1).
  { subst s1. destruct (_rx_buffer_head s + toRead =? vec_size (_rx_buffer s)).
    - now apply wf_rx_reset.
    - subst toRead. wf_crush. }
  destruct (_client s1) as [c |]; auto.
  destruct (negb (toRead =? 0) && ac_connected c); auto using wf_log, wf_set_client.
Qed.

Lemma wf_read_byte s : wf s -> wf (fst (read_byte s)).
Proof.
  intros W. unfold read_byte.
  assert (R : 0 <= 1 < SIZE_MOD) by (rewrite SIZE_MOD_value; lia).
  pose proof (wf_read 1 s R W) as W1.
  destruct (read 1 s) as [[s1 n] out]; simpl in W1.
  destruct (negb (n =? 1)); assumption.
Qed.

End Invariant.

(** ** The drain helper *)

(** Splits a conjunction into its parts without touching what is under a
    quantifier. *)
Ltac conjs := repeat match goal with |- _ /\ _ => split end.

Section Drain.
Context {Conn : Type} {AC : AsyncClient Conn} {H : Heap}.
Context {K : AsyncClientContract Conn}.
Implicit Types s : SyncClient Conn.

Lemma clamp_min a b : (if b <? a then b else a) = Z.min a b.
Proof. destruct (b <? a) eqn:E; [apply Z.ltb_lt in E | apply Z.ltb_ge in E]; lia. Qed.

Lemma unsent_test s :
  (_tx_buffer_head s <? vec_size (_tx_buffer s)) = (0 <? tx_unsent s).
Proof.
  unfold tx_unsent.
  destruct (_tx_buffer_head s <? vec_size (_tx_buffer s)) eqn:E;
    [apply Z.ltb_lt in E | apply Z.ltb_ge in E]; symmetry;
    [apply Z.ltb_lt | apply Z.ltb_ge]; lia.
Qed.

Lemma wf_unsent_exact s :
  wf s ->
  size_sub (vec_size (_tx_buffer s)) (_tx_buffer_head s) = tx_unsent s.
Proof. intros W. unfold tx_unsent. apply size_sub_exact; wf_crush. Qed.

(** What one offer to the connection amounts to. *)
Lemma offer_facts s c c' sent :
  wf s ->
  ac_write c (vec_slice (_tx_buffer s) (_tx_buffer_head s)
                (Z.min (tx_unsent s) (ac_space c))) = (c', sent) ->
  0 <= tx_unsent s ->
  vec_size (vec_slice (_tx_buffer s) (_tx_buffer_head s)
              (Z.min (tx_unsent s) (ac_space c)))
  = Z.min (tx_unsent s) (ac_space c)
  /\ 0 <= sent <= Z.min (tx_unsent s) (ac_space c).
Proof.
  intros W EW U.
  pose proof (space_range c) as R.
  assert (S : vec_size (vec_slice (_tx_buffer s) (_tx_buffer_head s)
                 (Z.min (tx_unsent s) (ac_space c)))
              = Z.min (tx_unsent s) (ac_space c)).
  { apply vec_slice_size; unfold tx_unsent in *; wf_crush. }
  split; [exact S |].
  pose proof (write_accepted c (vec_slice (_tx_buffer s) (_tx_buffer_head s)
                 (Z.min (tx_unsent s) (ac_space c)))) as A.
  rewrite EW in A. simpl in A. lia.
Qed.

Lemma wf_after_offer s c' bytes accepted :
  wf s -> 0 <= accepted <= tx_unsent s ->
  wf (after_offer s c' bytes accepted).
Proof.
  intros W A. unfold after_offer, tx_unsent in *.
  destruct (_tx_buffer_head s + accepted =? vec_size (_tx_buffer s)); wf_crush.
Qed.

Lemma unsent_after_offer s c' bytes accepted :
  wf s -> 0 <= accepted <= tx_unsent s ->
  tx_unsent (after_offer s c' bytes accepted) = tx_unsent s - accepted.
Proof.
  intros W A. unfold after_offer, tx_unsent in *.
  destruct (_tx_buffer_head s + accepted =? vec_size (_tx_buffer s)) eqn:E;
    [apply Z.eqb_eq in E |]; simpl; rewrite ?vec_size_nil; lia.
Qed.

(** On well-formed states, over a connection that honours its contract, the
    loop of [_sendBuffer] is the loop of the design document. *)
Lemma sendBuffer_loop_refines fuel :
  forall s t, wf s -> 0 <= t -> t + tx_unsent s < SIZE_MOD ->
  _sendBuffer_loop fuel s t = drain_spec fuel s t.
Proof.
  induction fuel as [| fuel IH]; intros s t W T B.
  - simpl. rewrite unsent_test. reflexivity.
  - cbn [_sendBuffer_loop drain_spec]. rewrite unsent_test.
    destruct (connected s && canSend s && (0 <? tx_unsent s)) eqn:C;
      [| reflexivity].
    destruct (_client s) as [c |] eqn:EC; [| reflexivity].
    apply andb_prop in C. destruct C as [_ U]. apply Z.ltb_lt in U.
    rewrite (wf_unsent_exact s W), clamp_min.
    destruct (ac_write c _) as [c' sent] eqn:EW.
    destruct (offer_facts s c c' sent W EW ltac:(lia)) as [S A].
    rewrite (size_add_exact (_tx_buffer_head s) sent)
      by (unfold tx_unsent in *; wf_crush).
    rewrite (size_add_exact t sent) by lia.
    destruct (sent <? Z.min (tx_unsent s) (ac_space c)) eqn:L.
    + apply Z.ltb_lt in L.
      replace (sent =? Z.min (tx_unsent s) (ac_space c)) with false
        by (symmetry; apply Z.eqb_neq; lia).
      cbn [negb]. unfold after_offer.
      replace (_tx_buffer_head s + sent =? vec_size (_tx_buffer s)) with false
        by (symmetry; apply Z.eqb_neq; unfold tx_unsent in *; lia).
      reflexivity.
    + apply Z.ltb_ge in L.
      replace (sent =? Z.min (tx_unsent s) (ac_space c)) with true
        by (symmetry; apply Z.eqb_eq; lia).
      cbn [negb].
      assert (A' : 0 <= sent <= tx_unsent s) by lia.
      pose proof (wf_after_offer s c' (vec_slice (_tx_buffer s)
        (_tx_buffer_head s) (Z.min (tx_unsent s) (ac_space c))) sent W A') as W'.
      pose proof (unsent_after_offer s c' (vec_slice (_tx_buffer s)
        (_tx_buffer_head s) (Z.min (tx_unsent s) (ac_space c))) sent W A') as U'.
      rewrite <- IH by (auto; lia). unfold after_offer.
      cbn [log set_tx set_client _tx_buffer _tx_buffer_head].
      destruct (_tx_buffer_head s + sent =? vec_size (_tx_buffer s));
        reflexivity.
Qed.

Lemma connected_client s :
  connected s = true ->
  exists c, _client s = Some c /\ ac_connected c = true.
Proof.
  unfold connected. destruct (_client s) as [c |]; [eauto | discriminate].
Qed.

Lemma quiet_refl s : quiet s s.
Proof. unfold quiet. repeat split; lia. Qed.

Lemma quiet_trans s1 s2 s3 : quiet s1 s2 -> quiet s2 s3 -> quiet s1 s3.
Proof.
  unfold quiet. intros (A1 & B1 & C1) (A2 & B2 & C2).
  repeat split; try congruence; lia.
Qed.

Lemma quiet_after_offer s c' bytes accepted :
  quiet s (after_offer s c' bytes accepted).
Proof.
  unfold quiet, after_offer.
  destruct (_tx_buffer_head s + accepted =? vec_size (_tx_buffer s));
    simpl; rewrite ?vec_size_nil; repeat split; try lia.
  apply vec_size_nonneg.
Qed.

Lemma calls_after_offer s c' bytes accepted :
  calls (after_offer s c' bytes accepted)
  = calls s ++ [CallWrite bytes accepted].
Proof.
  unfold after_offer.
  destruct (_tx_buffer_head s + accepted =? vec_size (_tx_buffer s)); reflexivity.
Qed.

Lemma rx_after_offer s c' bytes accepted :
  _rx_buffer (after_offer s c' bytes accepted) = _rx_buffer s /\
  _rx_buffer_head (after_offer s c' bytes accepted) = _rx_buffer_head s /\
  _ref (after_offer s c' bytes accepted) = _ref s.
Proof.
  unfold after_offer.
  destruct (_tx_buffer_head s + accepted =? vec_size (_tx_buffer s));
    repeat split; reflexivity.
Qed.

(** What a finished drain has done: the invariant stands, only the TX side
    and the connection moved, the calls made are [write]s, and the answer
    adds up what they accepted, which left the unsent bytes. *)
Lemma drain_spec_post fuel :
  forall s t s' n,
    wf s -> drain_spec fuel s t = Some (s', n) ->
    wf s' /\ quiet s s' /\
    _rx_buffer s' = _rx_buffer s /\
    _rx_buffer_head s' = _rx_buffer_head s /\
    _ref s' = _ref s /\
    exists new,
      calls s' = calls s ++ new /\
      forallb is_write new = true /\
      n = t + accepted_total new /\
      0 <= accepted_total new /\
      tx_unsent s' = tx_unsent s - accepted_total new.
Proof.
  induction fuel as [| fuel IH]; intros s t s' n W E.
  - simpl in E.
    destruct (connected s && canSend s && (0 <? tx_unsent s)); [discriminate |].
    inversion E; subst. conjs; auto using quiet_refl.
    exists []. rewrite app_nil_r. simpl. conjs; try reflexivity; lia.
  - cbn [drain_spec] in E.
    destruct (connected s && canSend s && (0 <? tx_unsent s)) eqn:C.
    2:{ inversion E; subst. conjs; auto using quiet_refl.
        exists []. rewrite app_nil_r. simpl. conjs; try reflexivity; lia. }
    destruct (_client s) as [c |] eqn:EC; [| discriminate].
    apply andb_prop in C. destruct C as [_ U]. apply Z.ltb_lt in U.
    destruct (ac_write c _) as [c' sent] eqn:EW.
    destruct (offer_facts s c c' sent W EW ltac:(lia)) as [S A].
    assert (A' : 0 <= sent <= tx_unsent s) by lia.
    set (bytes := vec_slice (_tx_buffer s) (_tx_buffer_head s)
                    (Z.min (tx_unsent s) (ac_space c))) in *.
    pose proof (wf_after_offer s c' bytes sent W A') as W'.
    pose proof (unsent_after_offer s c' bytes sent W A') as U'.
    pose proof (quiet_after_offer s c' bytes sent) as Q'.
    pose proof (calls_after_offer s c' bytes sent) as L'.
    destruct (rx_after_offer s c' bytes sent) as (R1 & R2 & R3).
    destruct (sent <? Z.min (tx_unsent s) (ac_space c)).
    + inversion E; subst. conjs; auto.
      exists [CallWrite bytes sent]. simpl.
      conjs; try assumption; try reflexivity; lia.
    + apply IH in E; [| exact W'].
      destruct E as (W2 & Q2 & R1' & R2' & R3' & new & L2 & F2 & N2 & P2 & U2).
      conjs; try congruence; eauto using quiet_trans.
      exists (CallWrite bytes sent :: new). simpl. conjs; try lia.
      * rewrite L2, L', <- app_assoc. reflexivity.
      * exact F2.
Qed.

(** With a unit of fuel per unsent byte and one to spare, the drain ends. *)
Lemma drain_spec_total fuel :
  forall s t, wf s -> tx_unsent s < Z.of_nat fuel ->
  exists r, drain_spec fuel s t = Some r.
Proof.
  induction fuel as [| fuel IH]; intros s t W F.
  - simpl. destruct (connected s && canSend s && (0 <? tx_unsent s)) eqn:C;
      [| eauto].
    apply andb_prop in C. destruct C as [_ U]. apply Z.ltb_lt in U. lia.
  - cbn [drain_spec].
    destruct (connected s && canSend s && (0 <? tx_unsent s)) eqn:C; [| eauto].
    apply andb_prop in C. destruct C as [C U]. apply andb_prop in C.
    destruct C as [C1 C2]. apply Z.ltb_lt in U.
    destruct (connected_client s C1) as (c & EC & _).
    unfold canSend in C2. rewrite EC in *.
    pose proof (canSend_space c C2) as Sp.
    destruct (ac_write c _) as [c' sent] eqn:EW.
    destruct (offer_facts s c c' sent W EW ltac:(lia)) as [S A].
    destruct (sent <? Z.min (tx_unsent s) (ac_space c)) eqn:L; [eauto |].
    apply Z.ltb_ge in L.
    assert (A' : 0 <= sent <= tx_unsent s) by lia.
    apply IH.
    + now apply wf_after_offer.
    + rewrite unsent_after_offer by assumption. lia.
Qed.

Lemma sendBuffer_refines fuel s :
  wf s -> _sendBuffer fuel s = drain_spec fuel s 0.
Proof.
  intros W. unfold _sendBuffer.
  destruct (_client s) as [c |] eqn:EC.
  - destruct (negb (connected s) || negb (ac_canSend c)
              || (vec_size (_tx_buffer s) <=? _tx_buffer_head s)) eqn:G.
    + assert (C : connected s && canSend s && (0 <? tx_unsent s) = false).
      { unfold canSend, tx_unsent. rewrite EC.
        destruct (connected s); [| reflexivity].
        destruct (ac_canSend c); [| reflexivity].
        simpl in *. apply Z.leb_le in G. apply Z.ltb_ge. lia. }
      destruct fuel; simpl; rewrite C; reflexivity.
    + apply sendBuffer_loop_refines; auto; try lia.
      unfold tx_unsent. wf_crush.
  - assert (C : connected s = false) by (unfold connected; now rewrite EC).
    destruct fuel; simpl; rewrite C; reflexivity.
Qed.

Lemma sendBuffer_post fuel s s' n :
  wf s -> _sendBuffer fuel s = Some (s', n) ->
  wf s' /\ quiet s s' /\
  _rx_buffer s' = _rx_buffer s /\
  _rx_buffer_head s' = _rx_buffer_head s /\
  _ref s' = _ref s /\
  exists new,
    calls s' = calls s ++ new /\
    forallb is_write new = true /\
    n = accepted_total new /\
    0 <= accepted_total new /\
    tx_unsent s' = tx_unsent s - accepted_total new.
Proof.
  intros W E. rewrite sendBuffer_refines in E by assumption.
  apply drain_spec_post in E; [| assumption].
  destruct E as (W' & Q & R1 & R2 & R3 & new & L & F & N & P & U).
  conjs; auto. exists new. conjs; auto.
Qed.

Lemma sendBuffer_total fuel s :
  wf s -> tx_unsent s < Z.of_nat fuel ->
  exists s' n, _sendBuffer fuel s = Some (s', n).
Proof.
  intros W F. rewrite sendBuffer_refines by assumption.
  destruct (drain_spec_total fuel s 0 W F) as [[s' n] E]. eauto.
Qed.

End Drain.

(** ** More fuel changes no answer *)

Section Fuel.
Context {Conn : Type} {AC : AsyncClient Conn} {H : Heap}.
Implicit Types s : SyncClient Conn.

Lemma sendBuffer_loop_mono f :
  forall f' s t r, (f <= f')%nat ->
  _sendBuffer_loop f s t = Some r -> _sendBuffer_loop f' s t = Some r.
Proof.
  induction f as [| f IH]; intros f' s t r L E.
  - simpl in E. destruct f'; simpl;
      destruct (connected s && canSend s
                && (_tx_buffer_head s <? vec_size (_tx_buffer s)));
      congruence.
  - destruct f' as [| f']; [lia |].
    cbn [_sendBuffer_loop] in *.
    destruct (connected s && canSend s
              && (_tx_buffer_head s <? vec_size (_tx_buffer s))); [| exact E].
    destruct (_client s) as [c |]; [| discriminate].
    destruct (ac_write c _) as [c' sent].
    destruct (negb _); [exact E |].
    apply IH; [lia | exact E].
Qed.

Lemma sendBuffer_mono f f' s r :
  (f <= f')%nat -> _sendBuffer f s = Some r -> _sendBuffer f' s = Some r.
Proof.
  unfold _sendBuffer. intros L E.
  destruct (_client s) as [c |]; [| exact E].
  destruct (_ || _); [exact E |].
  eapply sendBuffer_loop_mono; eassumption.
Qed.

Lemma dispatch_mono f f' e s r :
  (f <= f')%nat -> dispatch f e s = Some r -> dispatch f' e s = Some r.
Proof.
  unfold dispatch. intros L E.
  destruct (_client s) as [c |]; [| exact E].
  destruct e; try exact E.
  destruct (_sendBuffer f s) as [[s1 n] |] eqn:B; [| discriminate].
  now rewrite (sendBuffer_mono f f' s (s1, n) L B).
Qed.

Lemma dispatch_all_mono f f' evs :
  forall s r, (f <= f')%nat ->
  dispatch_all f evs s = Some r -> dispatch_all f' evs s = Some r.
Proof.
  induction evs as [| e evs IH]; intros s r L E; simpl in *; [exact E |].
  destruct (dispatch f e s) as [s1 |] eqn:D; [| discriminate].
  rewrite (dispatch_mono f f' e s s1 L D). now apply IH.
Qed.

Lemma delay_mono f f' s r :
  (f <= f')%nat -> delay f s = Some r -> delay f' s = Some r.
Proof.
  unfold delay. intros L E.
  destruct (_client s) as [c |]; [| exact E].
  destruct (ac_poll c) as [c' evs].
  eapply dispatch_all_mono; eassumption.
Qed.

Lemma wait_canSend_mono f :
  forall f' s r, (f <= f')%nat ->
  wait_canSend f s = Some r -> wait_canSend f' s = Some r.
Proof.
  induction f as [| f IH]; intros f' s r L E.
  - simpl in E. destruct f'; simpl;
      destruct (connected s && negb (canSend s)); congruence.
  - destruct f' as [| f']; [lia |].
    cbn [wait_canSend] in *.
    destruct (connected s && negb (canSend s)); [| exact E].
    destruct (delay f s) as [s1 |] eqn:D; [| discriminate].
    rewrite (delay_mono f f' s s1 ltac:(lia) D).
    apply IH; [lia | exact E].
Qed.

Lemma make_room_mono f f' s r :
  (f <= f')%nat -> make_room f s = Some r -> make_room f' s = Some r.
Proof.
  unfold make_room. intros L E.
  destruct (tx_space s =? 0); [| exact E].
  destruct (wait_canSend f s) as [s1 |] eqn:Wt; [| discriminate].
  rewrite (wait_canSend_mono f f' s s1 L Wt).
  destruct (negb (connected s1)); [exact E |].
  destruct (_sendBuffer f s1) as [[s2 n] |] eqn:B; [| discriminate].
  now rewrite (sendBuffer_mono f f' s1 (s2, n) L B).
Qed.

Lemma write_loop_mono data len f :
  forall f' s written r, (f <= f')%nat ->
  write_loop f data len s written = Some r ->
  write_loop f' data len s written = Some r.
Proof.
  induction f as [| f IH]; intros f' s written r L E.
  - simpl in E. destruct f'; simpl; destruct (written <? len); congruence.
  - destruct f' as [| f']; [lia |].
    cbn [write_loop] in *.
    destruct (written <? len); [| exact E].
    destruct (make_room f s) as [rm |] eqn:M; [| discriminate].
    rewrite (make_room_mono f f' s rm ltac:(lia) M).
    destruct rm as [s1 space | s1 | s1]; try exact E.
    destruct (vec_insert_end _ _ _) as [[tx cap] |]; [| exact E].
    apply IH; [lia | exact E].
Qed.


End Fuel.

(** ** Callbacks and waits keep the invariant and append nothing *)

Ltac quiet_crush :=
  unfold quiet; unfold_setters; simpl; rewrite ?vec_size_nil;
  conjs; try reflexivity; try lia; try apply vec_size_nonneg.

Section Events.
Context {Conn : Type} {AC : AsyncClient Conn} {H : Heap}.
Context {K : AsyncClientContract Conn}.
Implicit Types s : SyncClient Conn.

Lemma quiet_on_disconnect s : quiet s (on_disconnect s).
Proof. quiet_crush. Qed.

Lemma quiet_onConnect c s s' :
  wf s -> _onConnect c s = Returned s' -> quiet s s'.
Proof.
  intros W E. unfold _onConnect in E.
  destruct (reserve_tx _ _) as [s1 |] eqn:V; [| discriminate].
  inversion E; subst s'.
  apply wf_reserve_tx in V; [| clear V; wf_crush].
  destruct V as (_ & _ & C & ->). cbn [set_tx set_client _tx_buffer_capacity] in C.
  quiet_crush.
Qed.

Lemma quiet_client_close now s : quiet s (client_close now s).
Proof.
  unfold client_close. destruct (_client s) as [c |]; [| apply quiet_refl].
  destruct (ac_close c now) as [c' fired]. destruct fired; quiet_crush.
Qed.

Lemma quiet_onData data s : quiet s (_onData data s).
Proof.
  unfold _onData. destruct (_client s) as [c |]; [| apply quiet_refl].
  destruct (vec_insert_end _ _ data) as [[rx cap] |]; quiet_crush.
Qed.

Lemma dispatch_keeps fuel e s s' :
  wf s -> dispatch fuel e s = Some s' -> wf s' /\ quiet s s'.
Proof.
  unfold dispatch. intros W E.
  destruct (_client s) as [c |].
  2:{ inversion E; subst. auto using quiet_refl. }
  destruct e.
  - destruct (_onConnect c s) as [s1 |] eqn:B; [| discriminate].
    inversion E; subst. eauto using wf_onConnect, quiet_onConnect.
  - destruct (_sendBuffer fuel s) as [[s1 n] |] eqn:B; [| discriminate].
    inversion E; subst.
    destruct (sendBuffer_post fuel s s' n W B) as (W' & Q & _). auto.
  - inversion E; subst. auto using wf_onData, quiet_onData.
  - inversion E; subst. auto using wf_client_close, quiet_client_close.
  - inversion E; subst. auto using wf_on_disconnect, quiet_on_disconnect.
Qed.

Lemma dispatch_all_keeps fuel evs :
  forall s s', wf s -> dispatch_all fuel evs s = Some s' ->
  wf s' /\ quiet s s'.
Proof.
  induction evs as [| e evs IH]; intros s s' W E; simpl in E.
  - inversion E; subst. auto using quiet_refl.
  - destruct (dispatch fuel e s) as [s1 |] eqn:D; [| discriminate].
    destruct (dispatch_keeps fuel e s s1 W D) as [W1 Q1].
    destruct (IH s1 s' W1 E) as [W2 Q2].
    eauto using quiet_trans.
Qed.

Lemma delay_keeps fuel s s' :
  wf s -> delay fuel s = Some s' -> wf s' /\ quiet s s'.
Proof.
  unfold delay. intros W E.
  destruct (_client s) as [c |].
  2:{ inversion E; subst. auto using quiet_refl. }
  destruct (ac_poll c) as [c' evs].
  apply dispatch_all_keeps in E; [| now apply wf_set_client].
  destruct E as [W' Q]. split; [exact W' |].
  eapply quiet_trans; [| exact Q]. quiet_crush.
Qed.

Lemma wait_canSend_keeps fuel :
  forall s s', wf s -> wait_canSend fuel s = Some s' ->
  wf s' /\ quiet s s' /\ (connected s' = false \/ canSend s' = true).
Proof.
  assert (Done : forall s, connected s && negb (canSend s) = false ->
                 connected s = false \/ canSend s = true).
  { intros s C. destruct (connected s); [| auto].
    destruct (canSend s); [auto | discriminate]. }
  induction fuel as [| fuel IH]; intros s s' W E.
  - simpl in E. destruct (connected s && negb (canSend s)) eqn:C;
      [discriminate |].
    inversion E; subst. auto using quiet_refl.
  - cbn [wait_canSend] in E.
    destruct (connected s && negb (canSend s)) eqn:C.
    2:{ inversion E; subst. auto using quiet_refl. }
    destruct (delay fuel s) as [s1 |] eqn:D; [| discriminate].
    destruct (delay_keeps fuel s s1 W D) as [W1 Q1].
    destruct (IH s1 s' W1 E) as (W2 & Q2 & X).
    eauto using quiet_trans.
Qed.

End Events.

(** ** The write path *)

Lemma firstn_plus {A : Type} (n m : nat) :
  forall l : list A, firstn (n + m) l = firstn n l ++ firstn m (skipn n l).
Proof.
  induction n as [| n IH]; intros l; simpl; [reflexivity |].
  destruct l as [| a l]; simpl.
  - now rewrite firstn_nil.
  - now rewrite IH.
Qed.

Lemma vec_slice_app d a n m :
  0 <= a -> 0 <= n -> 0 <= m ->
  vec_slice d a n ++ vec_slice d (a + n) m = vec_slice d a (n + m).
Proof.
  intros Ha Hn Hm. unfold vec_slice.
  rewrite !Z2Nat.inj_add by lia.
  rewrite firstn_plus, skipn_skipn.
  now rewrite (Nat.add_comm (Z.to_nat n) (Z.to_nat a)).
Qed.

Lemma vec_slice_empty d a : vec_slice d a 0 = [].
Proof. reflexivity. Qed.

Section Write.
Context {Conn : Type} {AC : AsyncClient Conn} {H : Heap}.
Context {K : AsyncClientContract Conn}.
Implicit Types s : SyncClient Conn.

Lemma tx_space_exact s :
  wf s -> tx_space s = _tx_buffer_size s - tx_unsent s.
Proof.
  intros W. unfold tx_space. rewrite (wf_unsent_exact s W).
  assert (B : 0 <= tx_unsent s <= _tx_buffer_size s)
    by (unfold tx_unsent; wf_crush).
  destruct (tx_unsent s <? _tx_buffer_size s) eqn:E.
  - apply size_sub_exact; [lia | wf_crush].
  - apply Z.ltb_ge in E. lia.
Qed.

Lemma make_room_keeps fuel s r :
  wf s -> make_room fuel s = Some r ->
  match r with
  | Room s1 space =>
      wf s1 /\ quiet s s1 /\ space = tx_space s1 /\ 0 < space
  | GiveUp s1 => wf s1 /\ quiet s s1
  | Disconnected s1 => wf s1 /\ quiet s s1 /\ connected s1 = false
  end.
Proof.
  intros W E. unfold make_room in E.
  pose proof (tx_space_exact s W) as Sp.
  assert (B : 0 <= tx_unsent s <= _tx_buffer_size s)
    by (unfold tx_unsent; wf_crush).
  destruct (tx_space s =? 0) eqn:Z0.
  - destruct (wait_canSend fuel s) as [s1 |] eqn:Wt; [| discriminate].
    destruct (wait_canSend_keeps fuel s s1 W Wt) as (W1 & Q1 & _).
    destruct (negb (connected s1)) eqn:C.
    + inversion E; subst. apply negb_true_iff in C. auto.
    + destruct (_sendBuffer fuel s1) as [[s2 n] |] eqn:Sb; [| discriminate].
      destruct (sendBuffer_post fuel s1 s2 n W1 Sb) as (W2 & Q2 & _).
      pose proof (tx_space_exact s2 W2) as Sp2.
      assert (B2 : 0 <= tx_unsent s2 <= _tx_buffer_size s2)
        by (unfold tx_unsent; clear - W2; wf_crush).
      destruct (tx_space s2 =? 0) eqn:Z2; inversion E; subst.
      * eauto using quiet_trans.
      * apply Z.eqb_neq in Z2. conjs; eauto using quiet_trans. lia.
  - inversion E; subst. apply Z.eqb_neq in Z0.
    conjs; auto using quiet_refl. lia.
Qed.

(** The state after [write] has inserted [bytes] behind the TX buffer. *)
Lemma wf_copy s bytes tx cap :
  wf s -> vec_size bytes <= tx_space s ->
  vec_insert_end (_tx_buffer_capacity s) (_tx_buffer s) bytes = Some (tx, cap) ->
  tx = _tx_buffer s ++ bytes /\
  _tx_buffer_capacity s <= cap /\
  wf (note_copied bytes (set_tx tx (_tx_buffer_head s) (set_tx_capacity cap s))).
Proof.
  intros W Sp I.
  apply vec_insert_end_Some in I; [| unfold wf in W; lia].
  destruct I as (-> & Mx & Cp).
  rewrite vec_size_app in Mx. rewrite (tx_space_exact s W) in Sp.
  pose proof (vec_size_nonneg bytes). unfold tx_unsent in Sp.
  split; [reflexivity |]. split; [exact Cp |].
  unfold wf in *; unfold_setters; simpl in *. rewrite vec_size_app.
  unfold vec_max_size in *. conjs; lia.
Qed.

(** What the loop of [write] has done when it is left.  When it is left by
    an exception, [w] bytes are copied and the TX vector does not take the
    next ones. *)
Lemma write_loop_post data len fuel :
  forall s written x,
    wf s -> 0 <= written <= len -> len < SIZE_MOD ->
    write_loop fuel data len s written = Some x ->
    match x with
    | LoopEnd s' w | LoopReturn s' w =>
        wf s' /\ written <= w <= len /\
        tx_copied s' = tx_copied s ++ vec_slice data written (w - written) /\
        vec_size (_tx_buffer s') <= vec_size (_tx_buffer s) + (w - written)
    | LoopRaise s' =>
        exists w,
          wf s' /\ written <= w < len /\
          tx_copied s' = tx_copied s ++ vec_slice data written (w - written) /\
          vec_size (_tx_buffer s') <= vec_size (_tx_buffer s) + (w - written) /\
          _tx_buffer_capacity s <= _tx_buffer_capacity s' /\
          0 < tx_space s' /\
          vec_takes (_tx_buffer_capacity s') (vec_size (_tx_buffer s'))
            (vec_size (vec_slice data w (Z.min (tx_space s') (len - w))))
          = false
    end.
Proof.
  induction fuel as [| fuel IH]; intros s written x W Wr L E.
  - simpl in E. destruct (written <? len); [discriminate |].
    inversion E; subst. rewrite Z.sub_diag, vec_slice_empty, app_nil_r.
    conjs; auto; lia.
  - cbn [write_loop] in E. destruct (written <? len) eqn:Lt.
    2:{ inversion E; subst. rewrite Z.sub_diag, vec_slice_empty, app_nil_r.
        conjs; auto; lia. }
    apply Z.ltb_lt in Lt.
    destruct (make_room fuel s) as [rm |] eqn:M; [| discriminate].
    pose proof (make_room_keeps fuel s rm W M) as F.
    destruct rm as [s1 space | s1 | s1].
    + destruct F as (W1 & (Q1 & Q2 & Q3 & Q4) & Sp & Pos).
      rewrite (size_sub_exact len written) in E by lia.
      set (toCopy := Z.min space (len - written)) in *.
      assert (TC : 0 < toCopy <= len - written) by (subst toCopy; lia).
      pose proof (vec_slice_size_le data written toCopy) as SL.
      pose proof (vec_size_nonneg (vec_slice data written toCopy)) as SN.
      destruct (vec_insert_end _ _ _) as [[tx cap] |] eqn:I.
      * assert (Ft : vec_size (vec_slice data written toCopy) <= tx_space s1)
          by lia.
        destruct (wf_copy s1 _ tx cap W1 Ft I) as (-> & Cp1 & W2).
        rewrite (size_add_exact written toCopy) in E by lia.
        apply IH in E; try lia; [| exact W2].
        cbn [note_copied set_tx set_tx_capacity tx_copied _tx_buffer
             _tx_buffer_capacity] in E.
        rewrite vec_size_app in E.
        destruct x as [s' w | s' w | s'].
        -- destruct E as (W' & Wb & Cp & Sz).
           conjs; try lia; auto.
           rewrite Cp, Q1, <- app_assoc, vec_slice_app by lia.
           do 2 f_equal. lia.
        -- destruct E as (W' & Wb & Cp & Sz).
           conjs; try lia; auto.
           rewrite Cp, Q1, <- app_assoc, vec_slice_app by lia.
           do 2 f_equal. lia.
        -- destruct E as (w & W' & Wb & Cp & Sz & Cc & Ps & Tk).
           exists w. conjs; try lia; auto.
           rewrite Cp, Q1, <- app_assoc, vec_slice_app by lia.
           do 2 f_equal. lia.
      * inversion E; subst. apply vec_insert_end_None in I.
        exists written. rewrite Z.sub_diag, vec_slice_empty, app_nil_r.
        conjs; auto; try lia.
    + destruct F as (W1 & (Q1 & Q2 & Q3)). inversion E; subst.
      rewrite Z.sub_diag, vec_slice_empty, app_nil_r.
      conjs; auto; lia.
    + destruct F as (W1 & (Q1 & Q2 & Q3) & _). inversion E; subst.
      rewrite Z.sub_diag, vec_slice_empty, app_nil_r.
      conjs; auto; lia.
Qed.

(** What [write] has done when it comes back or raises. *)
Lemma write_post fuel data len s s' out :
  wf s -> 0 <= len < SIZE_MOD ->
  write fuel data len s = Some (s', out) ->
  wf s' /\
  match out with
  | Returned r =>
      0 <= r <= len /\
      tx_copied s' = tx_copied s ++ firstn (Z.to_nat r) data
  | Raised =>
      exists w,
        0 <= w < len /\
        tx_copied s' = tx_copied s ++ firstn (Z.to_nat w) data /\
        vec_size (_tx_buffer s') <= vec_size (_tx_buffer s) + w /\
        _tx_buffer_capacity s <= _tx_buffer_capacity s' /\
        0 < tx_space s' /\
        vec_takes (_tx_buffer_capacity s') (vec_size (_tx_buffer s'))
          (vec_size (vec_slice data w (Z.min (tx_space s') (len - w))))
        = false
  end.
Proof.
  intros W L E. unfold write in E.
  destruct (negb (connected s)).
  { inversion E; subst. simpl. rewrite app_nil_r. conjs; auto; lia. }
  destruct (write_loop fuel data len s 0) as [x |] eqn:Lp; [| discriminate].
  apply write_loop_post in Lp; try lia; auto.
  destruct x as [s1 w | s1 w | s1].
  - destruct Lp as (W1 & Wb & Cp & _).
    rewrite Z.sub_0_r, vec_slice_from_0 in Cp.
    destruct (connected s1 && canSend s1).
    + destruct (_sendBuffer fuel s1) as [[s2 n] |] eqn:Sb; [| discriminate].
      inversion E; subst.
      destruct (sendBuffer_post fuel s1 s' n W1 Sb) as (W2 & (Q & _) & _).
      conjs; auto; try lia. congruence.
    + inversion E; subst. conjs; auto; lia.
  - destruct Lp as (W1 & Wb & Cp & _).
    rewrite Z.sub_0_r, vec_slice_from_0 in Cp.
    inversion E; subst. conjs; auto; lia.
  - destruct Lp as (w & W1 & Wb & Cp & Sz & Cc & Ps & Tk).
    rewrite Z.sub_0_r, vec_slice_from_0 in Cp. rewrite Z.sub_0_r in Sz.
    inversion E; subst. split; [auto |].
    exists w. conjs; auto; lia.
Qed.

Lemma make_room_total s :
  window_reopens -> wf s -> exists fuel r, make_room fuel s = Some r.
Proof.
  intros Live W. unfold make_room.
  destruct (tx_space s =? 0); [| exists O; eauto].
  destruct (Live s W) as (f1 & s1 & Wt).
  destruct (wait_canSend_keeps f1 s s1 W Wt) as (W1 & _).
  destruct (connected s1) eqn:C.
  - destruct (sendBuffer_total (S (Z.to_nat (tx_unsent s1))) s1 W1 ltac:(lia))
      as (s2 & n & Sb).
    exists (Nat.max f1 (S (Z.to_nat (tx_unsent s1)))).
    rewrite (wait_canSend_mono f1 _ s s1 (Nat.le_max_l _ _) Wt), C.
    cbn [negb].
    rewrite (sendBuffer_mono _ _ s1 (s2, n) (Nat.le_max_r _ _) Sb).
    destruct (tx_space s2 =? 0); eauto.
  - exists f1. rewrite Wt, C. cbn [negb]. eauto.
Qed.

(** When every wait ends, so does the loop of [write]. *)
Lemma write_loop_total data len :
  window_reopens ->
  forall n s written,
    wf s -> 0 <= written <= len -> len < SIZE_MOD ->
    len - written < Z.of_nat n ->
    exists fuel x, write_loop fuel data len s written = Some x.
Proof.
  intros Live. induction n as [| n IH]; intros s written W Wr L Mn; [lia |].
  destruct (written <? len) eqn:Lt.
  2:{ exists O. simpl. rewrite Lt. eauto. }
  apply Z.ltb_lt in Lt.
  destruct (make_room_total s Live W) as (f1 & rm & M).
  pose proof (make_room_keeps f1 s rm W M) as F.
  destruct rm as [s1 space | s1 | s1].
  - destruct F as (W1 & _ & Sp & Pos).
    set (toCopy := Z.min space (len - written)).
    assert (TC : 0 < toCopy <= len - written) by (subst toCopy; lia).
    pose proof (vec_slice_size_le data written toCopy) as SL.
    destruct (vec_insert_end (_tx_buffer_capacity s1) (_tx_buffer s1)
                (vec_slice data written toCopy))
      as [[tx cap] |] eqn:I.
    + assert (Ft : vec_size (vec_slice data written toCopy) <= tx_space s1)
        by lia.
      destruct (wf_copy s1 _ tx cap W1 Ft I) as (_ & _ & W2).
      destruct (IH _ (written + toCopy) W2 ltac:(lia) L ltac:(lia))
        as (f2 & x & Lp).
      exists (S (Nat.max f1 f2)), x. cbn [write_loop].
      apply Z.ltb_lt in Lt. rewrite Lt.
      rewrite (make_room_mono f1 _ s _ (Nat.le_max_l _ _) M).
      rewrite (size_sub_exact len written) by lia. fold toCopy. rewrite I.
      rewrite (size_add_exact written toCopy) by lia.
      eapply write_loop_mono; [apply Nat.le_max_r | exact Lp].
    + exists (S f1). eexists. cbn [write_loop].
      apply Z.ltb_lt in Lt. rewrite Lt, M.
      rewrite (size_sub_exact len written) by lia. fold toCopy. rewrite I.
      reflexivity.
  - exists (S f1). eexists. cbn [write_loop].
    apply Z.ltb_lt in Lt. rewrite Lt, M. reflexivity.
  - exists (S f1). eexists. cbn [write_loop].
    apply Z.ltb_lt in Lt. rewrite Lt, M. reflexivity.
Qed.

Lemma write_total data len s :
  window_reopens -> wf s -> 0 <= len < SIZE_MOD ->
  exists fuel s' out, write fuel data len s = Some (s', out).
Proof.
  intros Live W L. unfold write.
  destruct (negb (connected s)); [exists O; eauto |].
  destruct (write_loop_total data len Live (S (Z.to_nat len)) s 0 W
              ltac:(lia) ltac:(lia) ltac:(lia)) as (f1 & x & Lp).
  pose proof (write_loop_post data len f1 s 0 x W ltac:(lia) ltac:(lia) Lp) as P.
  destruct x as [s1 w | s1 w | s1].
  - destruct P as (W1 & _).
    destruct (sendBuffer_total (S (Z.to_nat (tx_unsent s1))) s1 W1 ltac:(lia))
      as (s2 & n & Sb).
    exists (Nat.max f1 (S (Z.to_nat (tx_unsent s1)))).
    rewrite (write_loop_mono data len f1 _ s 0 _ (Nat.le_max_l _ _) Lp).
    rewrite (sendBuffer_mono _ _ s1 (s2, n) (Nat.le_max_r _ _) Sb).
    destruct (connected s1 && canSend s1); eauto.
  - exists f1. rewrite Lp. eauto.
  - exists f1. rewrite Lp. eauto.
Qed.

Lemma flush_keeps fuel maxWaitMs s s' b :
  wf s -> flush fuel maxWaitMs s = Some (s', b) -> wf s'.
Proof.
  intros W E. unfold flush in E.
  destruct (negb (connected s)); [inversion E; subst; auto |].
  destruct (_tx_buffer_head s <? vec_size (_tx_buffer s));
    [| inversion E; subst; auto].
  destruct (wait_canSend fuel s) as [s1 |] eqn:Wt; [| discriminate].
  destruct (wait_canSend_keeps fuel s s1 W Wt) as (W1 & _).
  destruct (_client s1); [| inversion E; subst; auto].
  destruct (_sendBuffer fuel s1) as [[s2 n] |] eqn:Sb; [| discriminate].
  inversion E; subst.
  now destruct (sendBuffer_post fuel s1 s' n W1 Sb) as (W2 & _).
Qed.

Lemma wf_tx_invariant s : wf s -> tx_invariant s.
Proof. unfold wf, tx_invariant. intros W. split; lia. Qed.

End Write.

(** ** Connecting and assigning keep the invariant *)

Section Histories.
Context {Conn : Type} {AC : AsyncClient Conn} {H : Heap}.
Context {AS : AsyncClientSetup Conn}.
Context {K : AsyncClientContract Conn}.
Implicit Types s : SyncClient Conn.

Lemma wait_connected_wf fuel :
  forall s s', wf s -> wait_connected fuel s = Some s' -> wf s' /\ quiet s s'.
Proof.
  induction fuel as [| fuel IH]; intros s s' W E.
  - simpl in E. destruct (_client s) as [c |];
      [destruct (negb (ac_connected c) && negb (ac_disconnecting c));
       [discriminate |] |];
      inversion E; subst; auto using quiet_refl.
  - cbn [wait_connected] in E. destruct (_client s) as [c |].
    2:{ inversion E; subst. auto using quiet_refl. }
    destruct (negb (ac_connected c) && negb (ac_disconnecting c)).
    2:{ inversion E; subst. auto using quiet_refl. }
    destruct (delay fuel s) as [s1 |] eqn:D; [| discriminate].
    destruct (delay_keeps fuel s s1 W D) as [W1 Q1].
    destruct (IH s1 s' W1 E) as (W' & Q').
    eauto using quiet_trans.
Qed.

Lemma connect_with_wf request fuel fresh s s' r :
  wf s -> connect_with request fuel fresh s = Some (s', r) ->
  wf s' /\ quiet s s'.
Proof.
  intros W E. unfold connect_with in E.
  destruct (connected s).
  { inversion E; subst. auto using quiet_refl. }
  set (s0 := match _client s with Some _ => log [CallDelete] s | None => s end)
    in *.
  assert (W0 : wf s0 /\ quiet s s0).
  { subst s0. destruct (_client s); split; auto using wf_log, quiet_refl.
    quiet_crush. }
  destruct W0 as [W0 Q0].
  destruct fresh as [c |].
  2:{ inversion E; subst. split; [auto using wf_set_client |].
      eapply quiet_trans; [exact Q0 | quiet_crush]. }
  destruct (request c) as [c' issued].
  set (s2 := set_client (Some c') _) in *.
  assert (W2 : wf s2 /\ quiet s s2).
  { subst s2. unfold _attachCallbacks_Disconnect.
    split; [auto using wf_set_client, wf_log |].
    eapply quiet_trans; [exact Q0 | quiet_crush]. }
  destruct W2 as [W2 Q2].
  destruct issued.
  - destruct (wait_connected fuel s2) as [s3 |] eqn:Wt; [| discriminate].
    destruct (wait_connected_wf fuel s2 s3 W2 Wt) as (W3 & Q3).
    inversion E; subst s3 r. eauto using quiet_trans.
  - inversion E; subst. auto.
Qed.

Lemma wf_put_tx s tx head cap :
  wf s -> 0 <= head <= vec_size tx ->
  vec_size tx - head <= _tx_buffer_size s ->
  vec_size tx <= cap <= vec_max_size ->
  wf (set_tx tx head (set_tx_capacity cap s)).
Proof.
  intros W Hd U C. unfold wf in *. cbn [set_tx set_tx_capacity _tx_buffer
    _tx_buffer_head _tx_buffer_size _rx_buffer _rx_buffer_head
    _tx_buffer_capacity _rx_buffer_capacity]. repeat split; lia.
Qed.

Lemma wf_put_rx s rx head cap :
  wf s -> 0 <= head <= vec_size rx ->
  vec_size rx <= cap <= vec_max_size ->
  wf (set_rx rx head (set_rx_capacity cap s)).
Proof.
  intros W Hd C. unfold wf in *. cbn [set_rx set_rx_capacity _tx_buffer
    _tx_buffer_head _tx_buffer_size _rx_buffer _rx_buffer_head
    _tx_buffer_capacity _rx_buffer_capacity]. repeat split; lia.
Qed.

Lemma wf_take_over (client : option Conn) (o s : SyncClient Conn) :
  wf s -> wf o -> wf (fst (take_over client o s)).
Proof.
  intros W Wfo. unfold take_over.
  set (s2 := mkSyncClient _ _ _ _ _ _ _ _ _ _ _).
  assert (W2 : wf s2).
  { pose proof (vec_size_nonneg (_tx_buffer s)).
    pose proof (vec_size_nonneg (_rx_buffer s)).
    subst s2. unfold wf in *.
    cbn [_tx_buffer _tx_buffer_head _tx_buffer_size _rx_buffer _rx_buffer_head
         _tx_buffer_capacity _rx_buffer_capacity].
    rewrite vec_size_nil. repeat split; lia. }
  assert (T2 : _tx_buffer_size s2 = _tx_buffer_size o) by reflexivity.
  clearbody s2. cbv zeta.
  set (s3 := match client with
             | Some c => set_client (Some c) s2
             | None => s2 end).
  assert (W3 : wf s3)
    by (subst s3; destruct client; auto using wf_set_client).
  assert (T3 : _tx_buffer_size s3 = _tx_buffer_size o)
    by (subst s3; destruct client; exact T2).
  clearbody s3.
  destruct (vec_copy_assign (_tx_buffer_capacity s3) (_tx_buffer o))
    as [[tx cap] |] eqn:Vt; [| exact W3].
  apply vec_copy_assign_Some in Vt;
    [| unfold wf in W3; lia | unfold wf in Wfo; lia].
  destruct Vt as [-> Ct].
  set (s4 := set_tx _ _ _).
  assert (W4 : wf s4).
  { subst s4. apply wf_put_tx; auto; rewrite ?T3; unfold wf in Wfo; lia. }
  clearbody s4.
  destruct (vec_copy_assign (_rx_buffer_capacity s4) (_rx_buffer o))
    as [[rx cap'] |] eqn:Vr; [| exact W4].
  apply vec_copy_assign_Some in Vr;
    [| unfold wf in W4; lia | unfold wf in Wfo; lia].
  destruct Vr as [-> Cr].
  set (s5 := set_rx _ _ _).
  assert (W5 : wf s5).
  { subst s5. apply wf_put_rx; auto. unfold wf in Wfo; lia. }
  clearbody s5. cbn [fst].
  destruct (_client s5); [| exact W5].
  unfold _attachCallbacks, _attachCallbacks_AfterConnected,
    _attachCallbacks_Disconnect. auto using wf_log.
Qed.

Lemma wf_assign other s : wf s -> wf_other other -> wf (fst (assign other s)).
Proof.
  intros W Wo. unfold assign.
  set (s1 := match _client s with
             | Some c => set_client None _
             | None => s end).
  assert (W1 : wf s1).
  { subst s1. destruct (_client s); auto using wf_set_client, wf_log. }
  destruct other as [| o | o]; cbn [wf_other] in Wo.
  - cbn [fst]. now apply wf_rx_reset, wf_tx_reset.
  - now apply wf_take_over.
  - now apply wf_take_over.
Qed.

Lemma wf_step s s' : step s s' -> wf s -> wf s'.
Proof.
  intros St W.
  destruct St as [fuel data len s s' r L E | fuel s s' n E
    | fuel maxWaitMs s s' b E | maxWaitMs s | len s L | s | fuel s s' E
    | c s s' E | s | data s | s | alloc_ok s | s | s
    | request fuel fresh s s' r E].
  - now destruct (write_post fuel data len s s' r W L E) as [W' _].
  - now destruct (sendBuffer_post fuel s s' n W E) as [W' _].
  - eapply flush_keeps; eassumption.
  - now apply wf_stop.
  - now apply wf_read.
  - now apply wf_read_byte.
  - now destruct (delay_keeps fuel s s' W E).
  - eapply wf_onConnect; eassumption.
  - now apply wf_onDisconnect.
  - now apply wf_onData.
  - now apply wf_release.
  - now apply wf_ref.
  - now apply wf_unref.
  - now apply wf_destroy.
  - now destruct (connect_with_wf request fuel fresh s s' r W E).
Qed.

Lemma unassigned_reachable s : unassigned s -> reachable s.
Proof.
  induction 1 as [n ok s R E | c n ok s R E | s s' _ IH St].
  - eapply reach_new; eassumption.
  - eapply reach_adopt; eassumption.
  - eapply reach_step; eassumption.
Qed.

Lemma wf_reachable s : reachable s -> wf s.
Proof.
  induction 1 as [n ok s R E | c n ok s R E | s s' _ IH St
    | s _ IH | o s _ IH _ IHo | o s _ IH _ IHo].
  - eapply wf_new; eassumption.
  - eapply wf_adopt; eassumption.
  - eapply wf_step; eassumption.
  - now apply wf_assign.
  - now apply wf_assign.
  - now apply wf_assign.
Qed.

End Histories.



(** ** The read path *)

Section Read.
Context {Conn : Type} {AC : AsyncClient Conn} {H : Heap}.
Implicit Types s : SyncClient Conn.

Lemma available_exact s : wf s -> available s = rx_unread s.
Proof.
  intros W. unfold available, rx_unread.
  rewrite size_sub_exact by wf_crush. apply int_wrap_exact. wf_crush.
Qed.

Lemma available_zero s :
  available s = 0 ->
  size_sub (vec_size (_rx_buffer s)) (_rx_buffer_head s) = 0.
Proof. unfold available. apply int_wrap_zero, size_sub_range. Qed.

Lemma read_empty s len : available s = 0 -> read len s = (s, -1, []).
Proof.
  intros A. unfold read. now rewrite (available_zero s A).
Qed.

(** What [read] does when at least one byte is unread. *)
Lemma read_some s len :
  wf s -> 0 <= len < SIZE_MOD -> 0 < rx_unread s ->
  exists s',
    read len s
    = (s', Z.min len (rx_unread s),
       vec_slice (_rx_buffer s) (_rx_buffer_head s) (Z.min len (rx_unread s)))
    /\ wf s'
    /\ rx_unread s' = rx_unread s - Z.min len (rx_unread s)
    /\ (_rx_buffer_head s + Z.min len (rx_unread s) = vec_size (_rx_buffer s) ->
        _rx_buffer s' = [] /\ _rx_buffer_head s' = 0)
    /\ (_rx_buffer_head s + Z.min len (rx_unread s) <> vec_size (_rx_buffer s) ->
        _rx_buffer s' = _rx_buffer s /\
        _rx_buffer_head s' = _rx_buffer_head s + Z.min len (rx_unread s))
    /\ calls s' = calls s ++ ack_calls s (Z.min len (rx_unread s))
    /\ _tx_buffer s' = _tx_buffer s
    /\ _tx_buffer_head s' = _tx_buffer_head s.
Proof.
  intros W L A.
  pose proof (wf_read len s L W) as W'.
  unfold read in *. unfold rx_unread in *.
  rewrite size_sub_exact in * by wf_crush.
  destruct (vec_size (_rx_buffer s) - _rx_buffer_head s =? 0) eqn:E;
    [apply Z.eqb_eq in E; lia |].
  set (toRead := Z.min len (vec_size (_rx_buffer s) - _rx_buffer_head s)) in *.
  assert (TR : 0 <= toRead <= vec_size (_rx_buffer s) - _rx_buffer_head s)
    by (subst toRead; lia).
  rewrite size_add_exact in * by wf_crush.
  rewrite (int_wrap_exact toRead) by wf_crush.
  cbn [fst] in W'. eexists. split; [reflexivity |].
  split; [exact W' |]. unfold ack_calls, connected.
  destruct (_rx_buffer_head s + toRead =? vec_size (_rx_buffer s)) eqn:R;
    [apply Z.eqb_eq in R | apply Z.eqb_neq in R];
    cbn [set_rx _client]; destruct (_client s) as [c |];
    try destruct (negb (toRead =? 0) && ac_connected c);
    cbn [negb andb]; rewrite ?andb_false_r; simpl; rewrite ?vec_size_nil, ?app_nil_r;
    conjs; intros; conjs; try reflexivity; try lia.
Qed.

End Read.

(** * The claims

    The claim on the count of [write], C1, comes further down, after the
    facts on the TX queue that it rests on. *)

Section Claims.
Context {Conn : Type} {AC : AsyncClient Conn} {H : Heap}.
Implicit Types s : SyncClient Conn.

(** C3. [available()] is a function of the adapter alone (it returns no new
    state), and on a well-formed adapter it is [size(RxBuffer) -
    head(RxBuffer)].  For every [k] with [0 < k <= available()],
    [read(buf, k)] returns [k], stores the [k] bytes at [head] through [buf],
    and leaves [available()] lower by exactly [k]. *)
Theorem available_read s :
  wf s ->
  available s = vec_size (_rx_buffer s) - _rx_buffer_head s /\
  forall k, 0 < k <= available s ->
    exists s',
      read k s = (s', k, vec_slice (_rx_buffer s) (_rx_buffer_head s) k) /\
      available s' = available s - k.
Proof.
  intros W. pose proof (available_exact s W) as A. split; [exact A |].
  intros k Hk. rewrite A in *.
  assert (L : 0 <= k < SIZE_MOD).
  { unfold rx_unread in Hk. clear A. wf_crush. }
  destruct (read_some s k W L ltac:(lia))
    as (s' & R & W' & U & _).
  replace (Z.min k (rx_unread s)) with k in * by lia.
  exists s'. split; [exact R |].
  now rewrite (available_exact s' W').
Qed.

(** C5. The disconnect handler clears the connection reference and empties
    the TX buffer ([size = head = 0]) and leaves the RX buffer and its head
    as they were.  After it, and after the whole disconnect callback, every
    [write(data, len)] returns 0 and changes nothing, while [available],
    [peek] and [read] answer from the RX buffer exactly as they did before
    the disconnect. *)
Theorem disconnect_keeps_rx s :
  _client (_onDisconnect s) = None /\
  _tx_buffer (_onDisconnect s) = [] /\
  _tx_buffer_head (_onDisconnect s) = 0 /\
  _rx_buffer (_onDisconnect s) = _rx_buffer s /\
  _rx_buffer_head (_onDisconnect s) = _rx_buffer_head s /\
  (forall fuel data len,
     write fuel data len (_onDisconnect s)
     = Some (_onDisconnect s, Returned 0)) /\
  (forall fuel data len,
     write fuel data len (on_disconnect s)
     = Some (on_disconnect s, Returned 0)) /\
  available (_onDisconnect s) = available s /\
  peek (_onDisconnect s) = peek s /\
  (forall len,
     snd (fst (read len (_onDisconnect s))) = snd (fst (read len s)) /\
     snd (read len (_onDisconnect s)) = snd (read len s) /\
     _rx_buffer (fst (fst (read len (_onDisconnect s))))
     = _rx_buffer (fst (fst (read len s))) /\
     _rx_buffer_head (fst (fst (read len (_onDisconnect s))))
     = _rx_buffer_head (fst (fst (read len s)))).
Proof.
  conjs; try reflexivity.
  intros len. unfold read. cbn [_onDisconnect set_tx set_client _rx_buffer
    _rx_buffer_head _client].
  destruct (size_sub (vec_size (_rx_buffer s)) (_rx_buffer_head s) =? 0);
    [conjs; reflexivity |].
  set (toRead := Z.min len _).
  destruct (size_add (_rx_buffer_head s) toRead =? vec_size (_rx_buffer s));
    cbn [set_rx _client]; destruct (_client s) as [c |];
    try destruct (negb (toRead =? 0) && ac_connected c);
    conjs; reflexivity.
Qed.

(** C6. [read(buffer, len)] with [available() == 0] returns -1 and leaves
    the adapter exactly as it was, so it does so again however often it is
    called; nothing in it waits.  [read()] returns -1 when no byte is
    available, and otherwise consumes one byte and returns its value. *)
Theorem read_nothing_available s :
  (available s = 0 ->
   (forall len, read len s = (s, -1, [])) /\
   (forall len n, Nat.iter n (fun x => fst (fst (read len x))) s = s) /\
   read_byte s = (s, -1)) /\
  (wf s -> 0 < available s ->
   snd (read_byte s)
   = byte_to_int (nth (Z.to_nat (_rx_buffer_head s)) (_rx_buffer s) x00) /\
   0 <= snd (read_byte s) <= 255 /\
   available (fst (read_byte s)) = available s - 1).
Proof.
  split.
  - intros A. conjs.
    + intros len. now apply read_empty.
    + intros len n. induction n as [| n IH]; simpl; [reflexivity |].
      rewrite IH. now rewrite read_empty.
    + unfold read_byte. now rewrite read_empty.
  - intros W A. rewrite (available_exact s W) in *.
    assert (L : 0 <= 1 < SIZE_MOD) by (rewrite SIZE_MOD_value; lia).
    destruct (read_some s 1 W L A) as (s' & R & W' & U & _).
    replace (Z.min 1 (rx_unread s)) with 1 in * by lia.
    unfold read_byte. rewrite R. cbn [negb Z.eqb Pos.eqb snd fst].
    rewrite (available_exact s' W'), U.
    assert (Hd : hd x00 (vec_slice (_rx_buffer s) (_rx_buffer_head s) 1)
                 = nth (Z.to_nat (_rx_buffer_head s)) (_rx_buffer s) x00).
    { unfold vec_slice. change (Z.to_nat 1) with 1%nat.
      rewrite <- (Nat.add_0_r (Z.to_nat (_rx_buffer_head s))) at 2.
      rewrite <- nth_skipn.
      destruct (skipn (Z.to_nat (_rx_buffer_head s)) (_rx_buffer s));
        reflexivity. }
    rewrite Hd. conjs; try reflexivity.
    + unfold byte_to_int. lia.
    + unfold byte_to_int.
      pose proof (Byte.to_N_bounded
        (nth (Z.to_nat (_rx_buffer_head s)) (_rx_buffer s) x00)). lia.
Qed.



(** C10. [unref()] on an adapter whose counter is not allocated returns -1
    and changes nothing; the destructor of such an adapter then does not
    release: no callback is detached, no abort is issued, no buffer is
    cleared, the adapter stays as it was. *)
Theorem unref_without_counter s :
  _ref s = None -> unref s = (s, -1) /\ destroy s = s.
Proof.
  intros R. unfold destroy, unref. rewrite R. split; reflexivity.
Qed.

(** C7. [ref()] allocates the counter at 0 when it is absent, increments it
    and returns the new, strictly positive count; it returns -1 exactly when
    the counter is absent and its allocation fails, and then changes nothing.
    [unref()] decrements the counter; exactly when the result is 0 it frees
    the counter, and it reports the result.  The destructor releases exactly
    when [unref()] reports 0: with a connection bound it resets the data, ack
    and poll callbacks and aborts the connection, and in any case it drops the
    connection reference and clears both buffers.  When [unref()] reports
    anything else the destructor touches nothing but the counter, and after a
    release a second destructor run does nothing. *)
Theorem refcount_release s :
  ref_ok s ->
  (forall alloc_ok,
     (snd (ref alloc_ok s) = -1 <-> _ref s = None /\ alloc_ok = false) /\
     (snd (ref alloc_ok s) = -1 -> fst (ref alloc_ok s) = s) /\
     (snd (ref alloc_ok s) <> -1 ->
      0 < snd (ref alloc_ok s) /\
      snd (ref alloc_ok s)
      = match _ref s with Some n => n | None => 0 end + 1 /\
      _ref (fst (ref alloc_ok s)) = Some (snd (ref alloc_ok s)))) /\
  (forall n, _ref s = Some n ->
     snd (unref s) = n - 1 /\
     (snd (unref s) = 0 <-> _ref (fst (unref s)) = None) /\
     (snd (unref s) <> 0 -> _ref (fst (unref s)) = Some (n - 1))) /\
  (snd (unref s) = 0 ->
     destroy s = _release (fst (unref s)) /\
     _client (destroy s) = None /\
     _tx_buffer (destroy s) = [] /\ _tx_buffer_head (destroy s) = 0 /\
     _rx_buffer (destroy s) = [] /\ _rx_buffer_head (destroy s) = 0 /\
     calls (destroy s)
     = calls s ++
       match _client s with
       | Some _ => [CallOnData false; CallOnAck false; CallOnPoll false;
                    CallAbort]
       | None => []
       end /\
     destroy (destroy s) = destroy s) /\
  (snd (unref s) <> 0 ->
     destroy s = fst (unref s) /\
     _client (destroy s) = _client s /\
     _tx_buffer (destroy s) = _tx_buffer s /\
     _tx_buffer_head (destroy s) = _tx_buffer_head s /\
     _rx_buffer (destroy s) = _rx_buffer s /\
     _rx_buffer_head (destroy s) = _rx_buffer_head s /\
     calls (destroy s) = calls s).
Proof.
  intros Ok. unfold ref_ok in Ok. conjs.
  - intros alloc_ok. unfold ref.
    destruct (_ref s) as [n |].
    + rewrite (int_wrap_exact (n + 1)) by lia. cbn [fst snd set_ref _ref].
      conjs; [split; [lia | intros [? _]; discriminate] | lia |].
      intros _. conjs; [lia | reflexivity | reflexivity].
    + destruct alloc_ok; cbn [fst snd set_ref _ref].
      * change (int_wrap (0 + 1)) with 1.
        conjs; [split; [lia | intros [_ ?]; discriminate] | lia |].
        intros _. conjs; [lia | reflexivity | reflexivity].
      * conjs; [split; auto | reflexivity | intros N; now elim N].
  - intros n R. unfold unref. rewrite R in *.
    rewrite (int_wrap_exact (n - 1)) by lia.
    destruct (0 =? n - 1) eqn:E; [apply Z.eqb_eq in E | apply Z.eqb_neq in E];
      cbn [fst snd set_ref _ref].
    + conjs; [reflexivity | split; [reflexivity | lia] | lia].
    + conjs; [reflexivity | split; [lia | discriminate] | reflexivity].
  - intros U0. unfold destroy, unref in *.
    destruct (_ref s) as [n |]; [| simpl in U0; lia].
    rewrite (int_wrap_exact (n - 1)) in * by lia.
    destruct (0 =? n - 1) eqn:E; [| apply Z.eqb_neq in E; simpl in U0; lia].
    rewrite E. cbn [fst]. unfold _release.
    cbn [set_ref _client]. destruct (_client s) as [c |] eqn:EC;
      conjs; try reflexivity; simpl; rewrite ?app_nil_r; auto.
  - intros U. unfold destroy, unref in *.
    destruct (_ref s) as [n |].
    + rewrite (int_wrap_exact (n - 1)) in * by lia.
      destruct (0 =? n - 1) eqn:E; [apply Z.eqb_eq in E; simpl in U; lia |].
      rewrite E. conjs; reflexivity.
    + conjs; reflexivity.
Qed.

End Claims.

Section SendClaims.
Context {Conn : Type} {AC : AsyncClient Conn} {H : Heap}.
Context {AS : AsyncClientSetup Conn}.
Context {K : AsyncClientContract Conn}.
Implicit Types s : SyncClient Conn.

Lemma after_offer_reset s c' bytes accepted :
  tx_unsent (after_offer s c' bytes accepted) = 0 ->
  wf s -> 0 <= accepted <= tx_unsent s ->
  _tx_buffer (after_offer s c' bytes accepted) = [] /\
  _tx_buffer_head (after_offer s c' bytes accepted) = 0.
Proof.
  intros U W A. rewrite unsent_after_offer in U by assumption.
  unfold after_offer, tx_unsent in *.
  destruct (_tx_buffer_head s + accepted =? vec_size (_tx_buffer s)) eqn:E;
    [split; reflexivity | apply Z.eqb_neq in E; lia].
Qed.

(** A drain that sent the last unsent byte leaves the buffer reset. *)
Lemma drain_spec_reset fuel :
  forall s t s' n,
    wf s -> drain_spec fuel s t = Some (s', n) ->
    s' = s \/
    (tx_unsent s' = 0 -> _tx_buffer s' = [] /\ _tx_buffer_head s' = 0).
Proof.
  induction fuel as [| fuel IH]; intros s t s' n W E.
  - simpl in E.
    destruct (connected s && canSend s && (0 <? tx_unsent s)); [discriminate |].
    inversion E; subst. now left.
  - cbn [drain_spec] in E.
    destruct (connected s && canSend s && (0 <? tx_unsent s)) eqn:C.
    2:{ inversion E; subst. now left. }
    destruct (_client s) as [c |] eqn:EC; [| discriminate].
    apply andb_prop in C. destruct C as [_ U]. apply Z.ltb_lt in U.
    destruct (ac_write c _) as [c' sent] eqn:EW.
    destruct (offer_facts s c c' sent W EW ltac:(lia)) as [S A].
    assert (A' : 0 <= sent <= tx_unsent s) by lia.
    right. destruct (sent <? Z.min (tx_unsent s) (ac_space c)).
    + inversion E; subst. intros Z0. now apply after_offer_reset.
    + apply IH in E; [| now apply wf_after_offer].
      destruct E as [-> | R]; [| exact R].
      intros Z0. now apply after_offer_reset.
Qed.

(** C2. On every adapter reached from a constructor by the operations of the
    adapter ([write], [_sendBuffer], [flush], [stop], [read], the callbacks
    [_onConnect], [_onDisconnect], [_onData], a [delay], [_release],
    [ref], [unref], the destructor, [connect] and [_connect], and
    [operator=] from itself or from another such adapter), [head <= size]
    and [size - head <= _tx_buffer_size] hold for the TX buffer; so they hold
    at the start and after each further operation. *)
Theorem tx_buffer_bounded s :
  reachable s ->
  tx_invariant s /\
  tx_unsent s <= _tx_buffer_size s /\
  (forall s', step s s' -> tx_invariant s') /\
  tx_invariant (fst (assign Itself s)) /\
  (forall o, reachable o ->
     tx_invariant (fst (assign (Apart o) s)) /\
     tx_invariant (fst (assign (Sharing o) s))).
Proof.
  intros R. pose proof (wf_reachable s R) as W.
  pose proof (wf_tx_invariant s W) as I. conjs.
  - exact I.
  - unfold tx_unsent. now destruct I.
  - intros s' St. apply wf_tx_invariant. eapply wf_step; eassumption.
  - now apply wf_tx_invariant, wf_assign.
  - intros o Ro. pose proof (wf_reachable o Ro) as Wo.
    split; now apply wf_tx_invariant, wf_assign.
Qed.

(** C4. On a well-formed adapter one run of [_sendBuffer] is the loop of the
    design document ([drain_spec]): while connected, with a send window and
    unsent bytes, offer [min(size - head, window)] bytes from [head] on,
    advance [head] by the accepted count, stop once less was accepted than
    offered, reset the buffer when [head] reaches [size].  The run ends, it
    makes only [write] calls, its answer is the total they accepted, which is
    what left the unsent bytes, a buffer sent out whole is left empty with
    [head = 0], and the answer is 0 with nothing changed when the adapter is
    unbound, not connected, without send window or without unsent bytes. *)
Theorem sendBuffer_drains (fuel : nat) s :
  wf s -> tx_unsent s < Z.of_nat fuel ->
  _sendBuffer fuel s = drain_spec fuel s 0 /\
  exists s' n,
    _sendBuffer fuel s = Some (s', n) /\
    (exists new,
       calls s' = calls s ++ new /\ forallb is_write new = true /\
       n = accepted_total new) /\
    0 <= n <= tx_unsent s /\
    tx_unsent s' = tx_unsent s - n /\
    (0 < n -> tx_unsent s' = 0 ->
     _tx_buffer s' = [] /\ _tx_buffer_head s' = 0) /\
    (connected s && canSend s && (0 <? tx_unsent s) = false ->
     s' = s /\ n = 0).
Proof.
  intros W F. pose proof (sendBuffer_refines fuel s W) as Rf.
  split; [exact Rf |].
  destruct (sendBuffer_total fuel s W F) as (s' & n & E).
  exists s', n. split; [exact E |].
  destruct (sendBuffer_post fuel s s' n W E)
    as (W' & _ & _ & _ & _ & new & L & Fw & N & P & U).
  assert (U' : 0 <= tx_unsent s') by (unfold tx_unsent; clear - W'; wf_crush).
  conjs.
  - exists new. auto.
  - lia.
  - lia.
  - lia.
  - intros Pn Z0. rewrite Rf in E.
    destruct (drain_spec_reset fuel s 0 s' n W E) as [-> | R]; [lia | auto].
  - intros C. rewrite Rf in E. destruct fuel; simpl in E; rewrite C in E;
      inversion E; auto.
Qed.

End SendClaims.

(** ** The pipe honours the contract *)

#[export] Instance Pipe_contract : AsyncClientContract Pipe.
Proof.
  constructor.
  - intros p. simpl. unfold pipe_space. rewrite SIZE_MOD_value.
    destruct (pipe_up p); lia.
  - intros p. simpl. intros C. now apply Z.ltb_lt in C.
  - intros p bytes. simpl.
    assert (0 <= pipe_space p) by (unfold pipe_space; destruct (pipe_up p); lia).
    pose proof (vec_size_nonneg bytes). lia.
Qed.

#[export] Instance Wedged_contract : AsyncClientContract Wedged.
Proof.
  constructor.
  - intros w. simpl. rewrite SIZE_MOD_value. lia.
  - intros w. simpl. discriminate.
  - intros w bytes. simpl. pose proof (vec_size_nonneg bytes). lia.
Qed.

Lemma pipe_window_reopens : window_reopens (Conn := Pipe).
Proof.
  intros s _. destruct (connected s && negb (canSend s)) eqn:C.
  2:{ exists O, s. simpl. now rewrite C. }
  exists 1%nat. cbn [wait_canSend]. rewrite C.
  apply andb_prop in C. destruct C as [Up _].
  unfold connected in Up. unfold delay.
  destruct (_client s) as [p |] eqn:EC; [| discriminate].
  simpl in Up. cbn [ac_poll Pipe_AsyncClient]. unfold pipe_poll.
  destruct (pipe_fragile p).
  - eexists. reflexivity.
  - cbn [dispatch_all dispatch set_client _client _onData].
    match goal with |- context [vec_insert_end ?k ?a ?b] =>
      destruct (vec_insert_end k a b) as [[rx cap] |] end;
      eexists; unfold connected, canSend; simpl; unfold pipe_space; simpl;
      rewrite ?Up; simpl.
    + replace (0 <? Z.min (Z.max 0 (Z.max 0 (pipe_window p) + 3)) 65535)
        with true by (symmetry; apply Z.ltb_lt; lia).
      reflexivity.
    + reflexivity.
Qed.

(** ** The claims at work on the pipe *)

Ltac by_computation :=
  unfold wf, ref_ok, heap_grants, small_heap, vec_max_size;
  cbn; rewrite ?SIZE_MOD_value, ?INT_MAX_value; repeat split; lia.

Lemma on_pipe_unassigned : unassigned (on_pipe 2 0).
Proof.
  apply (own_adopt (Some (mkPipe true false 0 [])) 2 true);
    [by_computation | vm_compute; reflexivity].
Qed.

Lemma sample_run_unassigned :
  exists s', sample_run = Some (s', Returned 5) /\ unassigned s'.
Proof.
  eexists. split; [vm_compute; reflexivity |].
  apply own_step with (s := on_pipe 2 0); [apply on_pipe_unassigned |].
  apply step_write with (fuel := 10%nat) (data := hello) (len := 5)
    (r := Returned 5); [by_computation | vm_compute; reflexivity].
Qed.

Lemma tx_buffer_bounded_witness :
  exists s' r, sample_run = Some (s', r) /\ tx_invariant s'.
Proof.
  destruct sample_run_unassigned as (s' & E & U).
  exists s', (Returned 5). split; [exact E |].
  apply tx_buffer_bounded. now apply unassigned_reachable.
Defined.

Lemma available_read_witness :
  wf pipe_with_data /\
  available pipe_with_data = 5 /\
  exists s',
    read 3 pipe_with_data = (s', 3, [x68; x65; x6c]) /\
    available s' = 2.
Proof.
  assert (W : wf pipe_with_data) by by_computation.
  destruct (available_read pipe_with_data W) as [A R].
  split; [exact W |]. split; [exact A |].
  apply (R 3). rewrite A. by_computation.
Defined.

Lemma sendBuffer_drains_witness :
  wf pipe_queued /\ tx_unsent pipe_queued = 5 /\
  exists s' n,
    _sendBuffer 6 pipe_queued = Some (s', n) /\
    0 <= n <= tx_unsent pipe_queued /\
    tx_unsent s' = tx_unsent pipe_queued - n.
Proof.
  assert (W : wf pipe_queued) by by_computation.
  split; [exact W |]. split; [reflexivity |].
  destruct (sendBuffer_drains 6 pipe_queued W) as (_ & s' & n & E & _ & B & U & _);
    [by_computation |].
  exists s', n. auto.
Defined.

Lemma read_nothing_available_witness :
  read_byte (on_pipe 2 1) = (on_pipe 2 1, -1) /\
  snd (read_byte pipe_with_data) = 104.
Proof.
  split.
  - destruct (read_nothing_available (on_pipe 2 1)) as [E _].
    apply E. reflexivity.
  - destruct (read_nothing_available pipe_with_data) as [_ B].
    destruct B as (V & _); [by_computation | by_computation | exact V].
Defined.

Lemma refcount_release_witness :
  ref_ok (on_pipe 2 0) /\
  snd (unref (on_pipe 2 0)) = 0 /\
  _client (destroy (on_pipe 2 0)) = None /\
  destroy (destroy (on_pipe 2 0)) = destroy (on_pipe 2 0).
Proof.
  assert (Ok : ref_ok (on_pipe 2 0)) by by_computation.
  split; [exact Ok |]. split; [reflexivity |].
  destruct (refcount_release (on_pipe 2 0) Ok) as (_ & _ & R & _).
  destruct R as (_ & C & _ & _ & _ & _ & _ & Twice); [reflexivity |].
  split; [exact C | exact Twice].
Defined.


Lemma unref_without_counter_witness :
  _ref uncounted = None /\
  unref uncounted = (uncounted, -1) /\ destroy uncounted = uncounted.
Proof.
  split; [reflexivity |].
  apply unref_without_counter. reflexivity.
Defined.

(** * The two queues, the count of [write], and further facts *)

(** ** The RX buffer is a queue *)

Lemma firstn_clamp {A : Type} (n m : nat) (l : list A) :
  m = Nat.min n (length l) -> firstn m l = firstn n l.
Proof.
  intros ->. destruct (Nat.le_ge_cases n (length l)) as [L | L].
  - now rewrite Nat.min_l.
  - rewrite Nat.min_r by assumption. now rewrite !firstn_all2 by lia.
Qed.

Lemma skipn_clamp {A : Type} (n m : nat) (l : list A) :
  m = Nat.min n (length l) -> skipn m l = skipn n l.
Proof.
  intros ->. destruct (Nat.le_ge_cases n (length l)) as [L | L].
  - now rewrite Nat.min_l.
  - rewrite Nat.min_r by assumption. now rewrite !skipn_all2 by lia.
Qed.

Section RxQueue.
Context {Conn : Type} {AC : AsyncClient Conn} {H : Heap}.
Implicit Types s : SyncClient Conn.

Lemma rx_pending_size s : wf s -> vec_size (rx_pending s) = rx_unread s.
Proof.
  intros W. unfold rx_pending, rx_unread, vec_size. rewrite length_skipn.
  unfold wf, vec_size in W. lia.
Qed.

Lemma rx_pending_slice s n :
  vec_slice (_rx_buffer s) (_rx_buffer_head s) n
  = firstn (Z.to_nat n) (rx_pending s).
Proof. reflexivity. Qed.

(** [read] as a step on the queue of unread bytes. *)
Lemma read_front s (len : Z) :
  wf s -> 0 <= len < SIZE_MOD ->
  snd (read len s) = firstn (Z.to_nat len) (rx_pending s) /\
  rx_pending (fst (fst (read len s))) = skipn (Z.to_nat len) (rx_pending s) /\
  snd (fst (read len s))
  = (if rx_unread s =? 0 then -1 else Z.min len (rx_unread s)).
Proof.
  intros W L. pose proof (rx_pending_size s W) as Sz.
  destruct (rx_unread s =? 0) eqn:E.
  - apply Z.eqb_eq in E. rewrite E in Sz.
    rewrite read_empty by (now rewrite (available_exact s W)).
    cbn [fst snd]. rewrite (vec_size_zero _ Sz), firstn_nil, skipn_nil.
    conjs; reflexivity.
  - apply Z.eqb_neq in E.
    assert (U : 0 < rx_unread s) by (unfold rx_unread in *; clear Sz; wf_crush).
    destruct (read_some s len W L U) as (s' & R & W' & U' & Rs & Ks & _).
    rewrite R. cbn [fst snd]. rewrite rx_pending_slice.
    set (m := Z.min len (rx_unread s)) in *.
    assert (M : Z.to_nat m = Nat.min (Z.to_nat len) (length (rx_pending s))).
    { unfold vec_size in Sz. subst m. lia. }
    conjs; [now apply firstn_clamp | | reflexivity].
    rewrite <- (skipn_clamp (Z.to_nat len) (Z.to_nat m) _ M).
    unfold rx_pending at 1.
    destruct (Z.eq_dec (_rx_buffer_head s + m) (vec_size (_rx_buffer s)))
      as [Eq | Ne].
    + destruct (Rs Eq) as [-> ->]. simpl.
      symmetry. apply skipn_all2. unfold vec_size in Sz. subst m.
      unfold rx_unread, vec_size in *. lia.
    + destruct (Ks Ne) as [-> ->]. unfold rx_pending.
      rewrite skipn_skipn. f_equal. unfold wf in W. lia.
Qed.

(** X1. [read(buffer, len)] takes from the front of the queue of unread
    bytes: it stores the first [len] of them (all of them when fewer are
    unread), leaves the rest unread in their order, and returns how many it
    stored, or -1 when none was unread. *)
Theorem read_takes_front s (len : Z) :
  wf s -> 0 <= len < SIZE_MOD ->
  snd (read len s) = firstn (Z.to_nat len) (rx_pending s) /\
  rx_pending (fst (fst (read len s))) = skipn (Z.to_nat len) (rx_pending s) /\
  snd (fst (read len s))
  = (if rx_unread s =? 0 then -1 else Z.min len (rx_unread s)).
Proof. apply read_front. Qed.

(** The two ways the data callback ends. *)
Lemma onData_cases s (c : Conn) (data : vec) :
  wf s -> _client s = Some c ->
  (vec_takes (_rx_buffer_capacity s) (vec_size (_rx_buffer s)) (vec_size data)
   = true ->
   _rx_buffer (_onData data s) = _rx_buffer s ++ data /\
   _rx_buffer_head (_onData data s) = _rx_buffer_head s /\
   rx_pending (_onData data s) = rx_pending s ++ data /\
   available (_onData data s) = available s + vec_size data /\
   _client (_onData data s) = Some (ac_ackLater c) /\
   calls (_onData data s) = calls s ++ [CallAckLater]) /\
  (vec_takes (_rx_buffer_capacity s) (vec_size (_rx_buffer s)) (vec_size data)
   = false ->
   _rx_buffer (_onData data s) = _rx_buffer s /\
   _rx_buffer_head (_onData data s) = _rx_buffer_head s /\
   _rx_buffer_capacity (_onData data s) = _rx_buffer_capacity s /\
   _client (_onData data s) = Some (ac_abort (ac_ackLater c)) /\
   calls (_onData data s) = calls s ++ [CallAckLater; CallAbort]).
Proof.
  intros W C. pose proof (wf_onData data s W) as W'.
  rewrite (available_exact _ W'), (available_exact s W).
  unfold _onData, rx_pending, rx_unread in *. rewrite C in *.
  cbn [log set_client _rx_buffer _rx_buffer_head _rx_buffer_capacity] in *.
  split; intros Fit.
  - destruct (vec_insert_end_takes _ _ _ Fit) as [cap I]. rewrite I in *.
    cbn [set_rx set_rx_capacity _rx_buffer _rx_buffer_head _client calls log
         set_client].
    conjs; try reflexivity.
    + rewrite skipn_app.
      replace (Z.to_nat (_rx_buffer_head s) - length (_rx_buffer s))%nat
        with O by (unfold wf, vec_size in W; lia).
      reflexivity.
    + rewrite vec_size_app. lia.
  - apply vec_insert_end_None in Fit. rewrite Fit.
    cbn [set_rx _rx_buffer _rx_buffer_head _rx_buffer_capacity _client calls
         log set_client].
    conjs; try reflexivity. now rewrite <- app_assoc.
Qed.

(** X2. The data callback appends the whole of the arriving data behind the
    unread bytes, after asking the connection to defer its acknowledgment,
    when the RX vector takes the data: they fit its spare capacity, or the
    vector can move to the larger block it asks for.  When the vector does
    not take the data the callback aborts the connection and leaves the RX
    buffer as it was.  Never is a part of the data appended. *)
Theorem onData_appends_or_aborts s (c : Conn) (data : vec) :
  wf s -> _client s = Some c ->
  (vec_takes (_rx_buffer_capacity s) (vec_size (_rx_buffer s)) (vec_size data)
   = true ->
   _rx_buffer (_onData data s) = _rx_buffer s ++ data /\
   _rx_buffer_head (_onData data s) = _rx_buffer_head s /\
   rx_pending (_onData data s) = rx_pending s ++ data /\
   available (_onData data s) = available s + vec_size data /\
   _client (_onData data s) = Some (ac_ackLater c) /\
   calls (_onData data s) = calls s ++ [CallAckLater]) /\
  (vec_takes (_rx_buffer_capacity s) (vec_size (_rx_buffer s)) (vec_size data)
   = false ->
   _rx_buffer (_onData data s) = _rx_buffer s /\
   _rx_buffer_head (_onData data s) = _rx_buffer_head s /\
   _rx_buffer_capacity (_onData data s) = _rx_buffer_capacity s /\
   _client (_onData data s) = Some (ac_abort (ac_ackLater c)) /\
   calls (_onData data s) = calls s ++ [CallAckLater; CallAbort]).
Proof. apply onData_cases. Qed.

(** X3. What arrives is what is read: after the data callback has taken
    [data], a [read] for all unread bytes returns the bytes that were unread
    before followed by [data], and returns their count. *)
Theorem onData_then_read s (c : Conn) (data : vec) :
  wf s -> _client s = Some c ->
  vec_takes (_rx_buffer_capacity s) (vec_size (_rx_buffer s)) (vec_size data)
  = true ->
  0 < rx_unread s + vec_size data ->
  snd (read (rx_unread s + vec_size data) (_onData data s))
  = rx_pending s ++ data /\
  snd (fst (read (rx_unread s + vec_size data) (_onData data s)))
  = rx_unread s + vec_size data /\
  rx_pending (fst (fst (read (rx_unread s + vec_size data) (_onData data s))))
  = [].
Proof.
  intros W C Fit Pos.
  destruct (onData_cases s c data W C) as [(_ & _ & P & A & _) _];
    [exact Fit |].
  pose proof (wf_onData data s W) as W'.
  pose proof (rx_pending_size s W) as Sz.
  pose proof (rx_pending_size _ W') as Sz'.
  rewrite P, vec_size_app, Sz in Sz'.
  assert (L : 0 <= rx_unread s + vec_size data < SIZE_MOD).
  { rewrite Sz'. clear - W'. unfold rx_unread. wf_crush. }
  destruct (read_front (_onData data s)
              (rx_unread s + vec_size data) W' L) as (O & R & N).
  rewrite O, R, N, P, <- Sz'.
  replace (Z.to_nat (rx_unread s + vec_size data))
    with (length (rx_pending s ++ data))
    by (rewrite <- Sz, <- vec_size_app; unfold vec_size; lia).
  rewrite firstn_all, skipn_all.
  destruct (rx_unread s + vec_size data =? 0) eqn:E;
    [apply Z.eqb_eq in E; lia |].
  conjs; try reflexivity. lia.
Qed.

(** X4. [peek()] returns -1 exactly when nothing is unread, and otherwise
    the value that [read()] returns next; it is the first unread byte. *)
Theorem peek_is_next_read s :
  wf s ->
  (peek s = -1 <-> available s = 0) /\
  (0 < available s ->
   peek s = snd (read_byte s) /\
   peek s = byte_to_int (hd x00 (rx_pending s))).
Proof.
  intros W. rewrite (available_exact s W).
  assert (B : forall b, 0 <= byte_to_int b <= 255).
  { intros b. unfold byte_to_int. pose proof (Byte.to_N_bounded b). lia. }
  assert (Hd : nth (Z.to_nat (_rx_buffer_head s)) (_rx_buffer s) x00
               = hd x00 (rx_pending s)).
  { unfold rx_pending.
    rewrite <- (Nat.add_0_r (Z.to_nat (_rx_buffer_head s))) at 1.
    rewrite <- nth_skipn.
    destruct (skipn (Z.to_nat (_rx_buffer_head s)) (_rx_buffer s)); reflexivity. }
  unfold peek. rewrite Hd. unfold rx_unread.
  destruct (vec_size (_rx_buffer s) <=? _rx_buffer_head s) eqn:E;
    [apply Z.leb_le in E | apply Z.leb_gt in E].
  - split; [split; intros _; [unfold wf in W; lia | reflexivity] | lia].
  - split.
    + split; [| lia]. intros P.
      pose proof (B (hd x00 (rx_pending s))). lia.
    + intros _. split; [| reflexivity].
      assert (L : 0 <= 1 < SIZE_MOD) by (rewrite SIZE_MOD_value; lia).
      destruct (read_front s 1 W L) as (O & _ & N).
      unfold read_byte. destruct (read 1 s) as [[s1 n] out].
      cbn [fst snd] in *. subst n out. unfold rx_unread.
      replace (vec_size (_rx_buffer s) - _rx_buffer_head s =? 0) with false
        by (symmetry; apply Z.eqb_neq; lia).
      replace (Z.min 1 (vec_size (_rx_buffer s) - _rx_buffer_head s)) with 1
        by lia.
      cbn [negb Z.eqb Pos.eqb snd]. change (Z.to_nat 1) with 1%nat.
      destruct (rx_pending s); reflexivity.
Qed.

End RxQueue.

(** ** The TX buffer is a queue *)

Lemma accepted_bytes_app cs1 cs2 :
  accepted_bytes (cs1 ++ cs2) = accepted_bytes cs1 ++ accepted_bytes cs2.
Proof.
  induction cs1 as [| c cs1 IH]; simpl; [reflexivity |].
  destruct c; rewrite ?IH; try reflexivity. now rewrite app_assoc.
Qed.

Lemma writes_keep_tx cs : forallb is_write cs = true -> forallb keeps_tx cs = true.
Proof.
  induction cs as [| c cs IH]; simpl; [reflexivity |].
  intros E. apply andb_prop in E. destruct E as [E1 E2].
  rewrite (IH E2). destruct c; try discriminate; reflexivity.
Qed.

Section TxQueue.
Context {Conn : Type} {AC : AsyncClient Conn} {H : Heap}.
Implicit Types s : SyncClient Conn.

Lemma tx_pending_size s : wf s -> vec_size (tx_pending s) = tx_unsent s.
Proof.
  intros W. unfold tx_pending, tx_unsent, vec_size. rewrite length_skipn.
  unfold wf, vec_size in W. lia.
Qed.

Lemma rx_grows_refl s : rx_grows s s.
Proof. exists []. now rewrite app_nil_r. Qed.

Lemma rx_grows_trans s1 s2 s3 : rx_grows s1 s2 -> rx_grows s2 s3 -> rx_grows s1 s3.
Proof.
  intros [m1 E1] [m2 E2]. exists (m1 ++ m2). now rewrite E2, E1, app_assoc.
Qed.

Lemma carries_refl s : carries s s.
Proof. exists [], []. rewrite !app_nil_r. auto. Qed.

Lemma carries_trans s1 s2 s3 : carries s1 s2 -> carries s2 s3 -> carries s1 s3.
Proof.
  intros (n1 & a1 & E1 & C1 & K1) (n2 & a2 & E2 & C2 & K2).
  exists (n1 ++ n2), (a1 ++ a2). conjs.
  - now rewrite E2, E1, app_assoc.
  - now rewrite C2, C1, app_assoc.
  - rewrite forallb_app. intros F. apply andb_prop in F. destruct F as [F1 F2].
    rewrite accepted_bytes_app, <- app_assoc, (K2 F2), app_assoc, (K1 F1).
    now rewrite app_assoc.
Qed.

Lemma orderly_refl s : orderly s s.
Proof. unfold orderly. auto using rx_grows_refl, carries_refl. Qed.

Lemma orderly_trans s1 s2 s3 : orderly s1 s2 -> orderly s2 s3 -> orderly s1 s3.
Proof.
  intros (C1 & T1 & R1 & K1) (C2 & T2 & R2 & K2). unfold orderly.
  conjs; eauto using rx_grows_trans, carries_trans.
Qed.

(** Calls that are no [write], with the buffers left alone. *)
Lemma orderly_frame s s' new :
  _tx_buffer s' = _tx_buffer s -> _tx_buffer_head s' = _tx_buffer_head s ->
  _rx_buffer s' = _rx_buffer s -> _rx_buffer_head s' = _rx_buffer_head s ->
  tx_copied s' = tx_copied s ->
  calls s' = calls s ++ new -> accepted_bytes new = [] ->
  orderly s s'.
Proof.
  intros T Th R Rh Cp L A.
  unfold orderly, compact, tx_recent, rx_grows, carries,
    tx_unsent, rx_unread, tx_pending, rx_pending.
  rewrite T, Th, R, Rh, Cp. conjs; auto.
  - exists []. now rewrite app_nil_r.
  - exists new, []. rewrite A, !app_nil_r. auto.
Qed.

(** A callback that empties the TX buffer and says so in the log. *)
Lemma orderly_reset s s' new :
  _tx_buffer s' = [] -> _tx_buffer_head s' = 0 ->
  _rx_buffer s' = _rx_buffer s -> _rx_buffer_head s' = _rx_buffer_head s ->
  tx_copied s' = tx_copied s ->
  calls s' = calls s ++ new -> forallb keeps_tx new = false ->
  orderly s s'.
Proof.
  intros T Th R Rh Cp L F.
  unfold orderly, compact, tx_recent, rx_grows, carries,
    tx_unsent, rx_unread, tx_pending, rx_pending.
  rewrite T, Th, R, Rh, Cp. conjs.
  - intros [_ C]. auto.
  - intros _. exists (tx_copied s). simpl. now rewrite app_nil_r.
  - exists []. now rewrite app_nil_r.
  - exists new, []. rewrite F, app_nil_r. conjs; auto. discriminate.
Qed.

Lemma orderly_set_client c s : orderly s (set_client c s).
Proof. apply orderly_frame with (new := []); try reflexivity. simpl. now rewrite app_nil_r. Qed.

Lemma orderly_on_disconnect s : orderly s (on_disconnect s).
Proof. now apply orderly_reset with (new := [CallDelete]). Qed.

Lemma orderly_onConnect c s s' :
  _onConnect c s = Returned s' -> orderly s s'.
Proof.
  unfold _onConnect, reserve_tx. intros E.
  destruct (vec_reserve _ _) as [cap |]; [| discriminate].
  inversion E; subst s'.
  now apply orderly_reset
    with (new := [CallOnAck true; CallOnData true; CallOnTimeout true]).
Qed.

Lemma orderly_client_close now s : orderly s (client_close now s).
Proof.
  unfold client_close. destruct (_client s) as [c |]; [| apply orderly_refl].
  destruct (ac_close c now) as [c' fired]. destruct fired.
  - apply orderly_reset with (new := [CallClose now; CallDelete]);
      try reflexivity.
    simpl. now rewrite <- app_assoc.
  - now apply orderly_frame with (new := [CallClose now]).
Qed.

Lemma orderly_onData data s : wf s -> orderly s (_onData data s).
Proof.
  intros W. unfold _onData. destruct (_client s) as [c |]; [| apply orderly_refl].
  cbn [log set_client _rx_buffer _rx_buffer_head _rx_buffer_capacity].
  destruct (vec_insert_end (_rx_buffer_capacity s) (_rx_buffer s) data)
    as [[rx cap] |] eqn:E.
  - apply vec_insert_end_Some in E; [| unfold wf in W; lia].
    destruct E as (-> & _).
    unfold orderly, compact, tx_recent, rx_grows, carries,
      tx_unsent, rx_unread, tx_pending, rx_pending.
    cbn [set_rx set_rx_capacity _tx_buffer _tx_buffer_head _rx_buffer
         _rx_buffer_head tx_copied calls].
    assert (Sk : skipn (Z.to_nat (_rx_buffer_head s)) (_rx_buffer s ++ data)
                 = skipn (Z.to_nat (_rx_buffer_head s)) (_rx_buffer s) ++ data).
    { rewrite skipn_app.
      replace (Z.to_nat (_rx_buffer_head s) - length (_rx_buffer s))%nat
        with O by (unfold wf, vec_size in W; lia).
      reflexivity. }
    conjs; auto.
    + intros [Ct Cr]. split; [exact Ct |]. rewrite vec_size_app. intros Z0.
      pose proof (vec_size_nonneg data).
      assert (D : vec_size data = 0) by (unfold wf in W; lia).
      rewrite (vec_size_zero _ D), app_nil_r. apply Cr. lia.
    + exists data. exact Sk.
    + exists [CallAckLater], [].
      cbn [log set_client calls _tx_buffer _tx_buffer_head tx_copied].
      rewrite !app_nil_r. auto.
  - apply orderly_frame with (new := [CallAckLater; CallAbort]);
      try reflexivity.
    simpl. now rewrite <- app_assoc.
Qed.

End TxQueue.

Section TxDrain.
Context {Conn : Type} {AC : AsyncClient Conn} {H : Heap}.
Context {K : AsyncClientContract Conn}.
Implicit Types s : SyncClient Conn.

Lemma tx_pending_after_offer s c' bytes a :
  wf s -> 0 <= a <= tx_unsent s ->
  tx_pending (after_offer s c' bytes a) = skipn (Z.to_nat a) (tx_pending s).
Proof.
  intros W A. pose proof (tx_pending_size s W) as Sz.
  unfold after_offer, tx_pending in *. unfold tx_unsent in *.
  destruct (_tx_buffer_head s + a =? vec_size (_tx_buffer s)) eqn:E;
    cbn [log set_tx set_client _tx_buffer _tx_buffer_head].
  - apply Z.eqb_eq in E. simpl. symmetry. apply skipn_all2.
    unfold vec_size in *. lia.
  - rewrite skipn_skipn. f_equal. unfold wf in W. lia.
Qed.

Lemma drain_spec_order fuel :
  forall s t s' n,
    wf s -> drain_spec fuel s t = Some (s', n) ->
    exists new,
      calls s' = calls s ++ new /\
      forallb is_write new = true /\
      tx_pending s = accepted_bytes new ++ tx_pending s'.
Proof.
  induction fuel as [| fuel IH]; intros s t s' n W E.
  - simpl in E.
    destruct (connected s && canSend s && (0 <? tx_unsent s)); [discriminate |].
    inversion E; subst. exists []. rewrite app_nil_r. auto.
  - cbn [drain_spec] in E.
    destruct (connected s && canSend s && (0 <? tx_unsent s)) eqn:C.
    2:{ inversion E; subst. exists []. rewrite app_nil_r. auto. }
    destruct (_client s) as [c |] eqn:EC; [| discriminate].
    apply andb_prop in C. destruct C as [_ U]. apply Z.ltb_lt in U.
    destruct (ac_write c _) as [c' sent] eqn:EW.
    destruct (offer_facts s c c' sent W EW ltac:(lia)) as [S A].
    assert (A' : 0 <= sent <= tx_unsent s) by lia.
    set (attempted := Z.min (tx_unsent s) (ac_space c)) in *.
    set (bytes := vec_slice (_tx_buffer s) (_tx_buffer_head s) attempted) in *.
    pose proof (tx_pending_after_offer s c' bytes sent W A') as P.
    pose proof (calls_after_offer s c' bytes sent) as L.
    assert (Cut : tx_pending s
                  = firstn (Z.to_nat sent) bytes
                    ++ tx_pending (after_offer s c' bytes sent)).
    { rewrite P. subst bytes. unfold vec_slice. fold (tx_pending s).
      rewrite firstn_firstn.
      replace (Nat.min (Z.to_nat sent) (Z.to_nat attempted))
        with (Z.to_nat sent) by lia.
      now rewrite firstn_skipn. }
    destruct (sent <? attempted).
    + inversion E; subst s' n. exists [CallWrite bytes sent]. simpl.
      rewrite app_nil_r. auto.
    + apply IH in E; [| now apply wf_after_offer].
      destruct E as (new & L' & F' & P').
      exists (CallWrite bytes sent :: new). simpl. conjs.
      * now rewrite L', L, <- app_assoc.
      * exact F'.
      * now rewrite <- app_assoc, <- P'.
Qed.

(** The drain as a step on the queue of unsent bytes. *)
Lemma sendBuffer_front (fuel : nat) s s' (n : Z) :
  wf s -> _sendBuffer fuel s = Some (s', n) ->
  exists new,
    calls s' = calls s ++ new /\
    forallb is_write new = true /\
    tx_pending s = accepted_bytes new ++ tx_pending s' /\
    vec_size (accepted_bytes new) = n /\
    _rx_buffer s' = _rx_buffer s /\
    _rx_buffer_head s' = _rx_buffer_head s.
Proof.
  intros W E.
  destruct (sendBuffer_post fuel s s' n W E)
    as (W' & _ & R & Rh & _ & new0 & _ & _ & N & _ & U).
  rewrite sendBuffer_refines in E by assumption.
  destruct (drain_spec_order fuel s 0 s' n W E) as (new & L & F & P).
  exists new. conjs; auto.
  pose proof (tx_pending_size s W) as Sz.
  pose proof (tx_pending_size s' W') as Sz'.
  rewrite P, vec_size_app in Sz. lia.
Qed.

(** X5. The drain takes from the front of the queue of unsent bytes: what
    the connection accepts, call after call, is the beginning of what was
    unsent, what stays unsent is the rest in its order, and the returned
    total is the number of bytes accepted.  The drain makes no call but
    [write] and leaves the RX buffer alone. *)
Theorem sendBuffer_takes_front (fuel : nat) s s' (n : Z) :
  wf s -> _sendBuffer fuel s = Some (s', n) ->
  exists new,
    calls s' = calls s ++ new /\
    forallb is_write new = true /\
    tx_pending s = accepted_bytes new ++ tx_pending s' /\
    vec_size (accepted_bytes new) = n /\
    _rx_buffer s' = _rx_buffer s /\
    _rx_buffer_head s' = _rx_buffer_head s.
Proof. apply sendBuffer_front. Qed.

Lemma orderly_sendBuffer fuel s s' n :
  wf s -> _sendBuffer fuel s = Some (s', n) -> orderly s s'.
Proof.
  intros W E.
  destruct (sendBuffer_front fuel s s' n W E)
    as (new & L & F & P & _ & R & Rh).
  destruct (sendBuffer_post fuel s s' n W E) as (_ & (Cp & _) & _).
  rewrite sendBuffer_refines in E by assumption.
  pose proof (drain_spec_reset fuel s 0 s' n W E) as Rs.
  unfold orderly. conjs.
  - destruct Rs as [-> | Rs]; [auto |].
    intros [_ Cr]. split; [exact Rs |].
    unfold rx_unread. now rewrite R, Rh.
  - intros [older T]. exists (older ++ accepted_bytes new).
    now rewrite Cp, T, P, app_assoc.
  - exists []. unfold rx_pending. now rewrite R, Rh, app_nil_r.
  - exists new, []. rewrite Cp, !app_nil_r. auto.
Qed.

Lemma orderly_dispatch fuel e s s' :
  wf s -> dispatch fuel e s = Some s' -> orderly s s'.
Proof.
  unfold dispatch. intros W E.
  destruct (_client s) as [c |].
  2:{ inversion E; subst. apply orderly_refl. }
  destruct e.
  - destruct (_onConnect c s) as [s1 |] eqn:B; [| discriminate].
    inversion E; subst. eapply orderly_onConnect; eassumption.
  - destruct (_sendBuffer fuel s) as [[s1 n] |] eqn:B; [| discriminate].
    inversion E; subst. eapply orderly_sendBuffer; eassumption.
  - inversion E; subst. now apply orderly_onData.
  - inversion E; subst. apply orderly_client_close.
  - inversion E; subst. apply orderly_on_disconnect.
Qed.

Lemma orderly_dispatch_all fuel evs :
  forall s s', wf s -> dispatch_all fuel evs s = Some s' -> orderly s s'.
Proof.
  induction evs as [| e evs IH]; intros s s' W E; simpl in E.
  - inversion E; subst. apply orderly_refl.
  - destruct (dispatch fuel e s) as [s1 |] eqn:D; [| discriminate].
    destruct (dispatch_keeps fuel e s s1 W D) as [W1 _].
    eapply orderly_trans; [eapply orderly_dispatch; eassumption |].
    now apply IH.
Qed.

Lemma orderly_delay fuel s s' :
  wf s -> delay fuel s = Some s' -> orderly s s'.
Proof.
  unfold delay. intros W E.
  destruct (_client s) as [c |].
  2:{ inversion E; subst. apply orderly_refl. }
  destruct (ac_poll c) as [c' evs].
  eapply orderly_trans; [apply (orderly_set_client (Some c')) |].
  eapply orderly_dispatch_all; [| exact E]. now apply wf_set_client.
Qed.

Lemma orderly_wait_canSend fuel :
  forall s s', wf s -> wait_canSend fuel s = Some s' -> orderly s s'.
Proof.
  induction fuel as [| fuel IH]; intros s s' W E.
  - simpl in E. destruct (connected s && negb (canSend s)); [discriminate |].
    inversion E; subst. apply orderly_refl.
  - cbn [wait_canSend] in E.
    destruct (connected s && negb (canSend s)).
    2:{ inversion E; subst. apply orderly_refl. }
    destruct (delay fuel s) as [s1 |] eqn:D; [| discriminate].
    destruct (delay_keeps fuel s s1 W D) as [W1 _].
    eapply orderly_trans; [eapply orderly_delay; eassumption |].
    now apply IH.
Qed.

End TxDrain.

Section TxWrite.
Context {Conn : Type} {AC : AsyncClient Conn} {H : Heap}.
Context {K : AsyncClientContract Conn}.
Implicit Types s : SyncClient Conn.

Lemma orderly_copy s bytes cap :
  wf s ->
  orderly s (note_copied bytes
               (set_tx (_tx_buffer s ++ bytes) (_tx_buffer_head s)
                  (set_tx_capacity cap s))).
Proof.
  intros W.
  assert (Sk : skipn (Z.to_nat (_tx_buffer_head s)) (_tx_buffer s ++ bytes)
               = skipn (Z.to_nat (_tx_buffer_head s)) (_tx_buffer s) ++ bytes).
  { rewrite skipn_app.
    replace (Z.to_nat (_tx_buffer_head s) - length (_tx_buffer s))%nat
      with O by (unfold wf, vec_size in W; lia).
    reflexivity. }
  unfold orderly, compact, tx_recent, rx_grows, carries,
    tx_unsent, rx_unread, tx_pending, rx_pending.
  cbn [note_copied set_tx set_tx_capacity _tx_buffer _tx_buffer_head
       _rx_buffer _rx_buffer_head tx_copied calls].
  rewrite Sk. conjs.
  - intros [Ct Cr]. split; [| exact Cr]. rewrite vec_size_app. intros Z0.
    pose proof (vec_size_nonneg bytes).
    assert (D : vec_size bytes = 0) by (unfold wf in W; lia).
    rewrite (vec_size_zero _ D), app_nil_r. apply Ct. lia.
  - intros [older T]. exists older. now rewrite T, app_assoc.
  - exists []. now rewrite app_nil_r.
  - exists [], bytes. rewrite app_nil_r. auto.
Qed.

Lemma orderly_make_room fuel s r :
  wf s -> make_room fuel s = Some r ->
  match r with
  | Room s1 _ | GiveUp s1 | Disconnected s1 => orderly s s1
  end.
Proof.
  intros W E. unfold make_room in E.
  destruct (tx_space s =? 0).
  - destruct (wait_canSend fuel s) as [s1 |] eqn:Wt; [| discriminate].
    destruct (wait_canSend_keeps fuel s s1 W Wt) as (W1 & _).
    pose proof (orderly_wait_canSend fuel s s1 W Wt) as O1.
    destruct (negb (connected s1)); [inversion E; subst; exact O1 |].
    destruct (_sendBuffer fuel s1) as [[s2 n] |] eqn:Sb; [| discriminate].
    pose proof (orderly_sendBuffer fuel s1 s2 n W1 Sb) as O2.
    destruct (tx_space s2 =? 0); inversion E; subst;
      eapply orderly_trans; eassumption.
  - inversion E; subst. apply orderly_refl.
Qed.

Lemma orderly_write_loop data len fuel :
  forall s written x,
    wf s -> write_loop fuel data len s written = Some x ->
    match x with
    | LoopEnd s' _ | LoopReturn s' _ | LoopRaise s' => wf s' /\ orderly s s'
    end.
Proof.
  induction fuel as [| fuel IH]; intros s written x W E.
  - simpl in E. destruct (written <? len); [discriminate |].
    inversion E; subst. auto using orderly_refl.
  - cbn [write_loop] in E. destruct (written <? len).
    2:{ inversion E; subst. auto using orderly_refl. }
    destruct (make_room fuel s) as [rm |] eqn:M; [| discriminate].
    pose proof (make_room_keeps fuel s rm W M) as F.
    pose proof (orderly_make_room fuel s rm W M) as O.
    destruct rm as [s1 space | s1 | s1].
    + destruct F as (W1 & _ & Sp & Pos).
      set (bytes := vec_slice data written
                      (Z.min space (size_sub len written))) in *.
      assert (Sz : vec_size bytes <= tx_space s1).
      { pose proof (vec_slice_size_le data written
                      (Z.min space (size_sub len written))). subst bytes. lia. }
      destruct (vec_insert_end (_tx_buffer_capacity s1) (_tx_buffer s1) bytes)
        as [[tx cap] |] eqn:I.
      * destruct (wf_copy s1 bytes tx cap W1 Sz I) as (-> & _ & W2).
        apply IH in E; [| exact W2].
        pose proof (orderly_copy s1 bytes cap W1) as O2.
        destruct x as [s' w | s' w | s']; destruct E as [W' O'];
          (split; [exact W' |]);
          eapply orderly_trans; [exact O | eapply orderly_trans; eassumption
                                | exact O | eapply orderly_trans; eassumption
                                | exact O | eapply orderly_trans; eassumption].
      * inversion E; subst. auto.
    + destruct F as (W1 & _). inversion E; subst. auto.
    + destruct F as (W1 & _). inversion E; subst. auto.
Qed.

Lemma orderly_write fuel data len s s' out :
  wf s -> write fuel data len s = Some (s', out) -> orderly s s'.
Proof.
  intros W E. unfold write in E.
  destruct (negb (connected s)).
  { inversion E; subst. apply orderly_refl. }
  destruct (write_loop fuel data len s 0) as [x |] eqn:Lp; [| discriminate].
  pose proof (orderly_write_loop data len fuel s 0 x W Lp) as P.
  destruct x as [s1 w | s1 w | s1]; destruct P as [W1 O1].
  - destruct (connected s1 && canSend s1).
    + destruct (_sendBuffer fuel s1) as [[s2 n] |] eqn:Sb; [| discriminate].
      inversion E; subst.
      eapply orderly_trans; [exact O1 |].
      eapply orderly_sendBuffer; eassumption.
    + inversion E; subst. exact O1.
  - inversion E; subst. exact O1.
  - inversion E; subst. exact O1.
Qed.

Lemma orderly_flush fuel maxWaitMs s s' b :
  wf s -> flush fuel maxWaitMs s = Some (s', b) -> orderly s s'.
Proof.
  intros W E. unfold flush in E.
  destruct (negb (connected s)); [inversion E; subst; apply orderly_refl |].
  destruct (_tx_buffer_head s <? vec_size (_tx_buffer s));
    [| inversion E; subst; apply orderly_refl].
  destruct (wait_canSend fuel s) as [s1 |] eqn:Wt; [| discriminate].
  destruct (wait_canSend_keeps fuel s s1 W Wt) as (W1 & _).
  pose proof (orderly_wait_canSend fuel s s1 W Wt) as O1.
  destruct (_client s1); [| inversion E; subst; exact O1].
  destruct (_sendBuffer fuel s1) as [[s2 n] |] eqn:Sb; [| discriminate].
  inversion E; subst.
  eapply orderly_trans; [exact O1 |].
  eapply orderly_sendBuffer; eassumption.
Qed.

End TxWrite.

(** ** The count [write] returns *)

Section WriteClaim.
Context {Conn : Type} {AC : AsyncClient Conn} {H : Heap}.
Context {K : AsyncClientContract Conn}.
Implicit Types s : SyncClient Conn.

(** C1, amended.  [write(data, len)] on an adapter that is unbound or not
    connected returns 0 at once and leaves the adapter, TX buffer included,
    as it was.  Otherwise a call ends in one of two ways.  It returns a count
    [r] of at most [len], never an error value, and [r] is the number of
    bytes it has copied into the TX buffer: they are the first [r] bytes of
    [data], and, unless a connect or disconnect callback has emptied the TX
    buffer meanwhile, what the connection accepted during the call followed
    by what waits in the TX buffer afterwards is what waited before followed
    by these bytes.  Or the TX vector does not take the next bytes, because
    the reallocation it needs fails: then the exception of [insert] leaves
    [write], which does not catch it, with the [w < len] bytes copied so far
    accounted for in the same way.  A call whose [len] bytes fit the spare
    capacity of the TX vector does not end by the exception, and every call
    ends when every wait for the send window ends. *)
Lemma write_within_capacity fuel (data : vec) (len : Z) s s' :
  wf s -> 0 <= len < SIZE_MOD -> len <= vec_size data ->
  vec_size (_tx_buffer s) + len <= _tx_buffer_capacity s ->
  write fuel data len s <> Some (s', Raised).
Proof.
  intros W L D Fit E.
  destruct (write_post fuel data len s s' Raised W L E)
    as [W' (w & R & _ & Bd & Cc & Ps & Tk)].
  rewrite vec_slice_size in Tk by lia.
  rewrite vec_takes_fits in Tk; [discriminate | | | |].
  - apply vec_size_nonneg.
  - lia.
  - lia.
  - unfold wf in W'. unfold vec_max_size in W'.
    rewrite INT_MAX_value in W'. rewrite SIZE_MOD_value. lia.
Qed.


End WriteClaim.

(** ** What holds along every history *)

Section Tidy.
Context {Conn : Type} {AC : AsyncClient Conn} {H : Heap}.
Context {AS : AsyncClientSetup Conn}.
Context {K : AsyncClientContract Conn}.
Implicit Types s : SyncClient Conn.

Lemma wait_connected_keeps fuel :
  forall s s', wf s -> wait_connected fuel s = Some s' ->
  wf s' /\ orderly s s' /\ _tx_buffer_size s' = _tx_buffer_size s.
Proof.
  induction fuel as [| fuel IH]; intros s s' W E.
  - simpl in E. destruct (_client s) as [c |];
      [destruct (negb (ac_connected c) && negb (ac_disconnecting c));
       [discriminate |] |];
      inversion E; subst; auto using orderly_refl.
  - cbn [wait_connected] in E. destruct (_client s) as [c |].
    2:{ inversion E; subst. auto using orderly_refl. }
    destruct (negb (ac_connected c) && negb (ac_disconnecting c)).
    2:{ inversion E; subst. auto using orderly_refl. }
    destruct (delay fuel s) as [s1 |] eqn:D; [| discriminate].
    destruct (delay_keeps fuel s s1 W D) as [W1 (_ & _ & Q & _)].
    pose proof (orderly_delay fuel s s1 W D) as O1.
    destruct (IH s1 s' W1 E) as (W' & O' & Q').
    conjs; eauto using orderly_trans. congruence.
Qed.

Lemma orderly_connect_with request fuel fresh s s' r :
  wf s -> connect_with request fuel fresh s = Some (s', r) -> orderly s s'.
Proof.
  intros W E. unfold connect_with in E.
  destruct (connected s).
  { inversion E; subst. apply orderly_refl. }
  set (s0 := match _client s with Some _ => log [CallDelete] s | None => s end)
    in *.
  assert (W0 : wf s0) by (subst s0; destruct (_client s); auto using wf_log).
  assert (O0 : orderly s s0).
  { subst s0. destruct (_client s); [| apply orderly_refl].
    now apply orderly_frame with (new := [CallDelete]). }
  destruct fresh as [c |].
  2:{ inversion E; subst.
      eapply orderly_trans; [exact O0 | apply orderly_set_client]. }
  destruct (request c) as [c' issued].
  set (s2 := set_client (Some c') _) in *.
  assert (W2 : wf s2) by (subst s2; unfold _attachCallbacks_Disconnect;
                          auto using wf_set_client, wf_log).
  assert (O2 : orderly s s2).
  { eapply orderly_trans; [exact O0 |]. subst s2.
    apply orderly_frame
      with (new := [CallOnConnect true; CallOnDisconnect true]);
      try reflexivity.
    unfold _attachCallbacks_Disconnect. simpl. now rewrite <- app_assoc. }
  destruct issued.
  - destruct (wait_connected fuel s2) as [s3 |] eqn:Wt; [| discriminate].
    destruct (wait_connected_keeps fuel s2 s3 W2 Wt) as (_ & O3 & _).
    inversion E; subst s3 r. eapply orderly_trans; eassumption.
  - inversion E; subst. exact O2.
Qed.

Lemma tidy_same s s' :
  _tx_buffer s' = _tx_buffer s -> _tx_buffer_head s' = _tx_buffer_head s ->
  _rx_buffer s' = _rx_buffer s -> _rx_buffer_head s' = _rx_buffer_head s ->
  tx_copied s' = tx_copied s ->
  (compact s -> compact s') /\ (tx_recent s -> tx_recent s').
Proof.
  intros T Th R Rh Cp.
  unfold compact, tx_recent, tx_unsent, rx_unread, tx_pending.
  rewrite T, Th, R, Rh, Cp. auto.
Qed.

Lemma tidy_emptied s s' :
  _tx_buffer s' = [] -> _tx_buffer_head s' = 0 ->
  (_rx_buffer s' = _rx_buffer s /\ _rx_buffer_head s' = _rx_buffer_head s
   \/ _rx_buffer s' = [] /\ _rx_buffer_head s' = 0) ->
  (compact s -> compact s') /\ (tx_recent s -> tx_recent s').
Proof.
  intros T Th R.
  unfold compact, tx_recent, tx_unsent, rx_unread, tx_pending.
  rewrite T, Th. split.
  - intros [_ C]. split; [auto |].
    destruct R as [[-> ->] | [-> ->]]; auto.
  - intros _. exists (tx_copied s'). simpl. now rewrite app_nil_r.
Qed.

Lemma tidy_orderly s s' :
  orderly s s' -> (compact s -> compact s') /\ (tx_recent s -> tx_recent s').
Proof. intros (C & T & _). auto. Qed.

Lemma tidy_unref s :
  (compact s -> compact (fst (unref s))) /\
  (tx_recent s -> tx_recent (fst (unref s))).
Proof.
  unfold unref. destruct (_ref s) as [n |]; [| now apply tidy_same].
  destruct (0 =? int_wrap (n - 1)); now apply tidy_same.
Qed.

Lemma tidy_release s :
  (compact s -> compact (_release s)) /\
  (tx_recent s -> tx_recent (_release s)).
Proof. apply tidy_emptied; try reflexivity. right. split; reflexivity. Qed.

Lemma tidy_read len s :
  wf s -> 0 <= len < SIZE_MOD ->
  (compact s -> compact (fst (fst (read len s)))) /\
  (tx_recent s -> tx_recent (fst (fst (read len s)))).
Proof.
  intros W L. destruct (Z.eq_dec (rx_unread s) 0) as [Z0 | Nz].
  - rewrite read_empty by (now rewrite (available_exact s W)). auto.
  - assert (U : 0 < rx_unread s) by (unfold rx_unread in *; wf_crush).
    destruct (read_some s len W L U)
      as (s' & R & W' & U' & Rs & Ks & _ & T & Th).
    rewrite R. cbn [fst].
    assert (Cp : tx_copied s' = tx_copied s).
    { unfold read in R.
      destruct (size_sub (vec_size (_rx_buffer s)) (_rx_buffer_head s) =? 0);
        [inversion R; reflexivity |].
      inversion R as [[S' N O]]. clear R N O.
      destruct (size_add _ _ =? _); cbn [set_rx _client];
        destruct (_client s) as [c |];
        try destruct (negb _ && ac_connected c); reflexivity. }
    unfold compact, tx_recent, tx_unsent, tx_pending.
    rewrite T, Th, Cp. split; [| auto].
    intros [Ct Cr]. split; [exact Ct |]. intros Z'.
    destruct (Z.eq_dec (_rx_buffer_head s + Z.min len (rx_unread s))
                (vec_size (_rx_buffer s))) as [Eq | Ne]; [now apply Rs |].
    destruct (Ks Ne) as [Rb Rh]. unfold rx_unread in *. rewrite Rb, Rh in Z'.
    lia.
Qed.

Lemma tidy_step s s' :
  step s s' -> wf s ->
  (compact s -> compact s') /\ (tx_recent s -> tx_recent s').
Proof.
  intros St W.
  destruct St as [fuel data len s s' r L E | fuel s s' n E
    | fuel maxWaitMs s s' b E | maxWaitMs s | len s L | s | fuel s s' E
    | c s s' E | s | data s | s | alloc_ok s | s | s
    | request fuel fresh s s' r E].
  - eapply tidy_orderly, orderly_write; eassumption.
  - eapply tidy_orderly, orderly_sendBuffer; eassumption.
  - eapply tidy_orderly, orderly_flush; eassumption.
  - apply tidy_orderly, orderly_client_close.
  - now apply tidy_read.
  - assert (L : 0 <= 1 < SIZE_MOD) by (rewrite SIZE_MOD_value; lia).
    pose proof (tidy_read 1 s W L) as T. unfold read_byte.
    destruct (read 1 s) as [[s1 n] out]. cbn [fst] in T.
    destruct (negb (n =? 1)); exact T.
  - eapply tidy_orderly, orderly_delay; eassumption.
  - eapply tidy_orderly, orderly_onConnect; eassumption.
  - apply tidy_emptied; try reflexivity. left. split; reflexivity.
  - now apply tidy_orderly, orderly_onData.
  - apply tidy_release.
  - unfold ref. destruct (_ref s); [| destruct alloc_ok]; now apply tidy_same.
  - apply tidy_unref.
  - unfold destroy. pose proof (tidy_unref s) as [C T].
    destruct (unref s) as [s1 count]. cbn [fst] in *.
    destruct (0 =? count); [| auto].
    destruct (tidy_release s1) as [C1 T1]. auto.
  - eapply tidy_orderly, orderly_connect_with; eassumption.
Qed.

(** What a constructor builds. *)
Lemma tidy_new txBufLen alloc_ok s :
  SyncClient_new (Conn := Conn) txBufLen alloc_ok = Returned s ->
  compact s /\ tx_recent s.
Proof.
  unfold SyncClient_new, reserve_tx. intros E.
  destruct (vec_reserve _ _) as [cap |]; [| discriminate].
  inversion E; subst s. unfold ref, fresh. simpl.
  destruct alloc_ok; simpl;
    (split; [split; intros _; split; reflexivity | now exists []]).
Qed.

Lemma tidy_adopt (client : option Conn) txBufLen alloc_ok s :
  SyncClient_adopt client txBufLen alloc_ok = Returned s ->
  compact s /\ tx_recent s.
Proof.
  unfold SyncClient_adopt, reserve_tx. intros E.
  destruct (vec_reserve _ _) as [cap |]; [| discriminate].
  revert E. unfold ref, fresh. simpl.
  destruct alloc_ok; simpl; destruct client; simpl; intros E;
    inversion E; subst s;
    (split; [split; intros _; split; reflexivity | now exists []]).
Qed.

Lemma tidy_unassigned s : unassigned s -> compact s /\ tx_recent s.
Proof.
  induction 1 as [n ok s R E | c n ok s R E | s s' Rs IH St].
  - eapply tidy_new; eassumption.
  - eapply tidy_adopt; eassumption.
  - assert (W : wf s) by now apply wf_reachable, unassigned_reachable.
    destruct (tidy_step s s' St W) as [C T].
    destruct IH. auto.
Qed.



End Tidy.

Section SendingFacts.
Context {Conn : Type} {AC : AsyncClient Conn} {H : Heap}.
Context {AS : AsyncClientSetup Conn}.
Context {K : AsyncClientContract Conn}.
Implicit Types s : SyncClient Conn.

(** X6. [write] keeps the byte stream whole.  When [write(data, len)]
    returns [r] and no connect or disconnect callback has emptied the TX
    buffer during the call, the bytes the connection accepted during the call
    followed by the bytes waiting afterwards are the bytes that waited before
    followed by the first [r] bytes of [data]: nothing is lost, doubled or
    put out of order. *)
Theorem write_keeps_order (fuel : nat) (data : vec) (len : Z) s s' (r : Z) :
  wf s -> 0 <= len < SIZE_MOD ->
  write fuel data len s = Some (s', Returned r) ->
  exists new,
    calls s' = calls s ++ new /\
    (forallb keeps_tx new = true ->
     accepted_bytes new ++ tx_pending s'
     = tx_pending s ++ firstn (Z.to_nat r) data).
Proof.
  intros W L E.
  destruct (orderly_write fuel data len s s' _ W E)
    as (_ & _ & _ & new & added & Lg & Cp & Q).
  destruct (write_post fuel data len s s' _ W L E) as (_ & _ & Cp').
  rewrite Cp in Cp'. apply app_inv_head in Cp'. subst added.
  exists new. auto.
Qed.

(** X7. Sending never costs received data.  Across [write], [flush],
    [_sendBuffer], [stop] and any [delay()] with the callbacks it runs, the
    unread bytes stay where they are, in their order; at most new bytes are
    added behind them. *)
Theorem sending_keeps_received s :
  wf s ->
  (forall fuel data len s' out,
     write fuel data len s = Some (s', out) ->
     exists more, rx_pending s' = rx_pending s ++ more) /\
  (forall fuel maxWaitMs s' b,
     flush fuel maxWaitMs s = Some (s', b) ->
     exists more, rx_pending s' = rx_pending s ++ more) /\
  (forall fuel s' n,
     _sendBuffer fuel s = Some (s', n) -> rx_pending s' = rx_pending s) /\
  (forall fuel s',
     delay fuel s = Some s' ->
     exists more, rx_pending s' = rx_pending s ++ more) /\
  (forall maxWaitMs, rx_pending (fst (stop maxWaitMs s)) = rx_pending s).
Proof.
  intros W. conjs.
  - intros fuel data len s' out E.
    now destruct (orderly_write fuel data len s s' out W E) as (_ & _ & R & _).
  - intros fuel m s' b E.
    now destruct (orderly_flush fuel m s s' b W E) as (_ & _ & R & _).
  - intros fuel s' n E.
    destruct (sendBuffer_post fuel s s' n W E) as (_ & _ & R & Rh & _).
    unfold rx_pending. now rewrite R, Rh.
  - intros fuel s' E.
    now destruct (orderly_delay fuel s s' W E) as (_ & _ & R & _).
  - intros m. unfold stop, client_close. cbn [fst].
    destruct (_client s) as [c |]; [| reflexivity].
    destruct (ac_close c true) as [c' fired]. now destruct fired.
Qed.


(** X9. The TX buffer of an adapter that was never assigned to holds nothing
    but what [write] put there.  On every adapter built by a constructor and
    gone through any of its member functions and callbacks but [operator=]
    (which brings in the TX buffer of another adapter), the unsent bytes are
    the last bytes [write] has copied, in the order they were copied. *)
Theorem tx_holds_latest_writes s :
  unassigned s ->
  exists older, tx_copied s = older ++ tx_pending s.
Proof. intros R. now destruct (tidy_unassigned s R) as [_ T]. Qed.

End SendingFacts.

(** ** The reserved capacity *)

Section Room.
Context {Conn : Type} {AC : AsyncClient Conn} {H : Heap}.
Context {AS : AsyncClientSetup Conn}.
Context {K : AsyncClientContract Conn}.
Implicit Types s : SyncClient Conn.

Lemma keeps_room_refl s : keeps_room s s.
Proof. unfold keeps_room. split; [reflexivity | lia]. Qed.

Lemma keeps_room_trans s1 s2 s3 :
  keeps_room s1 s2 -> keeps_room s2 s3 -> keeps_room s1 s3.
Proof. unfold keeps_room. intros [A1 B1] [A2 B2]. split; [congruence | lia]. Qed.

Lemma quiet_keeps_room s s' : quiet s s' -> keeps_room s s'.
Proof. intros (_ & _ & A & B). split; assumption. Qed.

Lemma keeps_room_same s s' :
  _tx_buffer_size s' = _tx_buffer_size s ->
  _tx_buffer_capacity s' = _tx_buffer_capacity s -> keeps_room s s'.
Proof. unfold keeps_room. intros -> ->. split; [reflexivity | lia]. Qed.

Lemma keeps_room_write_loop data len fuel :
  forall s written x,
    wf s -> write_loop fuel data len s written = Some x ->
    match x with
    | LoopEnd s' _ | LoopReturn s' _ | LoopRaise s' => keeps_room s s'
    end.
Proof.
  induction fuel as [| fuel IH]; intros s written x W E.
  - simpl in E. destruct (written <? len); [discriminate |].
    inversion E; subst. apply keeps_room_refl.
  - cbn [write_loop] in E. destruct (written <? len).
    2:{ inversion E; subst. apply keeps_room_refl. }
    destruct (make_room fuel s) as [rm |] eqn:M; [| discriminate].
    pose proof (make_room_keeps fuel s rm W M) as F.
    destruct rm as [s1 space | s1 | s1].
    + destruct F as (W1 & Q & Sp & Pos). apply quiet_keeps_room in Q.
      set (bytes := vec_slice data written
                      (Z.min space (size_sub len written))) in *.
      assert (Sz : vec_size bytes <= tx_space s1).
      { pose proof (vec_slice_size_le data written
                      (Z.min space (size_sub len written))). subst bytes. lia. }
      destruct (vec_insert_end (_tx_buffer_capacity s1) (_tx_buffer s1) bytes)
        as [[tx cap] |] eqn:I.
      * destruct (wf_copy s1 bytes tx cap W1 Sz I) as (-> & Cc & W2).
        apply IH in E; [| exact W2].
        assert (K2 : keeps_room s
                  (note_copied bytes
                     (set_tx (_tx_buffer s1 ++ bytes) (_tx_buffer_head s1)
                        (set_tx_capacity cap s1)))).
        { eapply keeps_room_trans; [exact Q |]. split; [reflexivity | exact Cc]. }
        destruct x as [s' w | s' w | s'];
          eapply keeps_room_trans; eassumption.
      * inversion E; subst. exact Q.
    + destruct F as (W1 & Q). inversion E; subst. now apply quiet_keeps_room.
    + destruct F as (W1 & Q & _). inversion E; subst.
      now apply quiet_keeps_room.
Qed.

Lemma keeps_room_write fuel data len s s' out :
  wf s -> 0 <= len < SIZE_MOD ->
  write fuel data len s = Some (s', out) -> keeps_room s s'.
Proof.
  intros W L E. unfold write in E.
  destruct (negb (connected s)).
  { inversion E; subst. apply keeps_room_refl. }
  destruct (write_loop fuel data len s 0) as [x |] eqn:Lp; [| discriminate].
  pose proof (keeps_room_write_loop data len fuel s 0 x W Lp) as P.
  pose proof (write_loop_post data len fuel s 0 x W ltac:(lia) ltac:(lia) Lp)
    as Q.
  destruct x as [s1 w | s1 w | s1].
  - destruct Q as (W1 & _).
    destruct (connected s1 && canSend s1).
    + destruct (_sendBuffer fuel s1) as [[s2 n] |] eqn:Sb; [| discriminate].
      inversion E; subst.
      destruct (sendBuffer_post fuel s1 s' n W1 Sb) as (_ & Q2 & _).
      eapply keeps_room_trans; [exact P | now apply quiet_keeps_room].
    + inversion E; subst. exact P.
  - inversion E; subst. exact P.
  - inversion E; subst. exact P.
Qed.

Lemma keeps_room_flush fuel maxWaitMs s s' b :
  wf s -> flush fuel maxWaitMs s = Some (s', b) -> keeps_room s s'.
Proof.
  intros W E. unfold flush in E.
  destruct (negb (connected s)); [inversion E; subst; apply keeps_room_refl |].
  destruct (_tx_buffer_head s <? vec_size (_tx_buffer s));
    [| inversion E; subst; apply keeps_room_refl].
  destruct (wait_canSend fuel s) as [s1 |] eqn:Wt; [| discriminate].
  destruct (wait_canSend_keeps fuel s s1 W Wt) as (W1 & Q1 & _).
  apply quiet_keeps_room in Q1.
  destruct (_client s1); [| inversion E; subst; exact Q1].
  destruct (_sendBuffer fuel s1) as [[s2 n] |] eqn:Sb; [| discriminate].
  inversion E; subst.
  destruct (sendBuffer_post fuel s1 s' n W1 Sb) as (_ & Q2 & _).
  eapply keeps_room_trans; [exact Q1 | now apply quiet_keeps_room].
Qed.

Lemma keeps_room_read len s : keeps_room s (fst (fst (read len s))).
Proof.
  unfold read.
  destruct (size_sub _ _ =? 0); cbn [fst]; [apply keeps_room_refl |].
  set (toRead := Z.min len _).
  destruct (size_add _ _ =? _); cbn [set_rx _client];
    destruct (_client s) as [c |];
    try destruct (negb (toRead =? 0) && ac_connected c);
    now apply keeps_room_same.
Qed.

Lemma keeps_room_unref s : keeps_room s (fst (unref s)).
Proof.
  unfold unref. destruct (_ref s) as [n |]; [| apply keeps_room_refl].
  destruct (0 =? int_wrap (n - 1)); now apply keeps_room_same.
Qed.

Lemma keeps_room_release s : keeps_room s (_release s).
Proof.
  unfold _release. destruct (_client s); now apply keeps_room_same.
Qed.

Lemma keeps_room_step s s' : step s s' -> wf s -> keeps_room s s'.
Proof.
  intros St W.
  destruct St as [fuel data len s s' r L E | fuel s s' n E
    | fuel maxWaitMs s s' b E | maxWaitMs s | len s L | s | fuel s s' E
    | c s s' E | s | data s | s | alloc_ok s | s | s
    | request fuel fresh s s' r E].
  - eapply keeps_room_write; eassumption.
  - destruct (sendBuffer_post fuel s s' n W E) as (_ & Q & _).
    now apply quiet_keeps_room.
  - eapply keeps_room_flush; eassumption.
  - apply quiet_keeps_room, quiet_client_close.
  - apply keeps_room_read.
  - unfold read_byte. pose proof (keeps_room_read 1 s) as R.
    destruct (read 1 s) as [[s1 n] out]. cbn [fst] in *.
    destruct (negb (n =? 1)); exact R.
  - destruct (delay_keeps fuel s s' W E) as [_ Q]. now apply quiet_keeps_room.
  - eapply quiet_keeps_room, quiet_onConnect; eassumption.
  - now apply keeps_room_same.
  - apply quiet_keeps_room, quiet_onData.
  - apply keeps_room_release.
  - unfold ref. destruct (_ref s); [| destruct alloc_ok];
      now apply keeps_room_same.
  - apply keeps_room_unref.
  - unfold destroy. pose proof (keeps_room_unref s) as R.
    destruct (unref s) as [s1 count]. cbn [fst] in R.
    destruct (0 =? count); [| exact R].
    eapply keeps_room_trans; [exact R | apply keeps_room_release].
  - destruct (connect_with_wf request fuel fresh s s' r W E) as [_ Q].
    now apply quiet_keeps_room.
Qed.

Lemma reserved_new txBufLen alloc_ok s :
  SyncClient_new (Conn := Conn) txBufLen alloc_ok = Returned s -> reserved s.
Proof.
  unfold SyncClient_new, reserve_tx. intros E.
  destruct (vec_reserve _ _) as [cap |] eqn:V; [| discriminate].
  apply vec_reserve_Some in V;
    [| cbn [fresh _tx_buffer_capacity]; unfold vec_max_size;
       rewrite INT_MAX_value; lia].
  inversion E; subst s. unfold reserved, ref.
  destruct (_ref _); [| destruct alloc_ok]; cbn; lia.
Qed.

Lemma reserved_adopt (client : option Conn) txBufLen alloc_ok s :
  SyncClient_adopt client txBufLen alloc_ok = Returned s -> reserved s.
Proof.
  unfold SyncClient_adopt, reserve_tx. intros E.
  destruct (vec_reserve _ _) as [cap |] eqn:V; [| discriminate].
  apply vec_reserve_Some in V;
    [| cbn [fresh _tx_buffer_capacity]; unfold vec_max_size;
       rewrite INT_MAX_value; lia].
  revert E. unfold reserved, ref. cbn [_ref set_tx_capacity fresh].
  destruct alloc_ok; cbn; destruct client; cbn; intros E;
    inversion E; subst s; cbn; lia.
Qed.

Lemma reserved_unassigned s : unassigned s -> reserved s.
Proof.
  induction 1 as [n ok s R E | c n ok s R E | s s' Rs IH St].
  - eapply reserved_new; eassumption.
  - eapply reserved_adopt; eassumption.
  - assert (W : wf s) by now apply wf_reachable, unassigned_reachable.
    destruct (keeps_room_step s s' St W) as [A B].
    unfold reserved in *. lia.
Qed.

(** X20. An adapter that was never assigned to keeps the capacity its
    constructor reserved: through all its member functions and callbacks the
    TX vector has room for [_tx_buffer_size] bytes.  So the [reserve] in the
    connect callback finds the room there and never raises, and a [write]
    whose bytes fit the configured size together with what the TX vector
    holds never ends by an exception. *)
Theorem reserved_capacity_stays s :
  unassigned s ->
  _tx_buffer_size s <= _tx_buffer_capacity s /\
  (forall c, exists s', _onConnect c s = Returned s') /\
  (forall fuel (data : vec) len s' out,
     0 <= len < SIZE_MOD -> len <= vec_size data ->
     vec_size (_tx_buffer s) + len <= _tx_buffer_size s ->
     write fuel data len s = Some (s', out) -> out <> Raised).
Proof.
  intros U. pose proof (reserved_unassigned s U) as R.
  assert (W : wf s) by now apply wf_reachable, unassigned_reachable.
  unfold reserved in R. conjs.
  - exact R.
  - intros c. unfold _onConnect, reserve_tx.
    cbn [set_tx set_client _tx_buffer_capacity].
    rewrite vec_reserve_there; [eauto | exact R | unfold wf in W; lia].
  - intros fuel data len s' out L D Fit E ->.
    apply (write_within_capacity fuel data len s s' W L D); [lia | exact E].
Qed.

End Room.

(** ** Flushing, single bytes, writes that fit *)

Section FlushFacts.
Context {Conn : Type} {AC : AsyncClient Conn} {H : Heap}.
Context {K : AsyncClientContract Conn}.
Implicit Types s : SyncClient Conn.

Lemma sendBuffer_loop_bound fuel :
  forall s t s' n,
    _sendBuffer_loop fuel s t = Some (s', n) ->
    _client s <> None -> _client s' <> None.
Proof.
  induction fuel as [| fuel IH]; intros s t s' n E B.
  - simpl in E.
    destruct (connected s && canSend s
              && (_tx_buffer_head s <? vec_size (_tx_buffer s)));
      [discriminate | inversion E; subst; exact B].
  - cbn [_sendBuffer_loop] in E.
    destruct (connected s && canSend s
              && (_tx_buffer_head s <? vec_size (_tx_buffer s)));
      [| inversion E; subst; exact B].
    destruct (_client s) as [c |]; [| discriminate].
    destruct (ac_write c _) as [c' sent].
    destruct (negb _).
    + inversion E; subst. discriminate.
    + apply IH in E; [exact E |].
      destruct (_ =? _); discriminate.
Qed.

Lemma sendBuffer_bound fuel s s' n :
  _sendBuffer fuel s = Some (s', n) -> _client s <> None -> _client s' <> None.
Proof.
  unfold _sendBuffer. intros E B.
  destruct (_client s) as [c |] eqn:EC; [| now elim B].
  destruct (_ || _); [inversion E; subst; now rewrite EC |].
  eapply sendBuffer_loop_bound; [exact E | now rewrite EC].
Qed.

(** How [flush] ends. *)
Lemma flush_cases (maxWaitMs : Z) s :
  wf s ->
  (forall fuel s' b,
     flush fuel maxWaitMs s = Some (s', b) ->
     (connected s = false -> s' = s /\ b = false) /\
     (b = true <->
      connected s = true /\ _client s' <> None /\ tx_unsent s' = 0) /\
     tx_copied s' = tx_copied s /\
     vec_size (_tx_buffer s') <= vec_size (_tx_buffer s)) /\
  (window_reopens -> exists fuel s' b, flush fuel maxWaitMs s = Some (s', b)).
Proof.
  intros W. split.
  - intros fuel s' b E. unfold flush in E.
    destruct (connected s) eqn:C; cbn [negb] in E.
    2:{ inversion E; subst. conjs; auto; try lia; try discriminate.
        all: intros (? & _); discriminate. }
    destruct (connected_client s C) as (c & EC & _).
    assert (Hd : 0 <= _tx_buffer_head s <= vec_size (_tx_buffer s))
      by (unfold wf in W; lia).
    destruct (_tx_buffer_head s <? vec_size (_tx_buffer s)) eqn:Lt;
      [apply Z.ltb_lt in Lt | apply Z.ltb_ge in Lt].
    + destruct (wait_canSend fuel s) as [s1 |] eqn:Wt; [| discriminate].
      destruct (wait_canSend_keeps fuel s s1 W Wt) as (W1 & (Q1 & Q2 & _) & _).
      destruct (_client s1) as [c1 |] eqn:EC1.
      * destruct (_sendBuffer fuel s1) as [[s2 n] |] eqn:Sb; [| discriminate].
        inversion E; subst s2 b. clear E.
        destruct (sendBuffer_post fuel s1 s' n W1 Sb)
          as (W2 & (Q3 & Q4 & _) & _).
        assert (B : _client s' <> None).
        { eapply sendBuffer_bound; [exact Sb | now rewrite EC1]. }
        conjs; try discriminate; try congruence; try lia.
        unfold tx_unsent. split.
        -- intros T. apply Z.eqb_eq in T. conjs; auto. lia.
        -- intros (_ & _ & U). apply Z.eqb_eq. lia.
      * inversion E; subst s1 b. clear E.
        conjs; try discriminate; auto.
        split; [discriminate | intros (_ & B & _); now elim B].
    + inversion E; subst s' b. clear E.
      conjs; try discriminate; auto; try lia.
      unfold tx_unsent. split.
      * intros _. conjs; auto; [now rewrite EC | lia].
      * intros _. apply Z.eqb_eq. lia.
  - intros Live. unfold flush.
    destruct (negb (connected s)); [exists O; eauto |].
    destruct (_tx_buffer_head s <? vec_size (_tx_buffer s)); [| exists O; eauto].
    destruct (Live s W) as (f1 & s1 & Wt).
    destruct (wait_canSend_keeps f1 s s1 W Wt) as (W1 & _).
    destruct (sendBuffer_total (S (Z.to_nat (tx_unsent s1))) s1 W1 ltac:(lia))
      as (s2 & n & Sb).
    exists (Nat.max f1 (S (Z.to_nat (tx_unsent s1)))).
    rewrite (wait_canSend_mono f1 _ s s1 (Nat.le_max_l _ _) Wt).
    rewrite (sendBuffer_mono _ _ s1 (s2, n) (Nat.le_max_r _ _) Sb).
    destruct (_client s1); eauto.
Qed.

(** X10. [flush(maxWaitMs)] on an adapter that is not connected returns
    false and changes nothing, also when nothing is unsent.  It returns true
    exactly when the adapter was connected at the call, still holds its
    connection at the end and has nothing unsent left.  It appends nothing
    to the TX buffer, and it comes back when every wait for the send window
    ends. *)
Theorem flush_result (maxWaitMs : Z) s :
  wf s ->
  (forall fuel s' b,
     flush fuel maxWaitMs s = Some (s', b) ->
     (connected s = false -> s' = s /\ b = false) /\
     (b = true <->
      connected s = true /\ _client s' <> None /\ tx_unsent s' = 0) /\
     tx_copied s' = tx_copied s /\
     vec_size (_tx_buffer s') <= vec_size (_tx_buffer s)) /\
  (window_reopens -> exists fuel s' b, flush fuel maxWaitMs s = Some (s', b)).
Proof. apply flush_cases. Qed.

(** X11. A [write] that fits the free room of the TX buffer is complete:
    on a connected adapter, with [0 < len] no more than the free room and
    memory for the bytes (the TX vector takes them, in its spare capacity or
    by growing), [write(data, len)] returns [len], and needs no wait for
    that: fuel for the final drain is all it takes. *)
Theorem write_that_fits (fuel : nat) (data : vec) (len : Z) s :
  wf s -> connected s = true ->
  0 < len <= tx_space s -> len <= vec_size data ->
  vec_takes (_tx_buffer_capacity s) (vec_size (_tx_buffer s)) len = true ->
  tx_unsent s + len < Z.of_nat fuel ->
  exists s', write fuel data len s = Some (s', Returned len).
Proof.
  intros W C L D M F.
  destruct fuel as [| fuel]; [pose proof (tx_space_exact s W); unfold tx_unsent in *; unfold wf in W; lia |].
  assert (Lm : len < SIZE_MOD).
  { rewrite (tx_space_exact s W) in L. unfold tx_unsent in L.
    unfold wf in W. lia. }
  unfold write. rewrite C. cbn [negb write_loop].
  replace (0 <? len) with true by (symmetry; apply Z.ltb_lt; lia).
  unfold make_room.
  replace (tx_space s =? 0) with false by (symmetry; apply Z.eqb_neq; lia).
  rewrite (size_sub_exact len 0), Z.sub_0_r by lia.
  replace (Z.min (tx_space s) len) with len by lia.
  assert (Sz : vec_size (vec_slice data 0 len) = len)
    by (apply vec_slice_size; lia).
  destruct (vec_insert_end_takes (_tx_buffer_capacity s) (_tx_buffer s)
              (vec_slice data 0 len)) as [cap I]; [rewrite Sz; exact M |].
  rewrite I.
  rewrite (size_add_exact 0 len) by lia. cbn [Z.add].
  set (s2 := note_copied _ _).
  assert (W2 : wf s2).
  { subst s2. apply (wf_copy s _ _ cap W); [rewrite Sz; lia | exact I]. }
  assert (U2 : tx_unsent s2 = tx_unsent s + len).
  { subst s2. unfold tx_unsent. simpl. rewrite vec_size_app, Sz. lia. }
  assert (E : write_loop fuel data len s2 len = Some (LoopEnd s2 len)).
  { destruct fuel; simpl; rewrite Z.ltb_irrefl; reflexivity. }
  rewrite E.
  destruct (connected s2 && canSend s2); [| eauto].
  destruct (sendBuffer_total (S fuel) s2 W2 ltac:(lia)) as (s3 & n & Sb).
  rewrite Sb. eauto.
Qed.

(** X12. [write(uint8_t)] returns 1 when it has put the byte into the TX
    buffer, behind what waited there, and 0 when it has not; it puts nothing
    else there.  It can also end by the exception of a TX vector that does
    not take the byte, and has not put the byte there then either.  In every
    case, unless a connect or disconnect callback has emptied the TX buffer
    meanwhile, what the connection accepted during the call followed by
    what waits afterwards is what waited before, followed by the byte when
    1 is returned. *)
Theorem write_byte_result (fuel : nat) (b : byte) s s' (out : outcome Z) :
  wf s ->
  write_byte fuel b s = Some (s', out) ->
  exists new,
    calls s' = calls s ++ new /\
    ((out = Returned 1 /\ tx_copied s' = tx_copied s ++ [b] /\
      (forallb keeps_tx new = true ->
       accepted_bytes new ++ tx_pending s' = tx_pending s ++ [b])) \/
     ((out = Returned 0 \/ out = Raised) /\ tx_copied s' = tx_copied s /\
      (forallb keeps_tx new = true ->
       accepted_bytes new ++ tx_pending s' = tx_pending s))).
Proof.
  intros W E. unfold write_byte in E.
  assert (L : 0 <= 1 < SIZE_MOD) by (rewrite SIZE_MOD_value; lia).
  destruct (write_post fuel [b] 1 s s' out W L E) as (_ & P).
  destruct (orderly_write fuel [b] 1 s s' out W E)
    as (_ & _ & _ & new & added & Lg & Cp & Q).
  exists new. split; [exact Lg |].
  assert (Cases : (out = Returned 1 /\ added = [b]) \/
                  ((out = Returned 0 \/ out = Raised) /\ added = [])).
  { destruct out as [r |].
    - destruct P as [R Cp']. rewrite Cp in Cp'. apply app_inv_head in Cp'.
      assert (r = 0 \/ r = 1) as [-> | ->] by lia; simpl in Cp'; auto.
    - destruct P as (w & R & Cp' & _). rewrite Cp in Cp'.
      apply app_inv_head in Cp'. assert (w = 0) as -> by lia.
      simpl in Cp'. auto. }
  destruct Cases as [[-> ->] | [O ->]].
  - left. auto.
  - right. rewrite !app_nil_r in *. auto.
Qed.

End FlushFacts.

(** ** Counting owners *)

Section CountFacts.
Context {Conn : Type} {AC : AsyncClient Conn} {H : Heap}.
Implicit Types s : SyncClient Conn.

(** X13. [ref()] and [unref()] undo each other: after a successful [ref()],
    [unref()] reports the count there was before (0 when there was no
    counter) and leaves the adapter as it was before the [ref()], with the
    counter freed again when there was none.  So an adapter that has another
    owner is not released by a [ref()] followed by the destructor. *)
Theorem ref_then_unref s :
  ref_ok s ->
  fst (unref (fst (ref true s))) = s /\
  snd (unref (fst (ref true s)))
  = match _ref s with Some n => n | None => 0 end /\
  (_ref s <> None -> destroy (fst (ref true s)) = s).
Proof.
  intros Ok. unfold ref_ok in Ok. unfold destroy, unref, ref.
  destruct s as [cl tx th ts rx rh rf cs cp]. cbn [_ref] in *.
  destruct rf as [n |]; cbn [fst snd set_ref _ref _client _tx_buffer
    _tx_buffer_head _tx_buffer_size _rx_buffer _rx_buffer_head calls tx_copied].
  - rewrite (int_wrap_exact (n + 1)) by lia.
    replace (n + 1 - 1) with n by lia.
    rewrite (int_wrap_exact n) by lia.
    replace (0 =? n) with false by (symmetry; apply Z.eqb_neq; lia).
    cbn [fst snd set_ref _ref _client _tx_buffer _tx_buffer_head
         _tx_buffer_size _rx_buffer _rx_buffer_head calls tx_copied].
    replace (0 =? n) with false by (symmetry; apply Z.eqb_neq; lia).
    auto.
  - change (int_wrap (0 + 1)) with 1. change (int_wrap (1 - 1)) with 0.
    cbn. conjs; auto. intros N. now elim N.
Qed.

End CountFacts.

(** ** Constructing, connecting, assigning *)

Section SetupFacts.
Context {Conn : Type} {AC : AsyncClient Conn} {H : Heap}.
Context {AS : AsyncClientSetup Conn}.
Context {K : AsyncClientContract Conn}.
Implicit Types s : SyncClient Conn.

(** X14. A constructor builds an adapter exactly when its
    [reserve(txBufLen)] comes back, that is, when [txBufLen] is no more than
    [max_size()] and the heap grants that block (none is asked for when
    [txBufLen] is 0); otherwise the exception leaves the constructor.  A
    newly constructed adapter has a TX vector of capacity [txBufLen], owns no
    connection and fails every transfer at once: its free TX room is the whole
    configured size and its counter stands at 1 (or is absent when its
    allocation failed); [available()] is 0, [peek()] and [read] return -1,
    [write] returns 0, [flush] returns false and [stop] returns true, all
    without changing the adapter.  An adapter constructed around a
    connection registers its callbacks on it only when the counter could be
    allocated. *)
Theorem constructors_give_idle_adapter (txBufLen : Z) (alloc_ok : bool) :
  0 <= txBufLen < SIZE_MOD ->
  ((exists s, SyncClient_new (Conn := Conn) txBufLen alloc_ok = Returned s) <->
   txBufLen <= vec_max_size /\ (txBufLen = 0 \/ heap_grants txBufLen = true)) /\
  (forall client : option Conn,
     (exists s, SyncClient_adopt client txBufLen alloc_ok = Returned s) <->
     txBufLen <= vec_max_size /\
     (txBufLen = 0 \/ heap_grants txBufLen = true)) /\
  (forall s,
     SyncClient_new (Conn := Conn) txBufLen alloc_ok = Returned s ->
     wf s /\
     _tx_buffer_capacity s = txBufLen /\
     _ref s = (if alloc_ok then Some 1 else None) /\
     connected s = false /\
     tx_space s = txBufLen /\
     available s = 0 /\ peek s = -1 /\
     (forall len, read len s = (s, -1, [])) /\
     (forall fuel data len, write fuel data len s = Some (s, Returned 0)) /\
     (forall fuel maxWaitMs, flush fuel maxWaitMs s = Some (s, false)) /\
     (forall maxWaitMs, stop maxWaitMs s = (s, true))) /\
  (forall (c : Conn) s,
     SyncClient_adopt (Some c) txBufLen alloc_ok = Returned s ->
     wf s /\
     _tx_buffer_capacity s = txBufLen /\
     _client s = Some c /\
     calls s
     = if alloc_ok
       then [CallOnDisconnect true; CallOnAck true; CallOnData true;
             CallOnTimeout true]
       else []).
Proof.
  intros R.
  assert (Rs : forall client : option Conn,
            (exists cap,
               vec_reserve (_tx_buffer_capacity (fresh client txBufLen))
                 txBufLen = Some cap) <->
            txBufLen <= vec_max_size /\
            (txBufLen = 0 \/ heap_grants txBufLen = true)).
  { intros client. unfold vec_reserve, fresh. cbn [_tx_buffer_capacity].
    destruct (vec_max_size <? txBufLen) eqn:M;
      [apply Z.ltb_lt in M | apply Z.ltb_ge in M].
    - split; [intros [cap X]; discriminate | lia].
    - destruct (0 <? txBufLen) eqn:P;
        [apply Z.ltb_lt in P | apply Z.ltb_ge in P].
      + destruct (heap_grants txBufLen).
        * split; eauto.
        * split; [intros [cap X]; discriminate |].
          intros [_ [Z0 | X]]; [lia | discriminate].
      + split; [intros _; split; [exact M | left; lia] | eauto]. }
  assert (Cap : forall (client : option Conn) cap,
            vec_reserve (_tx_buffer_capacity (fresh client txBufLen))
              txBufLen = Some cap -> cap = txBufLen).
  { intros client cap. unfold vec_reserve, fresh. cbn [_tx_buffer_capacity].
    destruct (vec_max_size <? txBufLen); [discriminate |].
    destruct (0 <? txBufLen) eqn:P;
      [destruct (heap_grants txBufLen); [| discriminate]
      | apply Z.ltb_ge in P];
      intros X; inversion X; lia. }
  conjs.
  - rewrite <- (Rs None). unfold SyncClient_new, reserve_tx.
    destruct (vec_reserve _ _) as [cap |]; split; eauto.
    + intros [s X]. discriminate.
    + intros [cap X]. discriminate.
  - intros client. rewrite <- (Rs client). unfold SyncClient_adopt, reserve_tx.
    destruct (vec_reserve _ _) as [cap |]; split; eauto.
    + intros _. destruct (ref alloc_ok _). eauto.
    + intros [s X]. discriminate.
    + intros [cap X]. discriminate.
  - intros s E.
    pose proof (wf_new txBufLen alloc_ok s R E) as W.
    pose proof (tx_space_exact s W) as Sp.
    unfold SyncClient_new, reserve_tx in E.
    destruct (vec_reserve _ _) as [cap |] eqn:V; [| discriminate].
    apply Cap in V. subst cap. inversion E; subst s. clear E.
    unfold ref, fresh, tx_unsent in *. cbn [_ref set_tx_capacity] in *.
    change (int_wrap (0 + 1)) with 1 in *.
    destruct alloc_ok; cbn [fst snd] in *; conjs; auto;
      try reflexivity; try (simpl in Sp; lia);
      intros; conjs; reflexivity.
  - intros c s E.
    pose proof (wf_adopt (Some c) txBufLen alloc_ok s R E) as W.
    unfold SyncClient_adopt, reserve_tx in E.
    destruct (vec_reserve _ _) as [cap |] eqn:V; [| discriminate].
    apply Cap in V. subst cap.
    unfold ref, fresh in E. cbn [_ref set_tx_capacity] in E.
    change (int_wrap (0 + 1)) with 1 in E.
    destruct alloc_ok; cbn in E; inversion E; subst s;
      conjs; auto; reflexivity.
Qed.

(** X15. [connect(host, port)] and [_connect(ip, port)], which differ in
    the request they issue only, answer 1 only when the adapter was not
    connected before and is connected now; on an adapter that is connected
    already they return 0 and change nothing, and when the new connection
    cannot be allocated they return 0 and leave the adapter without a
    connection.  However they end, the invariant of the buffers stands and
    the unread received bytes are still there, in order: a new connection
    does not clear the RX buffer. *)
Theorem connect_result (request : Conn -> Conn * bool) (fuel : nat)
  (fresh : option Conn) s s' (r : Z) :
  wf s -> connect_with request fuel fresh s = Some (s', r) ->
  wf s' /\
  (r = 0 \/ r = 1) /\
  (r = 1 -> connected s = false /\ connected s' = true /\ fresh <> None) /\
  (connected s = true -> s' = s /\ r = 0) /\
  (connected s = false -> fresh = None -> _client s' = None /\ r = 0) /\
  (exists more, rx_pending s' = rx_pending s ++ more) /\
  _tx_buffer_size s' = _tx_buffer_size s.
Proof.
  intros W E. unfold connect_with in E.
  destruct (connected s) eqn:C.
  { inversion E; subst. conjs; auto using rx_grows_refl; try discriminate.
    exists []. now rewrite app_nil_r. }
  set (s0 := match _client s with Some _ => log [CallDelete] s | None => s end)
    in *.
  assert (W0 : wf s0) by (subst s0; destruct (_client s); auto using wf_log).
  assert (R0 : rx_pending s0 = rx_pending s)
    by (subst s0; destruct (_client s); reflexivity).
  assert (T0 : _tx_buffer_size s0 = _tx_buffer_size s)
    by (subst s0; destruct (_client s); reflexivity).
  destruct fresh as [c |].
  2:{ inversion E; subst. conjs; auto using wf_set_client; try discriminate.
      all: try (exists []; rewrite app_nil_r; exact R0).
      all: try (intros X; now elim X). }
  destruct (request c) as [c' issued].
  set (s2 := set_client (Some c') _) in *.
  assert (W2 : wf s2) by (subst s2; unfold _attachCallbacks_Disconnect;
                          auto using wf_set_client, wf_log).
  assert (R2 : rx_pending s2 = rx_pending s) by exact R0.
  assert (T2 : _tx_buffer_size s2 = _tx_buffer_size s) by exact T0.
  destruct issued.
  - destruct (wait_connected fuel s2) as [s3 |] eqn:Wt; [| discriminate].
    destruct (wait_connected_keeps fuel s2 s3 W2 Wt)
      as (W3 & (_ & _ & [more Rg] & _) & T3).
    inversion E; subst s3 r. clear E.
    destruct (connected s') eqn:C'; conjs; auto; try discriminate;
      try congruence.
    + intros _. conjs; auto. discriminate.
    + exists more. now rewrite Rg, R2.
    + exists more. now rewrite Rg, R2.
  - inversion E; subst. conjs; auto; try discriminate; try congruence.
    exists []. rewrite app_nil_r. exact R2.
Qed.

Lemma vec_copy_assign_copies cap (x : vec) :
  vec_copy_assign cap x
  = if vec_copies cap x
    then Some (x, if cap <? vec_size x then vec_size x else cap)
    else None.
Proof.
  unfold vec_copy_assign, vec_copies.
  destruct (cap <? vec_size x); [destruct (heap_grants _) |]; reflexivity.
Qed.

(** What [read], [peek] and [available] answer depends on the RX buffer and
    its head alone. *)
Lemma same_rx_same_answers (a b : SyncClient Conn) :
  _rx_buffer a = _rx_buffer b -> _rx_buffer_head a = _rx_buffer_head b ->
  rx_pending a = rx_pending b /\
  available a = available b /\
  peek a = peek b /\
  (forall len,
     snd (read len a) = snd (read len b) /\
     snd (fst (read len a)) = snd (fst (read len b))).
Proof.
  intros Rb Rh. unfold rx_pending, available, peek, read. rewrite Rb, Rh.
  conjs; try reflexivity.
  intros len. destruct (size_sub _ _ =? 0); split; reflexivity.
Qed.

(** The second half of an assignment from another adapter. *)
Lemma take_over_result (client : option Conn) (o s : SyncClient Conn) :
  _client s = None ->
  _ref (fst (take_over client o s)) = _ref s /\
  _tx_buffer_size (fst (take_over client o s)) = _tx_buffer_size o /\
  _client (fst (take_over client o s)) = client /\
  tx_copied (fst (take_over client o s)) = tx_copied s /\
  (snd (take_over client o s) = Returned tt <->
   vec_copies (_tx_buffer_capacity s) (_tx_buffer o)
   && vec_copies (_rx_buffer_capacity s) (_rx_buffer o) = true) /\
  (snd (take_over client o s) = Returned tt ->
   _tx_buffer (fst (take_over client o s)) = _tx_buffer o /\
   _tx_buffer_head (fst (take_over client o s)) = _tx_buffer_head o /\
   _rx_buffer (fst (take_over client o s)) = _rx_buffer o /\
   _rx_buffer_head (fst (take_over client o s)) = _rx_buffer_head o /\
   calls (fst (take_over client o s))
   = calls s ++
     match client with
     | Some _ => [CallOnDisconnect true; CallOnAck true; CallOnData true;
                  CallOnTimeout true]
     | None => []
     end) /\
  (snd (take_over client o s) = Raised ->
   _rx_buffer (fst (take_over client o s)) = [] /\
   _rx_buffer_head (fst (take_over client o s)) = 0 /\
   calls (fst (take_over client o s)) = calls s).
Proof.
  intros N. unfold take_over. cbv zeta.
  assert (Cs : forall c' : option Conn,
            _tx_buffer_capacity
              (match c' with
               | Some c => set_client (Some c)
                   (mkSyncClient (_client s) [] 0 (_tx_buffer_size o) [] 0
                      (_ref s) (_tx_buffer_capacity s) (_rx_buffer_capacity s)
                      (calls s) (tx_copied s))
               | None =>
                   mkSyncClient (_client s) [] 0 (_tx_buffer_size o) [] 0
                     (_ref s) (_tx_buffer_capacity s) (_rx_buffer_capacity s)
                     (calls s) (tx_copied s)
               end) = _tx_buffer_capacity s)
    by (intros [c |]; reflexivity).
  rewrite Cs, vec_copy_assign_copies.
  destruct (vec_copies (_tx_buffer_capacity s) (_tx_buffer o)); cbn [andb].
  - cbn [set_tx set_tx_capacity _rx_buffer_capacity].
    assert (Cr : forall c' : option Conn,
              _rx_buffer_capacity
                (match c' with
                 | Some c => set_client (Some c)
                     (mkSyncClient (_client s) [] 0 (_tx_buffer_size o) [] 0
                        (_ref s) (_tx_buffer_capacity s)
                        (_rx_buffer_capacity s) (calls s) (tx_copied s))
                 | None =>
                     mkSyncClient (_client s) [] 0 (_tx_buffer_size o) [] 0
                       (_ref s) (_tx_buffer_capacity s)
                       (_rx_buffer_capacity s) (calls s) (tx_copied s)
                 end) = _rx_buffer_capacity s)
      by (intros [c |]; reflexivity).
    rewrite Cr, vec_copy_assign_copies.
    destruct (vec_copies (_rx_buffer_capacity s) (_rx_buffer o)).
    + destruct client as [c |]; cbn; rewrite ?N; cbn; rewrite ?app_nil_r;
        conjs; try reflexivity; try (split; reflexivity);
        try discriminate; intros _; conjs; try reflexivity.
      now rewrite <- app_assoc.
    + destruct client as [c |]; cbn; rewrite ?N;
        conjs; try reflexivity; try (split; discriminate);
        try discriminate; intros _; conjs; reflexivity.
  - destruct client as [c |]; cbn; rewrite ?N;
      conjs; try reflexivity; try (split; discriminate);
      try discriminate; intros _; conjs; reflexivity.
Qed.

(** X16. Assignment from another adapter takes over its state and keeps its
    own counter.  The adapter assigned to first aborts and drops the
    connection it had.  The assignment comes back exactly when both vectors
    can be copied (each fits the capacity there is, or the heap grants a
    block of its size); then the adapter holds the configured TX size and
    both buffers of the other adapter, so that [available], [peek] and
    [read] answer on it as on the other one, and its callbacks are
    registered on the connection it holds.  That connection is the one of
    the other adapter; but when the two adapters pointed to the same
    connection object, it is the connection the assignment has just aborted
    and freed.  When a vector cannot be copied the exception leaves the
    assignment with the RX buffer empty and no callback registered.  In
    every case the counter is the one the adapter had; hence, when it stands
    at 1, destroying the adapter aborts the connection taken over. *)
Theorem assign_takes_over (other : Other) (o s : SyncClient Conn) :
  wf s -> wf o -> other = Apart o \/ other = Sharing o ->
  wf (fst (assign other s)) /\
  _ref (fst (assign other s)) = _ref s /\
  _tx_buffer_size (fst (assign other s)) = _tx_buffer_size o /\
  (other = Apart o -> _client (fst (assign other s)) = _client o) /\
  (other = Sharing o -> forall c, _client s = Some c ->
   _client (fst (assign other s)) = Some (ac_free (ac_abort c))) /\
  (_client s <> None ->
   exists rest, calls (fst (assign other s)) = calls s ++ CallAbort :: rest) /\
  (snd (assign other s) = Returned tt <->
   vec_copies (_tx_buffer_capacity s) (_tx_buffer o)
   && vec_copies (_rx_buffer_capacity s) (_rx_buffer o) = true) /\
  (snd (assign other s) = Returned tt ->
   tx_pending (fst (assign other s)) = tx_pending o /\
   rx_pending (fst (assign other s)) = rx_pending o /\
   available (fst (assign other s)) = available o /\
   peek (fst (assign other s)) = peek o /\
   (forall len,
      snd (read len (fst (assign other s))) = snd (read len o) /\
      snd (fst (read len (fst (assign other s)))) = snd (fst (read len o))) /\
   (_client (fst (assign other s)) <> None ->
    exists before,
      calls (fst (assign other s))
      = before ++ [CallOnDisconnect true; CallOnAck true; CallOnData true;
                   CallOnTimeout true])) /\
  (snd (assign other s) = Raised ->
   rx_pending (fst (assign other s)) = [] /\
   available (fst (assign other s)) = 0 /\
   calls (fst (assign other s))
   = calls s ++ match _client s with Some _ => [CallAbort] | None => [] end) /\
  (_ref s = Some 1 -> _client (fst (assign other s)) <> None ->
   _client (destroy (fst (assign other s))) = None /\
   exists before,
     calls (destroy (fst (assign other s)))
     = before ++ [CallOnData false; CallOnAck false; CallOnPoll false;
                  CallAbort]).
Proof.
  intros W Wo Oth.
  pose proof (wf_assign other s W) as Wa.
  assert (Wfo : wf_other other) by (destruct Oth as [-> | ->]; exact Wo).
  specialize (Wa Wfo).
  set (s1 := match _client s with
             | Some c =>
                 set_client None
                   (log [CallAbort]
                      (set_client (Some (ac_free (ac_abort c))) s))
             | None => s
             end).
  assert (A : assign other s = take_over (other_client other s) o s1)
    by (destruct Oth as [-> | ->]; reflexivity).
  rewrite A in *. clear A.
  assert (N1 : _client s1 = None).
  { subst s1. destruct (_client s) eqn:E; [reflexivity | exact E]. }
  assert (R1 : _ref s1 = _ref s /\
               _tx_buffer_capacity s1 = _tx_buffer_capacity s /\
               _rx_buffer_capacity s1 = _rx_buffer_capacity s /\
               calls s1
               = calls s ++
                 match _client s with Some _ => [CallAbort] | None => [] end).
  { subst s1. destruct (_client s); cbn; rewrite ?app_nil_r; auto. }
  destruct R1 as (R1 & Ct1 & Cr1 & L1).
  destruct (take_over_result (other_client other s) o s1 N1)
    as (Rf & Ts & Cl & _ & Iff & Ok & Bad).
  rewrite Ct1, Cr1 in Iff.
  set (r := take_over (other_client other s) o s1) in *. clearbody r.
  conjs.
  - exact Wa.
  - congruence.
  - exact Ts.
  - intros ->. exact Cl.
  - intros -> c Ec. rewrite Cl. cbn [other_client]. now rewrite Ec.
  - intros B.
    assert (Lg : exists rest', calls (fst r) = calls s1 ++ rest').
    { destruct (snd r) as [[] |] eqn:Sr.
      - destruct (Ok eq_refl) as (_ & _ & _ & _ & Lg). eauto.
      - destruct (Bad eq_refl) as (_ & _ & Lg). exists [].
        now rewrite app_nil_r. }
    destruct Lg as [rest' Lg]. rewrite Lg, L1.
    destruct (_client s); [| now elim B].
    exists rest'. now rewrite <- app_assoc.
  - exact Iff.
  - intros Sr. destruct (Ok Sr) as (Tb & Th & Rb & Rh & Lg).
    destruct (same_rx_same_answers (fst r) o Rb Rh) as (Rp & Av & Pk & Rd).
    conjs; auto.
    + unfold tx_pending. now rewrite Tb, Th.
    + intros B. rewrite Lg. rewrite Cl in B.
      destruct (other_client other s); [| now elim B].
      eexists. reflexivity.
  - intros Sr. destruct (Bad Sr) as (Rb & Rh & Lg).
    unfold rx_pending, available. rewrite Rb, Rh, Lg, L1.
    conjs; reflexivity.
  - intros One B. unfold destroy, unref. rewrite Rf, R1, One.
    change (int_wrap (1 - 1)) with 0. cbn [Z.eqb fst set_ref].
    unfold _release. cbn [set_ref _client].
    destruct (_client (fst r)); [| now elim B].
    split; [reflexivity |]. cbn. eexists. reflexivity.
Qed.

(** X17. Assigning an adapter to itself loses everything it had: its
    connection is aborted and dropped and both buffers are empty afterwards,
    whatever was unsent or unread; only the configured TX size and the
    counter stay.  No vector is copied, so the assignment always comes
    back. *)
Theorem assign_to_itself s :
  snd (assign Itself s) = Returned tt /\
  _client (fst (assign Itself s)) = None /\
  _tx_buffer (fst (assign Itself s)) = [] /\
  _tx_buffer_head (fst (assign Itself s)) = 0 /\
  _rx_buffer (fst (assign Itself s)) = [] /\
  _rx_buffer_head (fst (assign Itself s)) = 0 /\
  available (fst (assign Itself s)) = 0 /\
  _tx_buffer_size (fst (assign Itself s)) = _tx_buffer_size s /\
  _ref (fst (assign Itself s)) = _ref s /\
  calls (fst (assign Itself s))
  = calls s ++ match _client s with Some _ => [CallAbort] | None => [] end.
Proof.
  unfold assign. destruct (_client s) as [c |] eqn:E; simpl; rewrite ?E;
    simpl; rewrite ?app_nil_r; conjs; reflexivity.
Qed.

End SetupFacts.

(** ** Runs of connecting and assigning *)

Example connect_succeeds :
  option_map (fun x => (snd x, connected (fst x)))
    (connect hello 80 5 (Some new_pipe) unbound)
  = Some (1, true).
Proof. vm_compute. reflexivity. Qed.

Example connect_sees_disconnect :
  option_map (fun x => (snd x, _client (fst x)))
    (connect hello 80 5 (Some new_fragile_pipe) unbound)
  = Some (0, None).
Proof. vm_compute. reflexivity. Qed.

Example connect_when_connected :
  connect hello 80 5 (Some new_pipe) (on_pipe 2 0) = Some (on_pipe 2 0, 0).
Proof. vm_compute. reflexivity. Qed.

Example assign_copies_unread :
  snd (read 5 (fst (assign (Apart pipe_with_data) unbound))) = hello.
Proof. vm_compute. reflexivity. Qed.

Example assign_from_sharing_adapter :
  (connected pipe_with_data,
   connected (fst (assign (Sharing pipe_with_data) pipe_with_data)),
   connected (fst (assign (Apart pipe_with_data) pipe_with_data)))
  = (true, false, true).
Proof. vm_compute. reflexivity. Qed.

Example assign_without_memory :
  snd (assign (Apart (set_rx (filler ++ filler) 0 unbound)) unbound) = Raised.
Proof. vm_compute. reflexivity. Qed.

Example constructor_without_memory :
  (SyncClient_new (Conn := Pipe) 1001 true,
   SyncClient_new (Conn := Pipe) 4294967295 true)
  = (Raised, Raised).
Proof. vm_compute. reflexivity. Qed.

Example crowded_vector :
  (vec_size (_tx_buffer crowded), _tx_buffer_head crowded,
   _tx_buffer_capacity crowded, tx_space crowded, connected crowded)
  = (600, 1, 600, 1, true).
Proof. vm_compute. reflexivity. Qed.

(** ** The count of [write] on the pipe *)




(** ** The further facts at work on the pipe *)

Lemma read_takes_front_witness :
  wf pipe_with_data /\
  snd (read 3 pipe_with_data) = firstn 3 (rx_pending pipe_with_data) /\
  rx_pending (fst (fst (read 3 pipe_with_data)))
  = skipn 3 (rx_pending pipe_with_data).
Proof.
  assert (W : wf pipe_with_data) by by_computation.
  destruct (read_takes_front pipe_with_data 3 W) as (O & P & _);
    [by_computation |].
  split; [exact W |]. split; [exact O | exact P].
Defined.

Lemma onData_appends_or_aborts_witness :
  wf (on_pipe 2 1) /\
  rx_pending (_onData hello (on_pipe 2 1)) = rx_pending (on_pipe 2 1) ++ hello /\
  _rx_buffer (_onData (filler ++ filler) (on_pipe 2 1)) = [] /\
  connected (_onData (filler ++ filler) (on_pipe 2 1)) = false.
Proof.
  assert (W : wf (on_pipe 2 1)) by by_computation.
  split; [exact W |].
  destruct (onData_appends_or_aborts (on_pipe 2 1) (mkPipe true false 1 [])
              hello W eq_refl) as [A _].
  destruct (onData_appends_or_aborts (on_pipe 2 1) (mkPipe true false 1 [])
              (filler ++ filler) W eq_refl) as [_ B].
  destruct A as (_ & _ & P & _); [vm_compute; reflexivity |].
  destruct B as (Rb & _ & _ & C & _); [vm_compute; reflexivity |].
  split; [exact P |]. split; [exact Rb |].
  unfold connected. rewrite C. reflexivity.
Defined.

Lemma onData_then_read_witness :
  wf pipe_with_data /\
  snd (read (rx_unread pipe_with_data + vec_size hello)
         (_onData hello pipe_with_data))
  = rx_pending pipe_with_data ++ hello.
Proof.
  assert (W : wf pipe_with_data) by by_computation.
  split; [exact W |].
  destruct (onData_then_read pipe_with_data (mkPipe true false 1 []) hello W
              eq_refl) as (O & _); [by_computation | by_computation | exact O].
Defined.

Lemma peek_is_next_read_witness :
  wf pipe_with_data /\ peek pipe_with_data = snd (read_byte pipe_with_data).
Proof.
  assert (W : wf pipe_with_data) by by_computation.
  split; [exact W |].
  destruct (peek_is_next_read pipe_with_data W) as (_ & N).
  destruct N as (E & _); [by_computation | exact E].
Defined.

Lemma sendBuffer_takes_front_witness :
  wf pipe_queued /\
  exists s' new,
    _sendBuffer 6 pipe_queued = Some (s', 3) /\
    tx_pending pipe_queued = accepted_bytes new ++ tx_pending s'.
Proof.
  assert (W : wf pipe_queued) by by_computation.
  split; [exact W |].
  eassert (E : _sendBuffer 6 pipe_queued = Some (_, 3))
    by (vm_compute; reflexivity).
  destruct (sendBuffer_takes_front 6 pipe_queued _ 3 W E)
    as (new & _ & _ & P & _).
  eexists. exists new. split; [exact E | exact P].
Defined.

Lemma write_keeps_order_witness :
  wf (on_pipe 2 0) /\
  exists s' new,
    write 10 hello 5 (on_pipe 2 0) = Some (s', Returned 5) /\
    calls s' = calls (on_pipe 2 0) ++ new /\
    (forallb keeps_tx new = true ->
     accepted_bytes new ++ tx_pending s'
     = tx_pending (on_pipe 2 0) ++ firstn 5 hello).
Proof.
  assert (W : wf (on_pipe 2 0)) by by_computation.
  split; [exact W |].
  eassert (E : write 10 hello 5 (on_pipe 2 0) = Some (_, Returned 5))
    by (vm_compute; reflexivity).
  assert (R : 0 <= 5 < SIZE_MOD) by by_computation.
  destruct (write_keeps_order 10 hello 5 (on_pipe 2 0) _ 5 W R E)
    as (new & L & Q).
  eexists. exists new. conjs; [exact E | exact L | exact Q].
Defined.

Lemma sending_keeps_received_witness :
  wf pipe_with_data /\
  exists s' more,
    write 10 hello 5 pipe_with_data = Some (s', Returned 5) /\
    rx_pending s' = rx_pending pipe_with_data ++ more.
Proof.
  assert (W : wf pipe_with_data) by by_computation.
  split; [exact W |].
  eassert (E : write 10 hello 5 pipe_with_data = Some (_, Returned 5))
    by (vm_compute; reflexivity).
  destruct (sending_keeps_received pipe_with_data W) as (Wr & _).
  destruct (Wr _ _ _ _ _ E) as [more R].
  eexists. exists more. split; [exact E | exact R].
Defined.


Lemma tx_holds_latest_writes_witness :
  exists s' r older,
    sample_run = Some (s', r) /\ tx_copied s' = older ++ tx_pending s'.
Proof.
  destruct sample_run_unassigned as (s' & E & U).
  destruct (tx_holds_latest_writes s' U) as [older T].
  exists s', (Returned 5), older. split; [exact E | exact T].
Defined.

Lemma reserved_capacity_stays_witness :
  exists s',
    sample_run = Some (s', Returned 5) /\
    _tx_buffer_size s' <= _tx_buffer_capacity s' /\
    exists s'', _onConnect (mkPipe true false 1 []) s' = Returned s''.
Proof.
  destruct sample_run_unassigned as (s' & E & U).
  destruct (reserved_capacity_stays s' U) as (R & C & _).
  exists s'. split; [exact E |]. split; [exact R | apply C].
Defined.

Lemma flush_result_witness :
  wf pipe_queued /\
  exists fuel s' b, flush fuel 77 pipe_queued = Some (s', b).
Proof.
  assert (W : wf pipe_queued) by by_computation.
  split; [exact W |].
  destruct (flush_result 77 pipe_queued W) as (_ & T).
  apply T, pipe_window_reopens.
Defined.

Lemma write_that_fits_witness :
  wf (on_pipe 8 0) /\
  exists s', write 6 hello 5 (on_pipe 8 0) = Some (s', Returned 5).
Proof.
  assert (W : wf (on_pipe 8 0)) by by_computation.
  split; [exact W |].
  apply (write_that_fits 6 hello 5 (on_pipe 8 0) W);
    [reflexivity | vm_compute; split; [reflexivity | discriminate]
     | by_computation
     | vm_compute; reflexivity | by_computation].
Defined.

Lemma write_byte_result_witness :
  wf (on_pipe 8 0) /\
  exists s' new,
    write_byte 3 x68 (on_pipe 8 0) = Some (s', Returned 1) /\
    calls s' = calls (on_pipe 8 0) ++ new /\
    tx_copied s' = tx_copied (on_pipe 8 0) ++ [x68].
Proof.
  assert (W : wf (on_pipe 8 0)) by by_computation.
  split; [exact W |].
  eassert (E : write_byte 3 x68 (on_pipe 8 0) = Some (_, Returned 1))
    by (vm_compute; reflexivity).
  destruct (write_byte_result 3 x68 (on_pipe 8 0) _ _ W E)
    as (new & L & [(_ & C & _) | ([N | N] & _)]);
    [| discriminate N | discriminate N].
  eexists. exists new. conjs; [exact E | exact L | exact C].
Defined.

Lemma ref_then_unref_witness :
  ref_ok (on_pipe 2 0) /\
  fst (unref (fst (ref true (on_pipe 2 0)))) = on_pipe 2 0.
Proof.
  assert (Ok : ref_ok (on_pipe 2 0)) by by_computation.
  split; [exact Ok |].
  now destruct (ref_then_unref (on_pipe 2 0) Ok) as (E & _).
Defined.

Lemma constructors_give_idle_adapter_witness :
  (exists s, SyncClient_new (Conn := Pipe) 8 true = Returned s) /\
  write 3 hello 5 unbound = Some (unbound, Returned 0) /\
  flush 3 0 unbound = Some (unbound, false).
Proof.
  destruct (constructors_give_idle_adapter (Conn := Pipe) 8 true)
    as (N & _ & F & _); [by_computation |].
  split; [apply N; vm_compute; split; [discriminate | right; reflexivity] |].
  destruct (F unbound eq_refl)
    as (_ & _ & _ & _ & _ & _ & _ & _ & Wr & Fl & _).
  split; [apply Wr | apply Fl].
Defined.

Lemma connect_result_witness :
  wf unbound /\
  exists s',
    connect hello 80 5 (Some new_pipe) unbound = Some (s', 1) /\
    connected s' = true.
Proof.
  assert (W : wf unbound) by by_computation.
  split; [exact W |].
  eassert (E : connect hello 80 5 (Some new_pipe) unbound = Some (_, 1))
    by (vm_compute; reflexivity).
  destruct (connect_result (fun c => ac_connect c hello 80) 5 (Some new_pipe)
              unbound _ 1 W E) as (_ & _ & C & _).
  eexists. split; [exact E |]. now destruct C as (_ & C & _).
Defined.

Lemma assign_takes_over_witness :
  wf unbound /\ wf pipe_with_data /\
  rx_pending (fst (assign (Apart pipe_with_data) unbound))
  = rx_pending pipe_with_data /\
  _client (fst (assign (Sharing pipe_with_data) pipe_with_data))
  = Some (mkPipe false false 1 []).
Proof.
  assert (Wu : wf unbound) by by_computation.
  assert (W : wf pipe_with_data) by by_computation.
  split; [exact Wu |]. split; [exact W |].
  destruct (assign_takes_over (Apart pipe_with_data) pipe_with_data unbound
              Wu W (or_introl eq_refl))
    as (_ & _ & _ & _ & _ & _ & _ & Ok & _).
  destruct (assign_takes_over (Sharing pipe_with_data) pipe_with_data
              pipe_with_data W W (or_intror eq_refl))
    as (_ & _ & _ & _ & Sh & _).
  destruct (Ok eq_refl) as (_ & R & _).
  split; [exact R |]. exact (Sh eq_refl _ eq_refl).
Defined.

(** ** Edge cases of [write], and [write] followed by [flush] *)

Section WriteEdges.
Context {Conn : Type} {AC : AsyncClient Conn} {H : Heap}.
Context {K : AsyncClientContract Conn}.
Implicit Types s : SyncClient Conn.

Lemma write_loop_without_room data len fuel s written x :
  wf s -> _tx_buffer_size s = 0 ->
  write_loop fuel data len s written = Some x ->
  match x with
  | LoopEnd s' w | LoopReturn s' w =>
      wf s' /\ w = written /\ tx_copied s' = tx_copied s /\
      vec_size (_tx_buffer s') <= vec_size (_tx_buffer s)
  | LoopRaise _ => False
  end.
Proof.
  intros W Z0 E. destruct fuel as [| fuel].
  - simpl in E. destruct (written <? len); [discriminate |].
    inversion E; subst. conjs; auto; lia.
  - cbn [write_loop] in E. destruct (written <? len).
    2:{ inversion E; subst. conjs; auto; lia. }
    destruct (make_room fuel s) as [rm |] eqn:M; [| discriminate].
    pose proof (make_room_keeps fuel s rm W M) as F.
    destruct rm as [s1 space | s1 | s1].
    + destruct F as (W1 & (_ & _ & Q & _) & Sp & Pos).
      rewrite (tx_space_exact s1 W1), Q, Z0 in Sp.
      unfold tx_unsent in Sp. unfold wf in W1. lia.
    + destruct F as (W1 & (Q & Q2 & _)). inversion E; subst. auto.
    + destruct F as (W1 & (Q & Q2 & _) & _). inversion E; subst. auto.
Qed.

Lemma write_loop_waits data len s written :
  tx_space s = 0 -> written < len ->
  (forall fuel, wait_canSend fuel s = None) ->
  forall fuel, write_loop fuel data len s written = None.
Proof.
  intros Sp Lt Stuck fuel. destruct fuel as [| fuel]; simpl.
  - now replace (written <? len) with true by (symmetry; now apply Z.ltb_lt).
  - replace (written <? len) with true by (symmetry; now apply Z.ltb_lt).
    unfold make_room. rewrite Sp. cbn [Z.eqb]. now rewrite Stuck.
Qed.

(** X18. Two ways for [write] to take nothing.  On an adapter configured
    with a TX size of 0, and for a length of 0 on every adapter, a [write]
    that comes back returns 0, has put nothing into the TX buffer and has
    raised nothing.  It does come back at once when the adapter is not
    connected or the length is 0, and whenever every wait for the send
    window ends.  But with a TX size of 0 and bytes to write, [write] first
    waits for the send window: on a connection that stays up with its window
    closed it never comes back. *)
Theorem write_takes_nothing (data : vec) (len : Z) s :
  wf s -> 0 <= len < SIZE_MOD -> _tx_buffer_size s = 0 \/ len = 0 ->
  (forall fuel s' out,
     write fuel data len s = Some (s', out) ->
     out = Returned 0 /\ tx_copied s' = tx_copied s /\
     vec_size (_tx_buffer s') <= vec_size (_tx_buffer s)) /\
  (connected s = false \/ len = 0 ->
   exists s',
     write (S (Z.to_nat (tx_unsent s))) data len s = Some (s', Returned 0)) /\
  (window_reopens ->
   exists fuel s', write fuel data len s = Some (s', Returned 0)) /\
  (_tx_buffer_size s = 0 -> 0 < len -> connected s = true ->
   (forall fuel, wait_canSend fuel s = None) ->
   forall fuel, write fuel data len s = None).
Proof.
  intros W L Case.
  assert (Post : forall fuel s' out,
            write fuel data len s = Some (s', out) ->
            out = Returned 0 /\ tx_copied s' = tx_copied s /\
            vec_size (_tx_buffer s') <= vec_size (_tx_buffer s)).
  { intros fuel s' out E. unfold write in E.
    destruct (negb (connected s)); [inversion E; subst; conjs; auto; lia |].
    assert (P : exists s1,
               (write_loop fuel data len s 0 = Some (LoopEnd s1 0)
                \/ write_loop fuel data len s 0 = Some (LoopReturn s1 0))
               /\ wf s1 /\ tx_copied s1 = tx_copied s
               /\ vec_size (_tx_buffer s1) <= vec_size (_tx_buffer s)).
    { destruct Case as [Z0 | ->].
      - destruct (write_loop fuel data len s 0) as [x |] eqn:Lp;
          [| discriminate].
        pose proof (write_loop_without_room data len fuel s 0 x W Z0 Lp) as Q.
        destruct x as [s1 w | s1 w | s1]; [| | now elim Q];
          destruct Q as (W1 & -> & Cp & Sz); exists s1; auto.
      - exists s. split; [left; destruct fuel; reflexivity |].
        conjs; auto; lia. }
    destruct P as (s1 & [Lp | Lp] & W1 & Cp & Sz); rewrite Lp in E.
    - destruct (connected s1 && canSend s1).
      + destruct (_sendBuffer fuel s1) as [[s2 n] |] eqn:Sb; [| discriminate].
        inversion E; subst.
        destruct (sendBuffer_post fuel s1 s' n W1 Sb)
          as (_ & (Q1 & Q2 & _) & _).
        conjs; [reflexivity | congruence | lia].
      + inversion E; subst. auto.
    - inversion E; subst. auto. }
  assert (Back : forall fuel s' out,
            write fuel data len s = Some (s', out) ->
            write fuel data len s = Some (s', Returned 0)).
  { intros fuel s' out E. now destruct (Post fuel s' out E) as (-> & _). }
  conjs.
  - exact Post.
  - intros [C | ->].
    + exists s. unfold write. now rewrite C.
    + unfold write. destruct (negb (connected s)); [eauto |].
      cbn [write_loop Z.ltb Z.compare].
      destruct (sendBuffer_total (S (Z.to_nat (tx_unsent s))) s W ltac:(lia))
        as (s2 & n & Sb).
      rewrite Sb. destruct (connected s && canSend s); eauto.
  - intros Live.
    destruct (write_total data len s Live W L) as (fuel & s' & out & E).
    exists fuel, s'. eapply Back, E.
  - intros Z0 Pos C Stuck fuel. unfold write. rewrite C. cbn [negb].
    rewrite write_loop_waits; auto.
    rewrite (tx_space_exact s W), Z0. unfold tx_unsent.
    unfold wf in W. lia.
Qed.

(** X19. [write] followed by a [flush] that returns true has handed
    everything over.  When no connect or disconnect callback has emptied the
    TX buffer meanwhile, the bytes the connection accepted during the two
    calls are, in order, the bytes that waited before the [write] followed
    by the [r] bytes the [write] took. *)
Theorem write_then_flush_delivers (fuel fuel' : nat) (data : vec)
  (len maxWaitMs : Z) s s1 s2 (r : Z) :
  wf s -> 0 <= len < SIZE_MOD ->
  write fuel data len s = Some (s1, Returned r) ->
  flush fuel' maxWaitMs s1 = Some (s2, true) ->
  exists new,
    calls s2 = calls s ++ new /\
    (forallb keeps_tx new = true ->
     accepted_bytes new = tx_pending s ++ firstn (Z.to_nat r) data).
Proof.
  intros W L Ew Ef.
  destruct (write_post fuel data len s s1 _ W L Ew) as (W1 & _ & Cp1).
  destruct (orderly_write fuel data len s s1 _ W Ew) as (_ & _ & _ & C1).
  destruct (orderly_flush fuel' maxWaitMs s1 s2 true W1 Ef)
    as (_ & _ & _ & C2).
  destruct (flush_cases maxWaitMs s1 W1) as (Fc & _).
  destruct (Fc fuel' s2 true Ef) as (_ & T & Cp2 & _).
  destruct T as [T _]. destruct (T eq_refl) as (_ & _ & U).
  pose proof (flush_keeps fuel' maxWaitMs s1 s2 true W1 Ef) as W2.
  pose proof (tx_pending_size s2 W2) as Sz. rewrite U in Sz.
  apply vec_size_zero in Sz.
  destruct (carries_trans s s1 s2 C1 C2) as (new & added & Lg & Cp & Q).
  exists new. split; [exact Lg |]. intros Fk.
  specialize (Q Fk). rewrite Sz, app_nil_r in Q. rewrite Q. f_equal.
  rewrite Cp2, Cp1 in Cp. now apply app_inv_head in Cp.
Qed.

End WriteEdges.

Lemma wedged_never_sends : forall fuel, wait_canSend fuel wedged = None.
Proof. induction fuel as [| fuel IH]; [reflexivity | exact IH]. Qed.

Lemma write_takes_nothing_witness :
  wf (on_pipe 0 4) /\ wf wedged /\
  (exists s',
     write 10 hello 5 (on_pipe 0 4) = Some (s', Returned 0) /\
     tx_copied s' = tx_copied (on_pipe 0 4)) /\
  write 10 hello 5 wedged = None.
Proof.
  assert (W : wf (on_pipe 0 4)) by by_computation.
  assert (Ww : wf wedged) by by_computation.
  assert (R : 0 <= 5 < SIZE_MOD) by by_computation.
  split; [exact W |]. split; [exact Ww |].
  destruct (write_takes_nothing hello 5 (on_pipe 0 4) W R (or_introl eq_refl))
    as (Post & _).
  destruct (write_takes_nothing hello 5 wedged Ww R (or_introl eq_refl))
    as (_ & _ & _ & Hang).
  split.
  - eassert (E : write 10 hello 5 (on_pipe 0 4) = Some (_, Returned 0))
      by (vm_compute; reflexivity).
    destruct (Post _ _ _ E) as (_ & C & _).
    eexists. split; [exact E | exact C].
  - apply Hang; [reflexivity | by_computation | reflexivity |].
    exact wedged_never_sends.
Defined.

Lemma write_then_flush_delivers_witness :
  wf (on_pipe 8 3) /\
  exists s1 s2 new,
    write 10 hello 5 (on_pipe 8 3) = Some (s1, Returned 5) /\
    flush 10 0 s1 = Some (s2, true) /\
    calls s2 = calls (on_pipe 8 3) ++ new /\
    (forallb keeps_tx new = true ->
     accepted_bytes new = tx_pending (on_pipe 8 3) ++ firstn 5 hello).
Proof.
  assert (W : wf (on_pipe 8 3)) by by_computation.
  assert (R : 0 <= 5 < SIZE_MOD) by by_computation.
  split; [exact W |].
  eassert (Ew : write 10 hello 5 (on_pipe 8 3) = Some (_, Returned 5))
    by (vm_compute; reflexivity).
  match type of Ew with
  | _ = Some (?s1, _) =>
      eassert (Ef : flush 10 0 s1 = Some (_, true))
        by (vm_compute; reflexivity)
  end.
  destruct (write_then_flush_delivers 10 10 hello 5 0 (on_pipe 8 3) _ _ 5
              W R Ew Ef) as (new & L & Q).
  do 2 eexists. exists new. conjs; [exact Ew | exact Ef | exact L | exact Q].
Defined.
